(** * twisted.news.database: articles and the storage backends

    A shallow embedding of [src/twisted/news/database.py] (the [Article]
    class, [_ModerationMixin], [PickleStorage] and [NewsShelf]) and the
    properties of the storage contract checked against it.

    Conventions of the embedding.
    - A Python [str] is a [string]; characters are bytes, so the model
      covers ASCII text ([len] counts characters, [lower] folds A-Z).
    - A Python [dict] whose iteration order is observable (an article's
      headers, a group's index table) is an insertion-ordered association
      list [dict K V]; the key-addressed tables of the stores are [gmap]s.
    - A Python exception is a value of [exn]; code that may raise returns
      [res A], and a request that changes the store returns the store
      next to it, as the exception leaves it.  A [Deferred] that has
      already fired is a [deferred A].  The language is Python 3: an int
      is not compared with [None] or with a [str].
    - The clock, the host name, the MD5 digest, the mail transport and
      the text of a notification mail are collaborators, bundled in a
      [world].  Writing the pickle file ([flush]) is not part of the
      model.  [NewsStorageAugmentation], which delegates to SQL, is not
      embedded. *)

From Stdlib Require Import ZArith Ascii String List Lia DecimalString.
From Stdlib Require DecimalPos DecimalZ.
From stdpp Require Import base option list gmap strings.

Local Open Scope string_scope.
Local Open Scope list_scope.
Local Open Scope Z_scope.

(** ** Exceptions and fired Deferreds *)

Inductive exn : Type :=
| KeyError | IndexError | TypeError | AttributeError | ValueError
| NotImplementedError.

Inductive res (A : Type) : Type :=
| Return (a : A)
| Raise (e : exn).
Arguments Return {A} a.
Arguments Raise {A} e.

Definition bind {A B} (m : res A) (k : A → res B) : res B :=
  match m with
  | Return a => k a
  | Raise e => Raise e
  end.

Notation "'let!' x := m 'in' k" := (bind m (fun x => k))
  (at level 10, x name, m at level 100, k at level 200).
Notation "'let!' ' p := m 'in' k" := (bind m (fun p => k))
  (at level 10, p pattern, m at level 100, k at level 200).

(** [for x in l: acc = f(acc, x)], stopping at the first exception. *)
Fixpoint foldM {A B} (f : A → B → res A) (l : list B) (acc : A) : res A :=
  match l with
  | [] => Return acc
  | x :: l' => bind (f acc x) (foldM f l')
  end.

(** The value an errback receives.  [FNone] is [defer.fail(None)],
    [FCode n] is [defer.fail(n)] for one of the ERR_ constants and
    [FError msg] is [defer.fail(NewsServerError(msg))]. *)
Inductive failure : Type :=
| FNone
| FCode (n : Z)
| FError (msg : string).

Inductive deferred (A : Type) : Type :=
| Succeed (a : A)
| Fail (f : failure).
Arguments Succeed {A} a.
Arguments Fail {A} f.

Definition ERR_NOGROUP : Z := 2.
Definition ERR_NOARTICLE : Z := 3.

Definition OVERVIEW_FMT : list string :=
  ["Subject"; "From"; "Date"; "Message-ID"; "References";
   "Bytes"; "Lines"; "Xref"].

(** ** Python strings *)

Definition CR : ascii := "013"%char.
Definition LF : ascii := "010"%char.
Definition TAB : ascii := "009"%char.
Definition CRLF : string := String CR (String LF "").
Definition NL : string := String LF "".

(** [str.lower], on ASCII. *)
Definition lower_char (c : ascii) : ascii :=
  let n := N_of_ascii c in
  if ((65 <=? n) && (n <=? 90))%N then ascii_of_N (n + 32) else c.

Fixpoint lower (s : string) : string :=
  match s with
  | "" => ""
  | String c r => String (lower_char c) (lower r)
  end.

(** [len(s)] and [s.count('\n')]. *)
Definition len (s : string) : Z := Z.of_nat (String.length s).

Fixpoint count_char (c : ascii) (s : string) : Z :=
  match s with
  | "" => 0
  | String d r => (if Ascii.eqb d c then 1 else 0) + count_char c r
  end.

(** [str(n)] for an [int]. *)
Definition str (n : Z) : string := NilZero.string_of_int (Z.to_int n).

(** [sep.join(l)] *)
Definition join (sep : string) (l : list string) : string :=
  String.concat sep l.

Definition cons_hd (c : ascii) (l : list string) : list string :=
  match l with
  | [] => [String c ""]
  | x :: xs => String c x :: xs
  end.

(** [s.split('\r\n')]: the separator is searched left to right. *)
Fixpoint split_crlf (s : string) : list string :=
  match s with
  | "" => [""]
  | String c r =>
      match r with
      | String d r' =>
          if Ascii.eqb c CR && Ascii.eqb d LF then "" :: split_crlf r'
          else cons_hd c (split_crlf r)
      | "" => cons_hd c (split_crlf r)
      end
  end.

(** A header as [Article.headers] stores it: [tuple(line.split(': ', 1))]
    has one component when the line holds no [': '] and two otherwise. *)
Inductive htuple : Type :=
| T1 (name : string)
| T2 (name value : string).

Definition tuple_name (t : htuple) : string :=
  match t with T1 n => n | T2 n _ => n end.

Definition cons_name (c : ascii) (t : htuple) : htuple :=
  match t with
  | T1 n => T1 (String c n)
  | T2 n v => T2 (String c n) v
  end.

(** [line.split(': ', 1)] *)
Fixpoint split_colon (line : string) : htuple :=
  match line with
  | "" => T1 ""
  | String c r =>
      match r with
      | String d r' =>
          if Ascii.eqb c ":" && Ascii.eqb d " " then T2 "" r'
          else cons_name c (split_colon r)
      | "" => cons_name c (split_colon r)
      end
  end.

(** [line[0:1] in ' \t']: a substring test, so it also holds of the
    empty line. *)
Definition is_continuation (line : string) : bool :=
  match line with
  | "" => true
  | String c _ => Ascii.eqb c " " || Ascii.eqb c TAB
  end.

(** [str.isspace] on ASCII: the characters [str.split()] cuts at. *)
Definition is_space (c : ascii) : bool :=
  let n := N_of_ascii c in
  (((9 <=? n) && (n <=? 13)) || ((28 <=? n) && (n <=? 32)))%N.

(** [s.split()]: maximal runs of non-space characters. *)
Fixpoint words_go (cur : option string) (s : string) : list string :=
  match s with
  | "" => match cur with Some w => [w] | None => [] end
  | String c r =>
      if is_space c then
        match cur with
        | Some w => w :: words_go None r
        | None => words_go None r
        end
      else
        words_go (Some (match cur with Some w => w +:+ String c "" | None => String c "" end)) r
  end.

Definition words (s : string) : list string := words_go None s.

(** [s.find(needle)], counting from [i]. *)
Fixpoint find_from (needle s : string) (i : Z) : Z :=
  if String.prefix needle s then i
  else match s with
       | "" => -1
       | String _ r => find_from needle r (i + 1)
       end.

Definition find (needle s : string) : Z := find_from needle s 0.

(** Slices [s[:n]] and [s[n:]] with Python's treatment of a negative
    bound (counted from the end) and of a bound past the end. *)
Fixpoint take_str (n : nat) (s : string) : string :=
  match n, s with
  | S n', String c r => String c (take_str n' r)
  | _, _ => ""
  end.

Fixpoint drop_str (n : nat) (s : string) : string :=
  match n, s with
  | S n', String _ r => drop_str n' r
  | _, _ => s
  end.

Definition slice_bound (s : string) (n : Z) : nat :=
  Z.to_nat (if n <? 0 then Z.max 0 (len s + n) else n).

Definition slice_to (s : string) (n : Z) : string := take_str (slice_bound s n) s.
Definition slice_from (s : string) (n : Z) : string := drop_str (slice_bound s n) s.

(** ** Insertion-ordered dictionaries *)

Definition dict (K V : Type) : Type := list (K * V).

Section dict.
Context {K V : Type} `{EqDecision K}.

Fixpoint dict_get (d : dict K V) (k : K) : option V :=
  match d with
  | [] => None
  | (k', v) :: d' => if decide (k = k') then Some v else dict_get d' k
  end.

(** [d[k] = v]: an existing key keeps its place, a new one goes last. *)
Fixpoint dict_set (d : dict K V) (k : K) (v : V) : dict K V :=
  match d with
  | [] => [(k, v)]
  | (k', v') :: d' =>
      if decide (k = k') then (k', v) :: d' else (k', v') :: dict_set d' k v
  end.

Definition dict_keys (d : dict K V) : list K := d.*1.
Definition dict_values (d : dict K V) : list V := d.*2.
Definition dict_has (d : dict K V) (k : K) : bool := bool_decide (is_Some (dict_get d k)).
End dict.

(** ** The collaborators *)

Record world : Type := World {
  hostname : string;            (* socket.gethostname() *)
  time_str : string;            (* str(time.time()) *)
  ctime_str : string;           (* time.ctime(time.time()) *)
  md5hex : string → string;     (* hexdigest(md5(s.encode("utf-8"))) *)
  mail_outcome : Type;          (* what smtp.sendmail's Deferred fires with *)
  sendmail : option string → string → list string → string → mail_outcome;
  (* the text email.generator flattens the notification to, from the
     sender, the moderators, the subject line, the article's headers
     and its body *)
  flatten : string → list string → string → list (string * string) → string → string;
  (* what a dirdbm shelf answers when it is indexed by a str instead of
     the bytes its keys are *)
  str_key : ∀ V : Type, gmap string V → string → res V
}.
Arguments str_key w {V} m k.

(** ** Article *)

Record Article : Type := mkArticle {
  body : string;
  headers : dict string htuple
}.

Definition getHeader (a : Article) (header : string) : res string :=
  let h := lower header in
  match dict_get (headers a) h with
  | Some (T2 _ v) => Return v
  | Some (T1 _) => Raise IndexError
  | None => Return ""
  end.

Definition putHeader (a : Article) (header value : string) : Article :=
  mkArticle (body a) (dict_set (headers a) (lower header) (T2 header value)).

Definition format_header (t : htuple) : res string :=
  match t with
  | T2 n v => Return (n +:+ ": " +:+ v)
  | T1 _ => Raise IndexError
  end.

Fixpoint mapM {A B} (f : A → res B) (l : list A) : res (list B) :=
  match l with
  | [] => Return []
  | x :: l' => let! y := f x in let! ys := mapM f l' in Return (y :: ys)
  end.

Definition textHeaders (a : Article) : res string :=
  let! lines := mapM format_header (dict_values (headers a)) in
  Return (join CRLF lines +:+ CRLF).

Definition overview (a : Article) : res (list string) :=
  mapM (getHeader a) OVERVIEW_FMT.

(** One turn of the loop of [Article.__init__]; the state is
    [self.headers] and the local [header]. *)
Definition parse_line (st : dict string htuple * option string) (line : string)
  : res (dict string htuple * option string) :=
  let '(hs, header) := st in
  if is_continuation line then
    match header with
    | None => Raise KeyError
    | Some h =>
        match dict_get hs h with
        | None => Raise KeyError
        | Some (T1 _) => Raise IndexError
        | Some (T2 n v) => Return (dict_set hs h (T2 n (v +:+ CRLF +:+ line)), Some h)
        end
    end
  else
    let i := split_colon line in
    let h := lower (tuple_name i) in
    Return (dict_set hs h i, Some h).

Definition default_header (a : Article) (header value : string) : res Article :=
  let! v := getHeader a header in
  Return (if decide (v = "") then putHeader a header value else a).

Definition new_message_id (w : world) (body : string) : string :=
  "<" +:+ (md5hex w (time_str w +:+ body) +:+ "@" +:+ hostname w) +:+ ">".

(** [Article.__init__] *)
Definition Article_init (w : world) (head body : string) : res Article :=
  let! '(hs, _) := foldM parse_line (split_crlf head) ([], None) in
  let a := mkArticle body hs in
  let! a := default_header a "Message-ID" (new_message_id w body) in
  let! a := default_header a "Bytes" (str (len body)) in
  let! a := default_header a "Lines" (str (count_char LF body)) in
  default_header a "Date" (ctime_str w).

(** The first two lines of every [postRequest]. *)
Definition cleave (message : string) : string * string :=
  let c := find (CRLF +:+ CRLF) message in
  (slice_to message c, slice_from message (c + 4)).

(** ** Moderation *)

(** The storage object's mail settings, [self._mailhost] and
    [self._sender]. *)
Record mailcfg : Type := MailCfg {
  cfg_mailhost : option string;
  cfg_sender : option string
}.

(** [for header, value in article.headers.values()] *)
Definition unpack_header (t : htuple) : res (string * string) :=
  match t with
  | T2 h v => Return (h, v)
  | T1 _ => Raise ValueError
  end.

Definition notifyModerators (w : world) (cfg : mailcfg)
    (moderators : list string) (article : Article) : res (mail_outcome w) :=
  let! group := getHeader article "Newsgroups" in
  let! subject := getHeader article "Subject" in
  let sender :=
    match cfg_sender cfg with
    | None => "twisted-news@" +:+ hostname w
    | Some s => s
    end in
  let! payload := mapM unpack_header (dict_values (headers article)) in
  Return (sendmail w (cfg_mailhost cfg) sender moderators
            (flatten w sender moderators
               ("Moderate new " +:+ group +:+ " message: " +:+ subject)
               payload (body article))).

(** What [postRequest] returns: the Deferred of the mail transport when
    the post is diverted to the moderators, its own Deferred otherwise. *)
Inductive post_result (w : world) : Type :=
| Mailed (o : mail_outcome w)
| Posted (d : deferred unit).
Arguments Mailed {w} o.
Arguments Posted {w} d.

(** [socket.gethostname().split()[0]] *)
Definition host_word (w : world) : res string :=
  match words (hostname w) with
  | h :: _ => Return h
  | [] => Raise IndexError
  end.

(** [':'.join(x)] for an entry [(group, str(index))] of [xref]. *)
Definition xref_pair (x : string * string) : string :=
  join ":" [x.1; x.2].

(** [min] and [max] of a non-empty list of ints. *)
Definition max_list (k : Z) (ks : list Z) : Z := fold_left Z.max ks k.
Definition min_list (k : Z) (ks : list Z) : Z := fold_left Z.min ks k.

(** ** PickleStorage *)

(** [self.db]: the list under ['groups'], the registry under
    ['moderators'], and under every other key the table of a group,
    from article index to article.  (A store created with a group that
    is itself called ['groups'] or ['moderators'] has a table under that
    key instead; such stores are not states of the model.) *)
Record pickle_db : Type := PickleDB {
  p_groups : option (list string);
  p_moderators : gmap string (list string);
  p_tables : gmap string (dict Z Article)
}.

Inductive entry : Type :=
| Names (l : option (list string))
| Registry (m : gmap string (list string))
| Table (t : dict Z Article).

(** [self.db.get(key)]: ['groups'] and ['moderators'] are keys of the
    same dictionary as the group names. *)
Definition db_get (db : pickle_db) (key : string) : option entry :=
  if decide (key = "groups") then Some (Names (p_groups db))
  else if decide (key = "moderators") then Some (Registry (p_moderators db))
  else Table <$> p_tables db !! key.

Definition set_table (db : pickle_db) (group : string) (t : dict Z Article) : pickle_db :=
  PickleDB (p_groups db) (p_moderators db) (<[group := t]> (p_tables db)).

Module Pickle.

(** [moderators.extend(self.db['moderators'].get(group, None))]:
    extending a list with [None] raises [TypeError]. *)
Definition getModerators (db : pickle_db) (groups : list string) : res (list string) :=
  let! moderators :=
    foldM (fun moderators group =>
             match p_moderators db !! group with
             | Some l => Return (moderators ++ l)
             | None => Raise TypeError
             end) groups [] in
  Return (filter (fun moderator => moderator ≠ "") moderators).

(** The index the next article gets in a table. *)
Definition next_index (t : dict Z Article) : Z :=
  match dict_keys t with
  | [] => 1
  | k :: ks => max_list k ks + 1
  end.

(** One turn of the loop of [postRequest].  The local [xref] is kept
    with numeric indices; [str] is applied where it is read.
    Under ['groups'] is a list (or [None]), which has no [keys].  When
    the loop runs, [getModerators] has returned, so the registry has an
    entry for every target group: for the target ['moderators'] its keys
    are a non-empty list of strings and [max(...) + 1] raises
    [TypeError]. *)
Definition post_group (a : Article) (st : pickle_db * list (string * Z)) (group : string)
  : pickle_db * list (string * Z) + exn :=
  let '(db, xref) := st in
  match db_get db group with
  | None => inl (db, xref)
  | Some (Names _) => inr AttributeError
  | Some (Registry _) => inr TypeError
  | Some (Table t) =>
      let index := next_index t in
      inl (set_table db group (dict_set t index a), xref ++ [(group, index)])
  end.

(** The loop; an exception leaves the store as the turns before it
    made it. *)
Fixpoint post_loop (a : Article) (groups : list string) (st : pickle_db * list (string * Z))
  : pickle_db * res (list (string * Z)) :=
  match groups with
  | [] => (st.1, Return st.2)
  | group :: groups' =>
      match post_group a st group with
      | inl st' => post_loop a groups' st'
      | inr e => (st.1, Raise e)
      end
  end.

(** Every table slot filled by the loop holds the one object [a]; the
    [putHeader] after the loop is seen through each of them. *)
Definition restamp (a : Article) (db : pickle_db) (xref : list (string * Z)) : pickle_db :=
  fold_left (fun db x =>
               match p_tables db !! x.1 with
               | Some t => set_table db x.1 (dict_set t x.2 a)
               | None => db
               end) xref db.

Definition xref_text (xref : list (string * Z)) : string :=
  join "" (map (fun x => xref_pair (x.1, str x.2)) xref).

Definition postRequest (w : world) (cfg : mailcfg) (db : pickle_db) (message : string)
  : pickle_db * res (post_result w) :=
  let '(headers, article) := cleave message in
  match
    (let! a := Article_init w headers article in
     let! newsgroups := getHeader a "Newsgroups" in
     let groups := words newsgroups in
     let! moderators := getModerators db groups in
     let! divert :=
       match moderators with
       | [] => Return false
       | _ => let! approved := getHeader a "Approved" in
              Return (bool_decide (approved = ""))
       end in
     Return (a, groups, moderators, divert))
  with
  | Raise e => (db, Raise e)
  | Return (a, groups, moderators, true) =>
      (db, let! o := notifyModerators w cfg moderators a in Return (Mailed o))
  | Return (a, groups, moderators, false) =>
      match post_loop a groups (db, []) with
      | (db', Raise e) => (db', Raise e)
      | (db', Return []) => (db', Return (Posted (Fail FNone)))
      | (db', Return xref) =>
          match host_word w with
          | Raise e => (db', Raise e)
          | Return host =>
              let a' := putHeader a "Xref" (host +:+ " " +:+ xref_text xref) in
              (restamp a' db' xref, Return (Posted (Succeed tt)))
          end
      end
  end.

Definition table_flags (db : pickle_db) (i : string) : string :=
  if decide (is_Some (p_moderators db !! i)) then "m" else "y".

(** One turn of the loop of [listRequest]. *)
Definition list_group (db : pickle_db) (i : string) : res (string * Z * Z * string) :=
  match db_get db i with
  | None => Raise KeyError
  | Some (Names _) => Raise AttributeError
  | Some (Registry m) =>
      if decide (m = ∅) then Return (i, 0, 0, table_flags db i) else Raise TypeError
  | Some (Table t) =>
      match dict_keys t with
      | [] => Return (i, 0, 0, table_flags db i)
      | k :: ks => Return (i, max_list k ks + 1, min_list k ks, table_flags db i)
      end
  end.

Definition listRequest (db : pickle_db) : res (deferred (list (string * Z * Z * string))) :=
  match p_groups db with
  | None => Raise TypeError
  | Some l => let! r := mapM (list_group db) l in Return (Succeed r)
  end.

(** [(low is None or i >= low) and (high is None or i <= high)] *)
Definition xover_in_range (low high : option Z) (i : Z) : bool :=
  (match low with None => true | Some l => bool_decide (l ≤ i) end)
  && (match high with None => true | Some h => bool_decide (i ≤ h) end).

(** [low is None or i >= low and high is None or i <= high]: [and]
    binds tighter than [or]; comparing an int with [None] raises. *)
Definition xhdr_in_range (low high : option Z) (i : Z) : res bool :=
  match low with
  | None => Return true
  | Some l =>
      if bool_decide (l ≤ i) then
        match high with
        | None => Return true
        | Some h => Return (bool_decide (i ≤ h))
        end
      else
        match high with
        | None => Raise TypeError
        | Some h => Return (bool_decide (i ≤ h))
        end
  end.

Definition xoverRequest (db : pickle_db) (group : string) (low high : option Z)
  : res (deferred (list (list string))) :=
  match db_get db group with
  | None => Return (Succeed [])
  | Some (Names _) => Raise AttributeError
  | Some (Registry m) =>
      if decide (m = ∅) then Return (Succeed [])
      else match low, high with
           | None, None => Raise AttributeError
           | _, _ => Raise TypeError
           end
  | Some (Table t) =>
      let! r :=
        foldM (fun r '(i, a) =>
                 if xover_in_range low high i then
                   let! o := overview a in Return (r ++ [str i :: o])
                 else Return r) t [] in
      Return (Succeed r)
  end.

Definition xhdrRequest (db : pickle_db) (group : string) (low high : option Z) (header : string)
  : res (deferred (list (Z * string))) :=
  match db_get db group with
  | None => Return (Succeed [])
  | Some (Names _) => Raise AttributeError
  | Some (Registry m) =>
      if decide (m = ∅) then Return (Succeed [])
      else match low with
           | None => Raise AttributeError
           | Some _ => Raise TypeError
           end
  | Some (Table t) =>
      let! r :=
        foldM (fun r '(i, a) =>
                 let! c := xhdr_in_range low high i in
                 if c then let! v := getHeader a header in Return (r ++ [(i, v)])
                 else Return r) t [] in
      Return (Succeed r)
  end.

(** [min] and [max] of the keys of the registry, which are strings. *)
Definition max_str (k : string) (ks : list string) : string :=
  fold_left (fun m x => if String.ltb m x then x else m) ks k.
Definition min_str (k : string) (ks : list string) : string :=
  fold_left (fun m x => if String.ltb x m then x else m) ks k.

(** The bounds [groupRequest] reports are taken from the keys of
    [self.db[group]]: ints for a group, strings for the registry. *)
Inductive bound : Type :=
| IntB (n : Z)
| StrB (s : string).

Definition groupRequest (db : pickle_db) (group : string)
  : res (deferred (string * Z * bound * bound * string)) :=
  match db_get db group with
  | None => Return (Fail (FCode ERR_NOGROUP))
  | Some (Names _) => Raise AttributeError
  | Some (Registry m) =>
      match (map_to_list m).*1 with
      | [] => Return (Succeed (group, 0, IntB 0, IntB 0, "y"))
      | k :: ks =>
          Return (Succeed (group, Z.of_nat (length (k :: ks)),
                           StrB (max_str k ks), StrB (min_str k ks), "y"))
      end
  | Some (Table t) =>
      match dict_keys t with
      | [] => Return (Succeed (group, 0, IntB 0, IntB 0, "y"))
      | k :: ks =>
          Return (Succeed (group, Z.of_nat (length (k :: ks)),
                           IntB (max_list k ks), IntB (min_list k ks), "y"))
      end
  end.

(** [index in self.db[group]], then [self.db[group][index]]; the index
    is an int, so it is in no list of names and in no registry. *)
Definition lookup_article {A} (db : pickle_db) (group : string) (index : Z)
    (k : Article → res A) : res (deferred A) :=
  match db_get db group with
  | None => Return (Fail (FCode ERR_NOGROUP))
  | Some (Names None) => Raise TypeError
  | Some (Names (Some _)) => Return (Fail (FCode ERR_NOARTICLE))
  | Some (Registry _) => Return (Fail (FCode ERR_NOARTICLE))
  | Some (Table t) =>
      match dict_get t index with
      | None => Return (Fail (FCode ERR_NOARTICLE))
      | Some a => let! r := k a in Return (Succeed r)
      end
  end.

Definition articleRequest (db : pickle_db) (group : string) (index : Z) (id : option string)
  : res (deferred (Z * string * string)) :=
  match id with
  | Some _ => Raise NotImplementedError
  | None =>
      lookup_article db group index (fun a =>
        let! m := getHeader a "Message-ID" in
        let! h := textHeaders a in
        Return (index, m, h +:+ CRLF +:+ body a))
  end.

Definition headRequest (db : pickle_db) (group : string) (index : Z)
  : res (deferred (Z * string * string)) :=
  lookup_article db group index (fun a =>
    let! m := getHeader a "Message-ID" in
    let! h := textHeaders a in
    Return (index, m, h)).

Definition bodyRequest (db : pickle_db) (group : string) (index : Z)
  : res (deferred (Z * string * string)) :=
  lookup_article db group index (fun a =>
    let! m := getHeader a "Message-ID" in
    Return (index, m, body a)).

(** [overviewRequest] and [subscriptionRequest] *)
Definition overviewRequest : deferred (list string) := Succeed OVERVIEW_FMT.

Definition subscriptionRequest : deferred (list string) := Succeed ["alt.test"].

(** The inner loop of [articleExistsRequest]: whether one of the
    articles has the id. *)
Fixpoint has_id (id : string) (articles : list Article) : res bool :=
  match articles with
  | [] => Return false
  | a :: articles' =>
      let! m := getHeader a "Message-ID" in
      if decide (m = id) then Return true else has_id id articles'
  end.

(** [self.db[group].values()] and the inner loop: a list has no
    [values], and the values of the registry are lists, which have no
    [getHeader]. *)
Definition group_has_id (db : pickle_db) (id group : string) : res bool :=
  match db_get db group with
  | None => Raise KeyError
  | Some (Names _) => Raise AttributeError
  | Some (Registry m) => if decide (m = ∅) then Return false else Raise AttributeError
  | Some (Table t) => has_id id (dict_values t)
  end.

Fixpoint any_group_has_id (db : pickle_db) (id : string) (groups : list string) : res bool :=
  match groups with
  | [] => Return false
  | group :: groups' =>
      let! found := group_has_id db id group in
      if found then Return true else any_group_has_id db id groups'
  end.

Definition articleExistsRequest (db : pickle_db) (id : string) : res (deferred Z) :=
  match p_groups db with
  | None => Raise TypeError
  | Some groups =>
      let! found := any_group_has_id db id groups in
      Return (Succeed (if found then 1 else 0))
  end.


End Pickle.

(** ** NewsShelf *)

Record Group : Type := mkGroup {
  g_name : string;
  g_flags : string;
  minArticle : Z;
  maxArticle : Z;
  articles : dict Z Article
}.

(** [Group(name, flags)] *)
Definition new_group (name flags : string) : Group :=
  mkGroup name flags 1 0 [].

(** [self.dbm]: the four tables [initialize] creates.  A shelf keeps a
    pickled copy of what is assigned to a key, and its keys are bytes. *)
Record shelf : Type := Shelf {
  s_groups : gmap string Group;
  s_moderators : gmap string string;
  s_subscriptions : list string;
  s_message_ids : gmap string (list (string * string))
}.

(** [s.encode("utf-8")], on ASCII. *)
Definition encode (s : string) : string := s.

Definition set_group (s : shelf) (key : string) (g : Group) : shelf :=
  Shelf (<[key := g]> (s_groups s)) (s_moderators s) (s_subscriptions s) (s_message_ids s).

Definition set_message_id (s : shelf) (key : string) (xref : list (string * string)) : shelf :=
  Shelf (s_groups s) (s_moderators s) (s_subscriptions s) (<[key := xref]> (s_message_ids s)).

Module NewsShelf.

Definition listRequest (s : shelf) : deferred (list (string * Z * Z * string)) :=
  Succeed (map (fun g => (g_name g, maxArticle g, minArticle g, g_flags g))
               (map_to_list (s_groups s)).*2).

Fixpoint getModerator (s : shelf) (groups : list string) : option string :=
  match groups with
  | [] => None
  | group :: groups' =>
      match s_moderators s !! encode group with
      | Some m => Some m
      | None => getModerator s groups'
      end
  end.

(** One turn of the loop of [postRequest]. *)
Definition post_group (article : Article) (st : shelf * list (string * string)) (group : string)
  : shelf * list (string * string) :=
  let '(s, xref) := st in
  match s_groups s !! encode group with
  | None => (s, xref)
  | Some g =>
      let index := maxArticle g + 1 in
      let g' := mkGroup (g_name g) (g_flags g) (minArticle g) (maxArticle g + 1)
                        (dict_set (articles g) index article) in
      (set_group s (encode group) g', xref ++ [(group, str index)])
  end.

Definition xref_text (xref : list (string * string)) : string :=
  join " " (map xref_pair xref).

Definition postRequest (w : world) (cfg : mailcfg) (s : shelf) (message : string)
  : shelf * res (post_result w) :=
  let '(headers, body) := cleave message in
  match
    (let! article := Article_init w headers body in
     let! newsgroups := getHeader article "Newsgroups" in
     let groups := words newsgroups in
     let moderator := getModerator s groups in
     let! divert :=
       match moderator with
       | None => Return None
       | Some m =>
           if decide (m = "") then Return None
           else let! approved := getHeader article "Approved" in
                Return (if decide (approved = "") then Some m else None)
       end in
     Return (article, groups, divert))
  with
  | Raise e => (s, Raise e)
  | Return (article, groups, Some moderator) =>
      (s, let! o := notifyModerators w cfg [moderator] article in Return (Mailed o))
  | Return (article, groups, None) =>
      match fold_left (post_group article) groups (s, []) with
      | (s', []) =>
          (s', Return (Posted (Fail (FError ("No groups carried: " +:+ join " " groups)))))
      | (s', xref) =>
          match host_word w with
          | Raise e => (s', Raise e)
          | Return host =>
              let article' := putHeader article "Xref" (host +:+ " " +:+ xref_text xref) in
              match getHeader article' "Message-ID" with
              | Raise e => (s', Raise e)
              | Return id =>
                  (set_message_id s' (encode id) xref, Return (Posted (Succeed tt)))
              end
          end
      end
  end.

(** [range(low, high + 1)] *)
Definition range (low high : Z) : list Z :=
  map (fun k => low + Z.of_nat k) (seq 0 (Z.to_nat (high + 1 - low))).

(** [xoverRequest] indexes [self.dbm[b'groups']] by the [str] it was
    given, not by its encoding. *)
Definition xoverRequest (w : world) (s : shelf) (group : string) (low high : option Z)
  : res (deferred (list (list string))) :=
  match s_groups s !! encode group with
  | None => Return (Succeed [])
  | Some _ =>
      let low := default 0 low in
      let! high :=
        match high with
        | None => let! g := str_key w (s_groups s) group in Return (maxArticle g)
        | Some high => Return high
        end in
      let! r :=
        foldM (fun r i =>
                 let! g := str_key w (s_groups s) group in
                 match dict_get (articles g) i with
                 | Some a => let! o := overview a in Return (r ++ [str i :: o])
                 | None => Return r
                 end) (range low high) [] in
      Return (Succeed r)
  end.

(** [xhdrRequest] does the same for the default of [high] only. *)
Definition xhdrRequest (w : world) (s : shelf) (group : string) (low high : option Z)
    (header : string) : res (deferred (list (Z * string))) :=
  match s_groups s !! encode group with
  | None => Return (Succeed [])
  | Some g =>
      let low := default 0 low in
      let! high :=
        match high with
        | None => let! g := str_key w (s_groups s) group in Return (maxArticle g)
        | Some high => Return high
        end in
      let! r :=
        foldM (fun r i =>
                 match dict_get (articles g) i with
                 | Some a => let! v := getHeader a header in Return (r ++ [(i, v)])
                 | None => Return r
                 end) (range low high) [] in
      Return (Succeed r)
  end.

Definition groupRequest (s : shelf) (group : string)
  : deferred (string * Z * Z * Z * string) :=
  match s_groups s !! encode group with
  | None => Fail (FError ("No such group: " +:+ group))
  | Some g =>
      let flags := g_flags g in
      let low := minArticle g in
      let high := maxArticle g in
      let num := high - low + 1 in
      Succeed (group, num, high, low, flags)
  end.

(** [int(index)] for the index kept as text in an xref. *)
Definition int_of_str (s : string) : res Z :=
  match NilZero.int_of_string s with
  | Some d => Return (Z.of_int d)
  | None => Raise ValueError
  end.

(** The [try] of the three retrieval requests: a missing group and a
    missing index both raise [KeyError], and the one handler answers
    both. *)
Definition lookup_article {A} (s : shelf) (group : string) (index : Z)
    (k : Article → res A) : res (deferred A) :=
  match s_groups s !! encode group with
  | None => Return (Fail (FError ("No such group: " +:+ group)))
  | Some g =>
      match dict_get (articles g) index with
      | None => Return (Fail (FError ("No such group: " +:+ group)))
      | Some a => let! r := k a in Return (Succeed r)
      end
  end.

Definition articleRequest (s : shelf) (group : string) (index : Z) (id : option string)
  : res (deferred (Z * string * string)) :=
  let k index (a : Article) :=
    let! m := getHeader a "Message-ID" in
    let! h := textHeaders a in
    Return (index, m, h +:+ CRLF +:+ body a) in
  match id with
  | None => lookup_article s group index (k index)
  | Some id =>
      match s_message_ids s !! encode id with
      | None => Return (Fail (FError ("No such article: " +:+ id)))
      | Some [] => Raise IndexError
      | Some ((group, index) :: _) =>
          let! index := int_of_str index in
          lookup_article s group index (k index)
      end
  end.

(** [headRequest] and [bodyRequest], called without an id. *)
Definition headRequest (s : shelf) (group : string) (index : Z)
  : res (deferred (Z * string * string)) :=
  lookup_article s group index (fun a =>
    let! m := getHeader a "Message-ID" in
    let! h := textHeaders a in
    Return (index, m, h)).

Definition bodyRequest (s : shelf) (group : string) (index : Z)
  : res (deferred (Z * string * string)) :=
  lookup_article s group index (fun a =>
    let! m := getHeader a "Message-ID" in
    Return (index, m, body a)).

(** [initialize]: the four tables, empty. *)
Definition initialize : shelf := Shelf ∅ ∅ [] ∅.

Definition addSubscription (s : shelf) (name : string) : shelf :=
  Shelf (s_groups s) (s_moderators s) (s_subscriptions s ++ [name]) (s_message_ids s).

Definition addModerator (s : shelf) (group email : string) : shelf :=
  Shelf (s_groups s) (<[encode group := email]> (s_moderators s))
        (s_subscriptions s) (s_message_ids s).

Definition subscriptionRequest (s : shelf) : deferred (list string) :=
  Succeed (s_subscriptions s).

Definition overviewRequest : deferred (list string) := Succeed OVERVIEW_FMT.

Definition notifyModerator (w : world) (cfg : mailcfg) (moderator : string)
    (article : Article) : res (mail_outcome w) :=
  notifyModerators w cfg [moderator] article.

Definition listGroupRequest (s : shelf) (group : string) : deferred (string * list Z) :=
  match s_groups s !! encode group with
  | Some g => Succeed (group, dict_keys (articles g))
  | None => Fail (FError ("No such group: " +:+ group))
  end.

Definition articleExistsRequest (s : shelf) (id : string) : deferred bool :=
  Succeed (bool_decide (is_Some (s_message_ids s !! encode id))).

End NewsShelf.

(** * Vocabulary of the properties *)

(** ** Lines and headers *)

(** A string that holds no line break. *)
Definition single_line (s : string) : Prop := split_crlf s = [s].

(** [p] put in front of the first line of [l]. *)
Definition prepend (p : string) (l : list string) : list string :=
  match l with
  | [] => [p]
  | x :: xs => (p +:+ x) :: xs
  end.

(** A header value whose lines after the first are folded continuation
    lines. *)
Definition folded (v : string) : Prop :=
  Forall (fun c => is_continuation c = true ∧ c ≠ "") (tail (split_crlf v)).

(** A header name: the text before the first [": "] of a line that is
    not a continuation line. *)
Definition header_name (n : string) : Prop :=
  single_line n ∧ split_colon n = T1 n ∧ is_continuation (n +:+ ":") = false.

(** What holds of every two-component header the parser stores. *)
Definition tuple_ok (e : string * htuple) : Prop :=
  match e.2 with
  | T1 _ => True
  | T2 n v => e.1 = lower n ∧ header_name n ∧ folded v
  end.

Definition headers_ok (hs : dict string htuple) : Prop :=
  NoDup (dict_keys hs) ∧ Forall tuple_ok hs.

(** The header has a value, and the value is not empty. *)
Definition nonempty_header (a : Article) (h : string) : Prop :=
  ∃ v, getHeader a h = Return v ∧ v ≠ "".

(** The line [textHeaders] prints for a two-component header. *)
Definition header_line (t : htuple) : string :=
  match t with
  | T2 n v => n +:+ ": " +:+ v
  | T1 n => n
  end.

Definition is_T2 (t : htuple) : Prop :=
  match t with T2 _ _ => True | T1 _ => False end.

(** The empty line between the headers and the body of a message. *)
Definition BLANK : string := CRLF +:+ CRLF.

(** The text [articleRequest] serves for an article. *)
Definition article_text (a : Article) : res string :=
  let! h := textHeaders a in Return (h +:+ CRLF +:+ body a).

(** How [postRequest] reads a message. *)
Definition parse_message (w : world) (message : string) : res Article :=
  let '(headers, article) := cleave message in
  Article_init w headers article.

(** ** The collaborators *)

(** Text without a carriage return. *)
Fixpoint no_cr (s : string) : bool :=
  match s with
  | "" => true
  | String c r => negb (Ascii.eqb c CR) && no_cr r
  end.

(** What the properties of the parser ask of the collaborators: the
    host name, a digest and the printed date hold no carriage return,
    and the printed date is not empty. *)
Record world_ok (w : world) : Prop := {
  hostname_no_cr : no_cr (hostname w) = true;
  md5hex_no_cr : ∀ s, no_cr (md5hex w s) = true;
  ctime_no_cr : no_cr (ctime_str w) = true;
  ctime_nonempty : ctime_str w ≠ ""
}.

(** ** Index assignment *)

(** How often a post names the group stored under [key]. *)
Definition named (key : string) (groups : list string) : Z :=
  Z.of_nat (length (filter (fun g => encode g = key) groups)).

(** [g'] is the group [g] of a shelf after [n] more copies of [a] were
    filed: they have the indices after the recorded maximum, which has
    moved up by [n]; everything else is as it was. *)
Record filed (a : Article) (n : Z) (g g' : Group) : Prop := {
  filed_name : g_name g' = g_name g;
  filed_flags : g_flags g' = g_flags g;
  filed_min : minArticle g' = minArticle g;
  filed_max : maxArticle g' = maxArticle g + n;
  filed_articles : ∀ i,
    dict_get (articles g') i
    = if bool_decide (maxArticle g < i ≤ maxArticle g + n) then Some a
      else dict_get (articles g) i
}.

(** A group of the shelf whose recorded maximum bounds its indices, as
    for [Group(name, flags)] and after every post. *)
Definition group_wf (g : Group) : Prop :=
  0 ≤ maxArticle g ∧ ∀ i, is_Some (dict_get (articles g) i) → 1 ≤ i ≤ maxArticle g.

(** [t'] is the table [t] of a pickle store after [n] more copies of [a]
    were filed, from [next_index t] on. *)
Record pfiled (a : Article) (n : Z) (t t' : dict Z Article) : Prop := {
  pfiled_next : Pickle.next_index t' = Pickle.next_index t + n;
  pfiled_articles : ∀ i,
    dict_get t' i
    = if bool_decide (Pickle.next_index t ≤ i < Pickle.next_index t + n) then Some a
      else dict_get t i
}.

(** What a successful post does to the groups of a shelf: each group
    has the article filed once for every time the Newsgroups header
    names it, under the indices after its recorded maximum, and a group
    whose indices were bounded by its maximum keeps every article it
    had. *)
Definition shelf_files (w : world) (message : string) (s s' : shelf) : Prop :=
  ∃ a newsgroups,
    parse_message w message = Return a
    ∧ getHeader a "Newsgroups" = Return newsgroups
    ∧ ∀ key g,
        s_groups s !! key = Some g →
        ∃ g', s_groups s' !! key = Some g'
              ∧ filed a (named key (words newsgroups)) g g'
              ∧ (group_wf g →
                 group_wf g'
                 ∧ ∀ i a0, dict_get (articles g) i = Some a0 →
                           dict_get (articles g') i = Some a0).

(** The same for the tables of a pickle store, where the maximum is the
    largest key of the table and the first index of an empty table is 1;
    the article as stored carries the Xref header. *)
Definition pickle_files (w : world) (message : string) (db db' : pickle_db) : Prop :=
  ∃ a newsgroups value,
    parse_message w message = Return a
    ∧ getHeader a "Newsgroups" = Return newsgroups
    ∧ ∀ key t,
        p_tables db !! key = Some t →
        ∃ t', p_tables db' !! key = Some t'
              ∧ pfiled (putHeader a "Xref" value) (named key (words newsgroups)) t t'
              ∧ ∀ i a0, dict_get t i = Some a0 → dict_get t' i = Some a0.

(** ** Examples *)

(** Collaborators: a host, a clock, a digest; a mail transport that
    answers with the recipients and the text it was given; a shelf that
    refuses a key that is not bytes. *)
Definition example_world : world :=
  World "news.example.org" "1700000000.25" "Tue Nov 14 22:13:20 2023"
        (fun _ => "0cc175b9c0f1b6a831c399e269772661")
        (list string * string) (fun _ _ to msg => (to, msg))
        (fun _ _ subject _ _ => subject)
        (fun _ _ _ => Raise TypeError).

Definition example_cfg : mailcfg := MailCfg (Some "mail.example.org") None.

Definition example_body : string := "hello" +:+ NL +:+ "world".

(** The article [Article('Newsgroups: alt.test', 'hello\nworld')]. *)
Definition example_article : Article :=
  mkArticle example_body
    [("newsgroups", T2 "Newsgroups" "alt.test");
     ("message-id", T2 "Message-ID" "<0cc175b9c0f1b6a831c399e269772661@news.example.org>");
     ("bytes", T2 "Bytes" "11");
     ("lines", T2 "Lines" "1");
     ("date", T2 "Date" "Tue Nov 14 22:13:20 2023")].

(** The same article with any collaborators. *)
Definition article_plain (w : world) : Article :=
  mkArticle example_body
    [("newsgroups", T2 "Newsgroups" "alt.test");
     ("message-id", T2 "Message-ID" (new_message_id w example_body));
     ("bytes", T2 "Bytes" "11");
     ("lines", T2 "Lines" "1");
     ("date", T2 "Date" (ctime_str w))].

(** The store [PickleStorage(filename, ['alt.test'])] creates, and a
    shelf that carries the one group [alt.test]. *)
Definition pickle_plain : pickle_db :=
  PickleDB (Some ["alt.test"]) ∅ {[ "alt.test" := [] ]}.

Definition shelf_plain : shelf :=
  Shelf {[ "alt.test" := new_group "alt.test" "y" ]} ∅ [] ∅.


(** A store with a moderated and an unmoderated group. *)
Definition pickle_mixed : pickle_db :=
  PickleDB (Some ["mod.test"; "alt.test"])
           {[ "mod.test" := ["alice@example.org"] ]}
           {[ "mod.test" := []; "alt.test" := [] ]}.

(** A store with two moderated groups. *)
Definition pickle_moderated : pickle_db :=
  PickleDB (Some ["mod.a"; "mod.b"])
           {[ "mod.a" := ["alice@example.org"]; "mod.b" := ["alice@example.org"] ]}
           {[ "mod.a" := []; "mod.b" := [] ]}.

(** The messages posted in the examples. *)
Definition message_plain : string :=
  "Newsgroups: alt.test" +:+ BLANK +:+ example_body.

Definition message_twice : string :=
  "Newsgroups: alt.test alt.test" +:+ BLANK +:+ example_body.

Definition message_unknown : string := "Newsgroups: x" +:+ BLANK +:+ example_body.

Definition message_mixed : string :=
  "Newsgroups: mod.test alt.test" +:+ CRLF +:+ "Subject: hi" +:+ BLANK +:+ example_body.

Definition message_approved : string :=
  "Newsgroups: mod.a mod.b" +:+ CRLF +:+ "Approved: yes" +:+ BLANK +:+ "body".

Definition message_approved_twice : string :=
  "Newsgroups: mod.a mod.a" +:+ CRLF +:+ "Approved: yes" +:+ BLANK +:+ "body".

(** The stores after the approved message was posted once and twice,
    and the shelf after the plain message was posted. *)
Definition pickle_after_post : pickle_db :=
  (Pickle.postRequest example_world example_cfg pickle_moderated message_approved).1.

Definition pickle_after_two_posts : pickle_db :=
  (Pickle.postRequest example_world example_cfg pickle_after_post message_approved).1.

Definition shelf_after_post : shelf :=
  (NewsShelf.postRequest example_world example_cfg shelf_plain message_plain).1.

(** ** Further vocabulary *)

(** The loop of [Article.__init__] alone: the headers as the block
    gives them, before the defaults. *)
Definition parse_headers (block : string) : res (dict string htuple * option string) :=
  foldM parse_line (split_crlf block) ([], None).

(** The value of a header, empty when the header is absent. *)
Definition header_value (a : Article) (name : string) : string :=
  match dict_get (headers a) (lower name) with
  | Some (T2 _ v) => v
  | _ => ""
  end.

(** Every header is stored once, under its name in lower case. *)
Definition keys_folded (hs : dict string htuple) : Prop :=
  NoDup (dict_keys hs) ∧ Forall (fun e => e.1 = lower (tuple_name e.2)) hs.

(** The four headers [Article.__init__] has a default for. *)
Definition defaulted (h : string) : Prop :=
  lower h ∈ ["message-id"; "bytes"; "lines"; "date"].

(** What a post, whatever its outcome, leaves of a pickle store: the
    list of groups, the registry, the tables that exist and no other,
    and in every table the articles it had. *)
Definition pickle_keeps (db db' : pickle_db) : Prop :=
  p_groups db' = p_groups db ∧ p_moderators db' = p_moderators db
  ∧ ∀ key,
      match p_tables db !! key with
      | None => p_tables db' !! key = None
      | Some t =>
          ∃ t', p_tables db' !! key = Some t'
                ∧ ∀ i a0, dict_get t i = Some a0 → dict_get t' i = Some a0
      end.

(** The same for a shelf: the moderators, the subscriptions, the
    Message-IDs that are known, the groups that exist and no other, with
    their name, flags and minimum; a group whose indices were bounded by
    its maximum keeps its articles. *)
Definition shelf_keeps (s s' : shelf) : Prop :=
  s_moderators s' = s_moderators s ∧ s_subscriptions s' = s_subscriptions s
  ∧ (∀ id, is_Some (s_message_ids s !! id) → is_Some (s_message_ids s' !! id))
  ∧ ∀ key,
      match s_groups s !! key with
      | None => s_groups s' !! key = None
      | Some g =>
          ∃ g', s_groups s' !! key = Some g'
                ∧ g_name g' = g_name g ∧ g_flags g' = g_flags g
                ∧ minArticle g' = minArticle g ∧ maxArticle g ≤ maxArticle g'
                ∧ (group_wf g →
                   group_wf g'
                   ∧ ∀ i a0, dict_get (articles g) i = Some a0 →
                             dict_get (articles g') i = Some a0)
      end.

(** The articles the example messages are parsed to. *)
Definition article_mixed : Article :=
  mkArticle example_body
    [("newsgroups", T2 "Newsgroups" "mod.test alt.test");
     ("subject", T2 "Subject" "hi");
     ("message-id", T2 "Message-ID" "<0cc175b9c0f1b6a831c399e269772661@news.example.org>");
     ("bytes", T2 "Bytes" "11");
     ("lines", T2 "Lines" "1");
     ("date", T2 "Date" "Tue Nov 14 22:13:20 2023")].

Definition article_approved : Article :=
  mkArticle "body"
    [("newsgroups", T2 "Newsgroups" "mod.a mod.b");
     ("approved", T2 "Approved" "yes");
     ("message-id", T2 "Message-ID" "<0cc175b9c0f1b6a831c399e269772661@news.example.org>");
     ("bytes", T2 "Bytes" "4");
     ("lines", T2 "Lines" "0");
     ("date", T2 "Date" "Tue Nov 14 22:13:20 2023")].

(** A group of the shelf as [Group(name, flags)] makes it and posts
    fill it: the indices in use are 1 to the recorded maximum, in the
    order the articles came. *)
Definition group_dense (g : Group) : Prop :=
  minArticle g = 1 ∧ 0 ≤ maxArticle g
  ∧ dict_keys (articles g) = NewsShelf.range 1 (maxArticle g).

Definition shelf_dense (s : shelf) : Prop :=
  ∀ key g, s_groups s !! key = Some g → group_dense g.

(** A shelf whose one group holds two articles. *)
Definition shelf_two : shelf :=
  Shelf {[ "alt.test" := mkGroup "alt.test" "y" 1 2
                           [(1, example_article); (2, article_mixed)] ]} ∅ [] ∅.

(** An article all of whose headers have a name and a value. *)
Definition printable (a : Article) : Prop :=
  Forall is_T2 (dict_values (headers a)).

(** The row [xoverRequest] gives for an article under an index. *)
Definition xover_row (e : Z * Article) : list string :=
  str e.1 :: map (header_value e.2) OVERVIEW_FMT.



(** A table with a gap, and a message whose last header line has no
    colon. *)
Definition pickle_gap : pickle_db :=
  PickleDB (Some ["alt.test"]) ∅
           {[ "alt.test" := [(3, example_article); (1, article_mixed); (7, example_article)] ]}.

Definition message_no_colon : string :=
  "Newsgroups: alt.test" +:+ CRLF +:+ "Subject" +:+ BLANK +:+ example_body.

(** A pickle store as [load] makes it and posts fill it: every group
    of the list has a table, no group is called ['groups'] or
    ['moderators'], and [getHeader] finds a Message-ID in every stored
    article. *)
Definition has_message_id (a : Article) : Prop :=
  ∃ id, getHeader a "Message-ID" = Return id.

Definition tables_ok (db : pickle_db) : Prop :=
  ∀ key t, p_tables db !! key = Some t → Forall (fun e => has_message_id e.2) t.

Definition pickle_listed (db : pickle_db) : Prop :=
  tables_ok db
  ∧ ∃ groups, p_groups db = Some groups
              ∧ ∀ g, g ∈ groups →
                     g ≠ "groups" ∧ g ≠ "moderators" ∧ is_Some (p_tables db !! g).

(** * Properties *)

(** ** Strings *)

Local Arguments String.append : simpl nomatch.

Lemma sapp_nil_r (s : string) : s +:+ "" = s.
Proof. induction s as [|c s IH]; simpl; [done | by rewrite IH]. Qed.

Lemma sapp_assoc (s t u : string) : (s +:+ t) +:+ u = s +:+ (t +:+ u).
Proof. induction s as [|c s IH]; simpl; [done | by rewrite IH]. Qed.

Lemma length_sapp (s t : string) :
  String.length (s +:+ t) = (String.length s + String.length t)%nat.
Proof. induction s as [|c s IH]; simpl; [done | by rewrite IH]. Qed.

Lemma string_ind2 (P : string → Prop) :
  P "" →
  (∀ c, P (String c "")) →
  (∀ c d r, P r → P (String d r) → P (String c (String d r))) →
  ∀ s, P s.
Proof.
  intros H0 H1 H2 s.
  cut (P s ∧ ∀ c, P (String c s)); [tauto |].
  induction s as [|d r [IHr IHdr]]; split; auto.
Qed.

Lemma CR_neq_LF : Ascii.eqb CR LF = false.
Proof. reflexivity. Qed.

Lemma split_crlf_nonempty (s : string) : split_crlf s ≠ [].
Proof.
  induction s as [|c r IH]; simpl; [done |].
  destruct r as [|d r']; [by destruct (split_crlf "") |].
  destruct (Ascii.eqb c CR && Ascii.eqb d LF); [done |].
  by destruct (split_crlf (String d r')).
Qed.

Lemma cons_hd_app (c : ascii) (l l' : list string) :
  l ≠ [] → cons_hd c (l ++ l') = cons_hd c l ++ l'.
Proof. by destruct l. Qed.

(** The two cases of [split_crlf] on a non-empty string. *)
Lemma split_crlf_step (c : ascii) (r : string) :
  (∃ r', c = CR ∧ r = String LF r' ∧ split_crlf (String c r) = "" :: split_crlf r')
  ∨ ((∀ r', ¬ (c = CR ∧ r = String LF r'))
     ∧ split_crlf (String c r) = cons_hd c (split_crlf r)).
Proof.
  destruct r as [|d r']; simpl.
  - right. split; [by intros r' [_ ?] | done].
  - destruct (Ascii.eqb_spec c CR) as [->|Hc]; simpl.
    + destruct (Ascii.eqb_spec d LF) as [->|Hd].
      * left. by exists r'.
      * right. split; [intros r'' [_ ?]; congruence | done].
    + right. split; [intros r'' [? _]; congruence | done].
Qed.

Local Arguments split_crlf : simpl never.

Lemma split_crlf_sep (r : string) :
  split_crlf (String CR (String LF r)) = "" :: split_crlf r.
Proof. done. Qed.

Lemma split_crlf_app (s t : string) :
  split_crlf (s +:+ CRLF +:+ t) = split_crlf s ++ split_crlf t.
Proof.
  induction s as [|c|c d r IHr IHdr] using string_ind2.
  - done.
  - destruct (split_crlf_step c (CRLF +:+ t)) as [(r' & _ & [=] & _)|[_ Hs]].
    change (String c "" +:+ CRLF +:+ t) with (String c (CRLF +:+ t)).
    rewrite Hs. change (CRLF +:+ t) with (String CR (String LF t)).
    by rewrite split_crlf_sep.
  - destruct (split_crlf_step c (String d r)) as [(r' & -> & [= -> ->] & Hs)|[Hn Hs]].
    + rewrite Hs.
      change (String CR (String LF r') +:+ CRLF +:+ t)
        with (String CR (String LF (r' +:+ CRLF +:+ t))).
      by rewrite split_crlf_sep, IHr.
    + rewrite Hs, <- cons_hd_app by apply split_crlf_nonempty.
      rewrite <- IHdr.
      destruct (split_crlf_step c (String d r +:+ CRLF +:+ t))
        as [(r' & -> & [= -> ?] & _)|[_ Hs']]; [|done].
      by destruct (Hn r).
Qed.

Lemma single_line_cons (c : ascii) (r : string) :
  single_line (String c r) ↔
  (∀ r', ¬ (c = CR ∧ r = String LF r')) ∧ single_line r.
Proof.
  unfold single_line.
  destruct (split_crlf_step c r) as [(r' & -> & -> & Hs)|[Hn Hs]]; rewrite Hs.
  - split; [done | intros [Hn _]; by destruct (Hn r')].
  - pose proof (split_crlf_nonempty r).
    destruct (split_crlf r) as [|x xs]; [done |]. simpl.
    split; [intros [= -> ->]; done | intros [_ [= -> ->]]; done].
Qed.

Lemma single_line_nil : single_line "".
Proof. done. Qed.

Lemma single_line_prefix (p q : string) : single_line (p +:+ q) → single_line p.
Proof.
  induction p as [|c p IH]; [done |]. simpl.
  rewrite !single_line_cons. intros [Hn Hs]. split; [|auto].
  intros r' [-> ->]. by apply (Hn (r' +:+ q)).
Qed.

Lemma single_line_suffix (p q : string) : single_line (p +:+ q) → single_line q.
Proof.
  induction p as [|c p IH]; [done |]. simpl.
  rewrite single_line_cons. intros [_ Hs]. auto.
Qed.

Lemma split_crlf_prepend (p : string) (c : ascii) (v : string) :
  single_line p → c ≠ LF →
  split_crlf (p +:+ String c v) = prepend p (split_crlf (String c v)).
Proof.
  intros Hp Hc. induction p as [|a p IH].
  - simpl. pose proof (split_crlf_nonempty (String c v)).
    by destruct (split_crlf (String c v)).
  - apply single_line_cons in Hp as [Hn Hp]. simpl.
    destruct (split_crlf_step a (p +:+ String c v)) as [(r' & -> & Hr & _)|[_ Hs]].
    + destruct p as [|b p]; simpl in Hr; injection Hr as -> ?; [done |].
      by destruct (Hn p).
    + rewrite Hs, IH by done.
      pose proof (split_crlf_nonempty (String c v)).
      by destruct (split_crlf (String c v)).
Qed.

Lemma join_cons_hd (c : ascii) (l : list string) :
  l ≠ [] → join CRLF (cons_hd c l) = String c (join CRLF l).
Proof. destruct l as [|x [|y l]]; done. Qed.

Lemma join_cons (sep x : string) (l : list string) :
  l ≠ [] → join sep (x :: l) = x +:+ sep +:+ join sep l.
Proof. by destruct l. Qed.

Lemma join_split_crlf (s : string) : join CRLF (split_crlf s) = s.
Proof.
  induction s as [|c|c d r IHr IHdr] using string_ind2; [done.. |].
  destruct (split_crlf_step c (String d r)) as [(r' & -> & [= -> ->] & Hs)|[_ Hs]];
    rewrite Hs.
  - rewrite join_cons by apply split_crlf_nonempty. by rewrite IHr.
  - rewrite join_cons_hd by apply split_crlf_nonempty. by rewrite IHdr.
Qed.

Lemma split_crlf_hd (d : ascii) (r x : string) (xs : list string) :
  split_crlf (String d r) = x :: xs → x = "" ∨ ∃ x', x = String d x'.
Proof.
  destruct (split_crlf_step d r) as [(r' & -> & -> & Hs)|[_ Hs]]; rewrite Hs.
  - intros [= <- _]. by left.
  - pose proof (split_crlf_nonempty r).
    destruct (split_crlf r) as [|y ys]; [done |]. intros [= <- _]. right. eauto.
Qed.

Lemma split_crlf_single_lines (s : string) : Forall single_line (split_crlf s).
Proof.
  induction s as [|c|c d r IHr IHdr] using string_ind2.
  - by constructor.
  - by constructor.
  - destruct (split_crlf_step c (String d r)) as [(r' & -> & [= -> ->] & Hs)|[Hn Hs]];
      rewrite Hs.
    + by constructor.
    + destruct (split_crlf (String d r)) as [|x xs] eqn:Hx; [by constructor |].
      apply Forall_cons in IHdr as [Hx1 Hxs]. simpl. constructor; [|done].
      apply single_line_cons. split; [|done].
      intros r' [-> ->].
      apply split_crlf_hd in Hx as [?|[x' [= <- _]]]; [done |].
      by destruct (Hn r).
Qed.

(** [split_colon] cuts at the first [": "]. *)
Lemma split_colon_step (c : ascii) (r : string) :
  (∃ r', c = ":"%char ∧ r = String " " r' ∧ split_colon (String c r) = T2 "" r')
  ∨ ((∀ r', ¬ (c = ":"%char ∧ r = String " " r'))
     ∧ split_colon (String c r) = cons_name c (split_colon r)).
Proof.
  destruct r as [|d r']; simpl.
  - right. split; [by intros r' [_ ?] | done].
  - destruct (Ascii.eqb_spec c ":") as [->|Hc]; simpl.
    + destruct (Ascii.eqb_spec d " ") as [->|Hd].
      * left. by exists r'.
      * right. split; [intros r'' [_ ?]; congruence | done].
    + right. split; [intros r'' [? _]; congruence | done].
Qed.

Local Arguments split_colon : simpl never.

Lemma split_colon_T1 (line n : string) : split_colon line = T1 n → n = line.
Proof.
  revert n. induction line as [|c r IH]; intros n; [by intros [= <-] |].
  destruct (split_colon_step c r) as [(r' & -> & -> & Hs)|[_ Hs]]; rewrite Hs; [done |].
  destruct (split_colon r) as [m|m v]; simpl; [|done].
  intros [= <-]. f_equal. by apply IH.
Qed.

Lemma split_colon_T2 (line n v : string) :
  split_colon line = T2 n v → line = n +:+ ": " +:+ v ∧ split_colon n = T1 n.
Proof.
  revert n. induction line as [|c r IH]; intros n; [done |].
  destruct (split_colon_step c r) as [(r' & -> & -> & Hs)|[Hn Hs]]; rewrite Hs.
  - by intros [= <- <-].
  - destruct (split_colon r) as [m|m u] eqn:Hr; simpl; [done |].
    intros [= <- <-]. destruct (IH m eq_refl) as [-> Hm]. split; [done |].
    destruct (split_colon_step c m) as [(r' & -> & -> & _)|[_ Hs']].
    + by destruct (Hn (r' +:+ ": " +:+ u)).
    + by rewrite Hs', Hm.
Qed.

Lemma split_colon_app (n v : string) :
  split_colon n = T1 n → split_colon (n +:+ ": " +:+ v) = T2 n v.
Proof.
  induction n as [|c n IH]; [done |]. intros Hn.
  change (String c n +:+ ": " +:+ v) with (String c (n +:+ ": " +:+ v)).
  destruct (split_colon_step c n) as [(r' & -> & -> & Hs)|[Hno Hs]];
    [by rewrite Hs in Hn |].
  rewrite Hs in Hn.
  assert (split_colon n = T1 n) as Hn'.
  { destruct (split_colon n) as [m|m u] eqn:Hm; [|done].
    by rewrite (split_colon_T1 _ _ Hm). }
  destruct (split_colon_step c (n +:+ ": " +:+ v)) as [(r' & -> & Hr & _)|[_ Hs']].
  - destruct n as [|b n]; simpl in Hr; [done |].
    injection Hr as -> ?. by destruct (Hno n).
  - by rewrite Hs', IH.
Qed.

(** ** Dictionaries *)

Section dict_facts.
Context {K V : Type} `{EqDecision K}.
Implicit Types (d : dict K V) (k : K) (v : V).

Lemma dict_get_set_eq d k v : dict_get (dict_set d k v) k = Some v.
Proof.
  induction d as [|[k' v'] d IH]; simpl.
  - by rewrite decide_True.
  - destruct (decide (k = k')) as [->|Hne]; simpl.
    + by rewrite decide_True.
    + by rewrite decide_False.
Qed.

Lemma dict_get_set_ne d k k' v : k ≠ k' → dict_get (dict_set d k v) k' = dict_get d k'.
Proof.
  intros Hne. induction d as [|[k'' v''] d IH]; simpl.
  - by rewrite decide_False.
  - destruct (decide (k = k'')) as [->|Hne']; simpl; [|by rewrite IH].
    by rewrite !decide_False.
Qed.

Lemma dict_get_None d k : dict_get d k = None ↔ k ∉ dict_keys d.
Proof.
  unfold dict_keys. induction d as [|[k' v'] d IH]; simpl.
  - split; [intros _; apply not_elem_of_nil | done].
  - rewrite not_elem_of_cons. destruct (decide (k = k')); [|tauto].
    split; [done | tauto].
Qed.

Lemma dict_get_Some_elem d k v : dict_get d k = Some v → (k, v) ∈ d.
Proof.
  induction d as [|[k' v'] d IH]; simpl; [done |].
  destruct (decide (k = k')) as [->|]; [intros [= ->]; left |].
  intros. right. auto.
Qed.

Lemma dict_set_new d k v : dict_get d k = None → dict_set d k v = d ++ [(k, v)].
Proof.
  induction d as [|[k' v'] d IH]; simpl; [done |].
  destruct (decide (k = k')); [done |]. intros. by rewrite IH.
Qed.

Lemma dict_get_snoc d k v : dict_get d k = None → dict_get (d ++ [(k, v)]) k = Some v.
Proof. intros. by rewrite <- dict_set_new, dict_get_set_eq. Qed.

Lemma dict_set_snoc d k v v' :
  dict_get d k = None → dict_set (d ++ [(k, v)]) k v' = d ++ [(k, v')].
Proof.
  induction d as [|[k' v''] d IH]; simpl.
  - by rewrite decide_True.
  - destruct (decide (k = k')); [done |]. intros. by rewrite IH.
Qed.

Lemma dict_keys_set d k v :
  dict_keys (dict_set d k v)
  = match dict_get d k with
    | Some _ => dict_keys d
    | None => dict_keys d ++ [k]
    end.
Proof.
  unfold dict_keys. induction d as [|[k' v'] d IH]; [done |].
  cbn [dict_set dict_get]. destruct (decide (k = k')) as [->|]; [done |].
  rewrite fmap_cons, IH. by destruct (dict_get d k).
Qed.

Lemma NoDup_dict_set d k v : NoDup (dict_keys d) → NoDup (dict_keys (dict_set d k v)).
Proof.
  intros Hd. rewrite dict_keys_set. destruct (dict_get d k) eqn:Hk; [done |].
  apply NoDup_app. split_and!; [done | | apply NoDup_singleton].
  intros x Hx ->%list_elem_of_singleton. by apply dict_get_None in Hk.
Qed.

Lemma Forall_dict_set (P : K * V → Prop) d k v :
  Forall P d → P (k, v) → Forall P (dict_set d k v).
Proof.
  intros Hd Hv. induction Hd as [|[k' v'] d Hx Hd IH]; simpl.
  - by constructor.
  - destruct (decide (k = k')) as [->|]; constructor; auto.
Qed.

Lemma dict_get_Forall (P : K * V → Prop) d k v :
  Forall P d → dict_get d k = Some v → P (k, v).
Proof.
  intros Hd Hk. apply dict_get_Some_elem in Hk.
  by eapply Forall_forall in Hd.
Qed.
End dict_facts.

(** ** Articles *)

Lemma foldM_app {A B} (f : A → B → res A) (l l' : list B) (acc : A) :
  foldM f (l ++ l') acc = bind (foldM f l acc) (foldM f l').
Proof.
  revert acc. induction l as [|x l IH]; intros acc; simpl; [done |].
  destruct (f acc x); simpl; auto.
Qed.

Lemma folded_single_line (v : string) : single_line v → folded v.
Proof. unfold folded, single_line. intros ->. constructor. Qed.

Lemma folded_continue (v line : string) :
  folded v → single_line line → is_continuation line = true → line ≠ "" →
  folded (v +:+ CRLF +:+ line).
Proof.
  unfold folded. intros Hv Hl Hc Hne. rewrite split_crlf_app, Hl.
  pose proof (split_crlf_nonempty v).
  destruct (split_crlf v) as [|x xs]; [done |]. simpl in *.
  apply Forall_app. split; [done |]. by repeat constructor.
Qed.

Lemma header_name_of_line (line : string) :
  single_line line → is_continuation line = false →
  header_name (tuple_name (split_colon line)).
Proof.
  intros Hl Hc. destruct (split_colon line) as [n|n v] eqn:Hs; simpl.
  - apply split_colon_T1 in Hs as Hn. subst n. split_and!; [done.. |].
    destruct line; [done |]. done.
  - apply split_colon_T2 in Hs as [-> Hn]. split_and!; [|done|].
    + by eapply single_line_prefix.
    + by destruct n.
Qed.

Lemma tuple_ok_of_line (line : string) :
  single_line line → is_continuation line = false →
  tuple_ok (lower (tuple_name (split_colon line)), split_colon line).
Proof.
  intros Hl Hc. pose proof (header_name_of_line line Hl Hc) as Hn.
  unfold tuple_ok. destruct (split_colon line) as [n|n v] eqn:Hs; simpl in *; [done |].
  split_and!; [done.. |]. apply folded_single_line.
  apply split_colon_T2 in Hs as [-> _].
  rewrite <- sapp_assoc in Hl. by eapply single_line_suffix.
Qed.

Lemma parse_line_ok hs header line hs' header' :
  single_line line → line ≠ "" →
  parse_line (hs, header) line = Return (hs', header') →
  headers_ok hs → headers_ok hs'.
Proof.
  intros Hl Hne Hp [Hnd Hall]. unfold parse_line in Hp.
  destruct (is_continuation line) eqn:Hc.
  - destruct header as [h|]; [|done].
    destruct (dict_get hs h) as [[n|n v]|] eqn:Hh; [done | | done].
    injection Hp as <- <-. split; [by apply NoDup_dict_set |].
    apply Forall_dict_set; [done |].
    pose proof (dict_get_Forall _ _ _ _ Hall Hh) as (Hk & Hn & Hv).
    split_and!; [done.. |]. by apply folded_continue.
  - injection Hp as <- <-. split; [by apply NoDup_dict_set |].
    apply Forall_dict_set; [done |]. by apply tuple_ok_of_line.
Qed.

Lemma parse_lines_ok lines st st' :
  Forall single_line lines → Forall (fun l => l ≠ "") lines →
  foldM parse_line lines st = Return st' →
  headers_ok st.1 → headers_ok st'.1.
Proof.
  intros Hl Hne. revert st.
  induction lines as [|line lines IH]; intros st Hf Hok; simpl in Hf.
  - by injection Hf as <-.
  - apply Forall_cons in Hl as [Hl1 Hl], Hne as [Hne1 Hne].
    destruct st as [hs header].
    destruct (parse_line (hs, header) line) as [[hs1 header1]|] eqn:Hp; [|done].
    simpl in Hf. apply (IH Hl Hne _ Hf). simpl.
    by eapply parse_line_ok.
Qed.

Lemma no_cr_app (s t : string) : no_cr (s +:+ t) = no_cr s && no_cr t.
Proof. induction s as [|c s IH]; simpl; [done |]. by rewrite IH, andb_assoc. Qed.

Lemma no_cr_single_line (s : string) : no_cr s = true → single_line s.
Proof.
  induction s as [|c s IH]; simpl; [done |].
  intros [Hc Hs]%andb_true_iff. apply single_line_cons. split; [|auto].
  intros r' [-> _]. done.
Qed.

Lemma no_cr_uint (d : Decimal.uint) : no_cr (NilEmpty.string_of_uint d) = true.
Proof. induction d; simpl; auto. Qed.

Lemma no_cr_str (n : Z) : no_cr (str n) = true.
Proof.
  unfold str, NilZero.string_of_int, NilZero.string_of_uint.
  destruct (Z.to_int n) as [d|d]; destruct d; simpl; auto using no_cr_uint.
Qed.

Lemma str_nonempty (n : Z) : str n ≠ "".
Proof.
  unfold str, NilZero.string_of_int, NilZero.string_of_uint.
  destruct (Z.to_int n) as [d|d]; destruct d; done.
Qed.

Lemma new_message_id_no_cr (w : world) (body : string) :
  world_ok w → no_cr (new_message_id w body) = true.
Proof.
  intros [Hh Hm _ _]. unfold new_message_id.
  by rewrite !no_cr_app, Hh, Hm.
Qed.

Lemma new_message_id_nonempty (w : world) (body : string) : new_message_id w body ≠ "".
Proof. done. Qed.

Lemma getHeader_putHeader_eq (a : Article) (h v : string) :
  getHeader (putHeader a h v) h = Return v.
Proof. unfold getHeader, putHeader. simpl. by rewrite dict_get_set_eq. Qed.

Lemma getHeader_putHeader_ne (a : Article) (h h' v : string) :
  lower h ≠ lower h' → getHeader (putHeader a h v) h' = getHeader a h'.
Proof. intros. unfold getHeader, putHeader. simpl. by rewrite dict_get_set_ne. Qed.

Lemma default_header_present (a : Article) (h v val : string) :
  getHeader a h = Return v → v ≠ "" → default_header a h val = Return a.
Proof. intros Hg Hv. unfold default_header. rewrite Hg. simpl. by rewrite decide_False. Qed.

Lemma default_header_get (a a' : Article) (h val : string) :
  default_header a h val = Return a' → val ≠ "" →
  ∃ v, getHeader a' h = Return v ∧ v ≠ "".
Proof.
  unfold default_header. destruct (getHeader a h) as [v|] eqn:Hg; [|done]. simpl.
  destruct (decide (v = "")); intros [= <-] Hval.
  - exists val. by rewrite getHeader_putHeader_eq.
  - by exists v.
Qed.

(** A header that was absent or empty gets the default value. *)
Lemma default_header_absent (a a' : Article) (h val : string) :
  default_header a h val = Return a' → getHeader a h = Return "" →
  getHeader a' h = Return val.
Proof.
  unfold default_header. intros Hd Hg. rewrite Hg in Hd. simpl in Hd.
  injection Hd as <-. apply getHeader_putHeader_eq.
Qed.

Lemma default_header_other (a a' : Article) (h h' val : string) :
  default_header a h val = Return a' → lower h ≠ lower h' →
  getHeader a' h' = getHeader a h'.
Proof.
  unfold default_header. destruct (getHeader a h) as [v|]; [|done]. simpl.
  destruct (decide (v = "")); intros [= <-] Hne; [|done].
  by apply getHeader_putHeader_ne.
Qed.

Lemma default_header_body (a a' : Article) (h val : string) :
  default_header a h val = Return a' → body a' = body a.
Proof.
  unfold default_header. destruct (getHeader a h) as [v|]; [|done]. simpl.
  by destruct (decide (v = "")); intros [= <-].
Qed.

Lemma default_header_ok (a a' : Article) (h val : string) :
  default_header a h val = Return a' →
  header_name h → no_cr val = true →
  headers_ok (headers a) → headers_ok (headers a').
Proof.
  unfold default_header. destruct (getHeader a h) as [v|]; [|done]. simpl.
  destruct (decide (v = "")); intros [= <-] Hh Hval [Hnd Hall]; [|done].
  split; [by apply NoDup_dict_set |].
  apply Forall_dict_set; [done |].
  split_and!; [done.. |]. by apply folded_single_line, no_cr_single_line.
Qed.

(** The steps of [Article.__init__], one by one. *)
Lemma Article_init_steps (w : world) (head body0 : string) (a : Article) :
  Article_init w head body0 = Return a →
  ∃ hs header a1 a2 a3,
    foldM parse_line (split_crlf head) ([], None) = Return (hs, header)
    ∧ default_header (mkArticle body0 hs) "Message-ID" (new_message_id w body0) = Return a1
    ∧ default_header a1 "Bytes" (str (len body0)) = Return a2
    ∧ default_header a2 "Lines" (str (count_char LF body0)) = Return a3
    ∧ default_header a3 "Date" (ctime_str w) = Return a.
Proof.
  unfold Article_init.
  destruct (foldM parse_line (split_crlf head) ([], None)) as [[hs header]|]; [|done].
  simpl.
  destruct (default_header (mkArticle body0 hs) _ _) as [a1|] eqn:H1; [|done]. simpl.
  destruct (default_header a1 _ _) as [a2|] eqn:H2; [|done]. simpl.
  destruct (default_header a2 _ _) as [a3|] eqn:H3; [|done]. simpl.
  intros H4. by exists hs, header, a1, a2, a3.
Qed.

Lemma Article_init_body (w : world) (head body0 : string) (a : Article) :
  Article_init w head body0 = Return a → body a = body0.
Proof.
  intros (hs & header & a1 & a2 & a3 & _ & H1 & H2 & H3 & H4)%Article_init_steps.
  apply default_header_body in H1, H2, H3, H4. simpl in H1. congruence.
Qed.

(** After [Article.__init__] the four headers have a value. *)
Lemma Article_init_four (w : world) (head body0 : string) (a : Article) :
  ctime_str w ≠ "" →
  Article_init w head body0 = Return a →
  nonempty_header a "Message-ID" ∧ nonempty_header a "Bytes"
  ∧ nonempty_header a "Lines" ∧ nonempty_header a "Date".
Proof.
  intros Hc (hs & header & a1 & a2 & a3 & _ & H1 & H2 & H3 & H4)%Article_init_steps.
  unfold nonempty_header. split_and!.
  - rewrite (default_header_other _ _ _ "Message-ID" _ H4) by done.
    rewrite (default_header_other _ _ _ "Message-ID" _ H3) by done.
    rewrite (default_header_other _ _ _ "Message-ID" _ H2) by done.
    eapply default_header_get; [done | apply new_message_id_nonempty].
  - rewrite (default_header_other _ _ _ "Bytes" _ H4) by done.
    rewrite (default_header_other _ _ _ "Bytes" _ H3) by done.
    eapply default_header_get; [done | apply str_nonempty].
  - rewrite (default_header_other _ _ _ "Lines" _ H4) by done.
    eapply default_header_get; [done | apply str_nonempty].
  - by eapply default_header_get.
Qed.

Lemma header_name_plain (n : string) :
  no_cr n = true → split_colon n = T1 n → is_continuation (n +:+ ":") = false →
  header_name n.
Proof. intros. split_and!; [by apply no_cr_single_line | done..]. Qed.

Lemma Article_init_ok (w : world) (head body0 : string) (a : Article) :
  world_ok w →
  Forall (fun l => l ≠ "") (split_crlf head) →
  Article_init w head body0 = Return a →
  headers_ok (headers a).
Proof.
  intros Hw Hne (hs & header & a1 & a2 & a3 & H0 & H1 & H2 & H3 & H4)%Article_init_steps.
  eapply default_header_ok; [exact H4 | by apply header_name_plain | apply Hw |].
  eapply default_header_ok; [exact H3 | by apply header_name_plain | apply no_cr_str |].
  eapply default_header_ok; [exact H2 | by apply header_name_plain | apply no_cr_str |].
  eapply default_header_ok;
    [exact H1 | by apply header_name_plain | by apply new_message_id_no_cr |].
  simpl.
  apply (parse_lines_ok _ _ _ (split_crlf_single_lines head) Hne H0).
  split; [apply NoDup_nil_2 | constructor].
Qed.

(** *** Serialising and parsing again *)

Lemma mapM_format_header (l : list htuple) (lines : list string) :
  mapM format_header l = Return lines →
  Forall is_T2 l ∧ lines = map header_line l.
Proof.
  revert lines. induction l as [|t l IH]; intros lines; simpl.
  - by intros [= <-].
  - destruct t as [n|n v]; [done |]. simpl.
    destruct (mapM format_header l) as [ys|]; [|done]. simpl.
    intros [= <-]. destruct (IH ys eq_refl) as [Hl ->]. by repeat constructor.
Qed.

Lemma join_fold (x : string) (l : list string) :
  join CRLF (x :: l) = fold_left (fun acc c => acc +:+ CRLF +:+ c) l x.
Proof.
  revert x. induction l as [|y l IH]; intros x; [done |].
  rewrite join_cons by done. rewrite IH. simpl.
  generalize y. clear IH y. induction l as [|z l IH]; intros y; simpl; [done |].
  rewrite IH. by rewrite !sapp_assoc.
Qed.

Lemma split_crlf_join (xs : list string) :
  xs ≠ [] → split_crlf (join CRLF xs) = concat (map split_crlf xs).
Proof.
  induction xs as [|x xs IH]; [done |]. intros _.
  destruct xs as [|y xs].
  - simpl. by rewrite app_nil_r.
  - rewrite join_cons by done. rewrite split_crlf_app, IH by done. done.
Qed.

(** The lines of a printed header: the first holds the name, the rest
    are the folded lines of the value. *)
Lemma split_crlf_header_line (n v : string) :
  single_line n →
  ∃ v0 conts, split_crlf v = v0 :: conts
              ∧ split_crlf (n +:+ ": " +:+ v) = (n +:+ ": " +:+ v0) :: conts.
Proof.
  intros Hn. pose proof (split_crlf_nonempty v) as Hv.
  destruct (split_crlf v) as [|v0 conts] eqn:Hs; [done |].
  exists v0, conts. split; [done |].
  change (n +:+ ": " +:+ v) with (n +:+ String ":" (String " " v)).
  rewrite split_crlf_prepend by done.
  destruct (split_crlf_step ":" (String " " v)) as [(r' & [=] & _)|[_ ->]].
  destruct (split_crlf_step " " v) as [(r' & [=] & _)|[_ ->]].
  by rewrite Hs.
Qed.

Lemma parse_continuations (H1 : dict string htuple) (k n : string) (conts : list string) :
  dict_get H1 k = None →
  Forall (fun c => is_continuation c = true ∧ c ≠ "") conts →
  ∀ cur,
    foldM parse_line conts (H1 ++ [(k, T2 n cur)], Some k)
    = Return (H1 ++ [(k, T2 n (fold_left (fun acc c => acc +:+ CRLF +:+ c) conts cur))],
              Some k).
Proof.
  intros Hk. induction 1 as [|c conts [Hc _] _ IH]; intros cur; [done |].
  simpl. rewrite Hc, dict_get_snoc by done. simpl.
  by rewrite dict_set_snoc, IH.
Qed.

Lemma parse_header_line (H1 : dict string htuple) (header : option string) (k n v : string) :
  tuple_ok (k, T2 n v) → dict_get H1 k = None →
  foldM parse_line (split_crlf (n +:+ ": " +:+ v)) (H1, header)
  = Return (H1 ++ [(k, T2 n v)], Some k).
Proof.
  intros (Hk & (Hn1 & Hn2 & Hn3) & Hv) Hget. simpl in Hk. subst k.
  destruct (split_crlf_header_line n v Hn1) as (v0 & conts & Hs & ->).
  unfold folded in Hv. rewrite Hs in Hv. simpl in Hv.
  cbn [foldM]. unfold parse_line at 1.
  assert (is_continuation (n +:+ ": " +:+ v0) = false) as -> by by destruct n.
  rewrite split_colon_app by done. cbn [tuple_name bind].
  rewrite dict_set_new by done.
  rewrite parse_continuations by done.
  by rewrite <- join_fold, <- Hs, join_split_crlf.
Qed.

Lemma parse_header_lines (H : dict string htuple) :
  ∀ (H1 : dict string htuple) (header : option string),
    Forall tuple_ok H → Forall is_T2 H.*2 → NoDup (dict_keys (H1 ++ H)) →
    ∃ header',
      foldM parse_line (concat (map split_crlf (map header_line H.*2))) (H1, header)
      = Return (H1 ++ H, header').
Proof.
  induction H as [|[k t] H IH]; intros H1 header Hok HT2 Hnd.
  - exists header. by rewrite app_nil_r.
  - apply Forall_cons in Hok as [Hok1 Hok]. rewrite fmap_cons in HT2.
    apply Forall_cons in HT2 as [Ht HT2].
    destruct t as [n|n v]; [done |].
    rewrite fmap_cons. cbn [map concat header_line snd].
    rewrite foldM_app.
    assert (dict_get H1 k = None) as Hk.
    { apply dict_get_None. unfold dict_keys in *. rewrite fmap_app in Hnd.
      apply NoDup_app in Hnd as (_ & Hnd & _). intros Hin.
      apply (Hnd k Hin). rewrite fmap_cons. left. }
    rewrite (parse_header_line H1 header k n v Hok1 Hk). cbn [bind].
    destruct (IH (H1 ++ [(k, T2 n v)]) (Some k) Hok HT2) as [header' Hh].
    + by rewrite <- app_assoc.
    + exists header'. rewrite <- app_assoc in Hh. exact Hh.
Qed.

Lemma header_lines_nonempty (H : dict string htuple) :
  Forall tuple_ok H → Forall is_T2 H.*2 →
  Forall (fun l => l ≠ "") (concat (map split_crlf (map header_line H.*2))).
Proof.
  induction H as [|[k t] H IH]; intros Hok HT2; [constructor |].
  apply Forall_cons in Hok as [Hok1 Hok]. rewrite fmap_cons in HT2.
  apply Forall_cons in HT2 as [Ht HT2].
  destruct t as [n|n v]; [done |].
  rewrite fmap_cons. cbn [map concat header_line snd].
  apply Forall_app. split; [|auto].
  destruct Hok1 as (_ & (Hn1 & _ & _) & Hv).
  destruct (split_crlf_header_line n v Hn1) as (v0 & conts & Hs & ->).
  unfold folded in Hv. rewrite Hs in Hv. simpl in Hv.
  constructor; [by destruct n |].
  eapply Forall_impl; [exact Hv |]. by intros c [_ ?].
Qed.

(** *** Finding the blank line *)

Lemma prefix_cons (a b : ascii) (s1 s2 : string) :
  String.prefix (String a s1) (String b s2)
  = bool_decide (a = b) && String.prefix s1 s2.
Proof. simpl. by destruct (ascii_dec a b); [rewrite bool_decide_true|rewrite bool_decide_false]. Qed.

Lemma blank_prefix (c d : ascii) (r : string) :
  String.prefix BLANK (String c (String d r)) = true →
  c = CR ∧ d = LF ∧ String.prefix CRLF r = true.
Proof.
  unfold BLANK, CRLF. cbn [String.append].
  rewrite !prefix_cons. intros [?%bool_decide_eq_true [?%bool_decide_eq_true H]%andb_true_iff]%andb_true_iff.
  by split_and!.
Qed.

Lemma crlf_prefix_split (r : string) :
  String.prefix CRLF r = true → ∃ xs, split_crlf r = "" :: xs.
Proof.
  destruct r as [|x [|y r]]; [done | |].
  - unfold CRLF. rewrite prefix_cons. by rewrite andb_false_r.
  - unfold CRLF. rewrite !prefix_cons.
    intros [<-%bool_decide_eq_true [<-%bool_decide_eq_true _]%andb_true_iff]%andb_true_iff.
    exists (split_crlf r). apply split_crlf_sep.
Qed.

Lemma find_from_here (b : string) (i : Z) : find_from BLANK (BLANK +:+ b) i = i.
Proof. by destruct b. Qed.

Lemma find_from_cons (needle : string) (c : ascii) (r : string) (i : Z) :
  find_from needle (String c r) i
  = if String.prefix needle (String c r) then i else find_from needle r (i + 1).
Proof. done. Qed.

Lemma find_from_blank (s b : string) :
  Forall (fun l => l ≠ "") (tail (split_crlf s)) →
  ∀ i, find_from BLANK (s +:+ BLANK +:+ b) i = i + len s.
Proof.
  unfold len.
  induction s as [|c|c d r IHr IHdr] using string_ind2; intros Hne i.
  - change ("" +:+ BLANK +:+ b) with (BLANK +:+ b).
    rewrite find_from_here. simpl. lia.
  - change (String c "" +:+ BLANK +:+ b) with (String c (String CR (String LF (CRLF +:+ b)))).
    rewrite find_from_cons.
    destruct (String.prefix BLANK _) eqn:Hp.
    { apply blank_prefix in Hp as (_ & [=] & _). }
    change (String CR (String LF (CRLF +:+ b))) with (BLANK +:+ b).
    rewrite find_from_here. simpl. lia.
  - change (String c (String d r) +:+ BLANK +:+ b)
      with (String c (String d (r +:+ BLANK +:+ b))).
    rewrite find_from_cons.
    destruct (String.prefix BLANK (String c (String d (r +:+ BLANK +:+ b)))) eqn:Hp.
    { exfalso. apply blank_prefix in Hp as (-> & -> & Hp).
      rewrite split_crlf_sep in Hne. simpl in Hne.
      assert (∃ xs, split_crlf r = "" :: xs) as [xs Hxs].
      { destruct r as [|x [|y r]].
        - by exists [].
        - exfalso. revert Hp. change (String x "" +:+ BLANK +:+ b)
            with (String x (String CR (String LF (CRLF +:+ b)))).
          unfold CRLF at 1. rewrite !prefix_cons. by rewrite andb_false_r.
        - apply crlf_prefix_split. revert Hp.
          change (String x (String y r) +:+ BLANK +:+ b)
            with (String x (String y (r +:+ BLANK +:+ b))).
          unfold CRLF. rewrite !prefix_cons.
          intros [-> [-> _]%andb_true_iff]%andb_true_iff. by destruct r. }
      rewrite Hxs in Hne. by apply Forall_cons in Hne as [? _]. }
    destruct (split_crlf_step c (String d r)) as [(r' & -> & [= -> ->] & Hs)|[Hn Hs]].
    + rewrite Hs in Hne. simpl in Hne.
      rewrite find_from_cons.
      destruct (String.prefix BLANK (String LF (r' +:+ BLANK +:+ b))) eqn:Hp'.
      { exfalso. revert Hp'. unfold BLANK, CRLF. cbn [String.append].
        by rewrite prefix_cons. }
      rewrite IHr.
      * simpl String.length. lia.
      * pose proof (split_crlf_nonempty r').
        destruct (split_crlf r'); [done |]. by apply Forall_cons in Hne as [_ ?].
    + change (String d (r +:+ BLANK +:+ b)) with (String d r +:+ BLANK +:+ b).
      rewrite IHdr.
      * simpl String.length. lia.
      * rewrite Hs in Hne.
        pose proof (split_crlf_nonempty (String d r)).
        by destruct (split_crlf (String d r)).
Qed.

Lemma take_str_app (s t : string) : take_str (String.length s) (s +:+ t) = s.
Proof. induction s as [|c s IH]; simpl; [by destruct t | by rewrite IH]. Qed.

Lemma drop_str_app (s t : string) : drop_str (String.length s) (s +:+ t) = t.
Proof. induction s as [|c s IH]; simpl; [by destruct t | done]. Qed.

(** [postRequest] cuts a message at its first blank line. *)
Lemma cleave_blank (s b : string) :
  Forall (fun l => l ≠ "") (tail (split_crlf s)) →
  cleave (s +:+ BLANK +:+ b) = (s, b).
Proof.
  intros Hne. unfold cleave, find. fold BLANK. rewrite find_from_blank by done.
  unfold slice_to, slice_from, slice_bound, len.
  rewrite !(proj2 (Z.ltb_ge _ _)) by lia.
  rewrite Z.add_0_l, Nat2Z.id, take_str_app. f_equal.
  replace (Z.to_nat (Z.of_nat (String.length s) + 4))
    with (String.length (s +:+ BLANK)) by (rewrite length_sapp; simpl; lia).
  by rewrite <- sapp_assoc, drop_str_app.
Qed.

(** *** Parsing, serialising, parsing again *)

Lemma example_world_ok : world_ok example_world.
Proof. by constructor. Qed.

(** An article printed and read again, from the header block on. *)
Lemma print_and_parse_again (w w' : world) (head body0 : string)
    (a : Article) (text : string) :
  world_ok w →
  Forall (fun l => l ≠ "") (split_crlf head) →
  Article_init w head body0 = Return a →
  article_text a = Return text →
  parse_message w' text = Return a.
Proof.
  intros Hw Hne Ha Ht.
  pose proof (Article_init_four w head body0 a (ctime_nonempty w Hw) Ha)
    as (Hm & Hb & Hl & Hd).
  pose proof (Article_init_ok w head body0 a Hw Hne Ha) as [Hnd Hall].
  unfold article_text, textHeaders in Ht.
  destruct (mapM format_header (dict_values (headers a))) as [lines|] eqn:Hlines; [|done].
  injection Ht as <-.
  apply mapM_format_header in Hlines as [HT2 ->].
  unfold dict_values in *.
  assert (map header_line (headers a).*2 ≠ []) as Hnil.
  { destruct Hm as (v & Hv & Hv'). unfold getHeader in Hv.
    destruct (headers a); [by injection Hv as <- | done]. }
  assert (Forall (fun l => l ≠ "")
            (split_crlf (join CRLF (map header_line (headers a).*2)))) as Hlines.
  { rewrite split_crlf_join by done. by apply header_lines_nonempty. }
  unfold parse_message.
  replace ((join CRLF (map header_line (headers a).*2) +:+ CRLF) +:+ CRLF +:+ body a)
    with (join CRLF (map header_line (headers a).*2) +:+ BLANK +:+ body a)
    by (by rewrite sapp_assoc).
  rewrite cleave_blank.
  2:{ revert Hlines.
      generalize (split_crlf (join CRLF (map header_line (headers a).*2))).
      intros [|x xs]; [constructor | by intros [_ ?]%Forall_cons]. }
  unfold Article_init. rewrite split_crlf_join by done.
  destruct (parse_header_lines (headers a) [] None Hall HT2 Hnd) as [header' Hparse].
  unfold dict in *. rewrite Hparse. cbn [bind app].
  replace (mkArticle (body a) (headers a)) with a by by destruct a.
  destruct Hm as (vm & Hvm & ?), Hb as (vb & Hvb & ?),
    Hl as (vl & Hvl & ?), Hd as (vd & Hvd & ?).
  rewrite (default_header_present a _ vm) by done. cbn [bind].
  rewrite (default_header_present a _ vb) by done. cbn [bind].
  rewrite (default_header_present a _ vl) by done. cbn [bind].
  by rewrite (default_header_present a _ vd).
Qed.

(** A message with a blank line is its header block, the blank line
    and its body, and the header block has no empty line after the
    first line. *)
Lemma prefix_app (p s : string) :
  String.prefix p s = true → ∃ b, s = p +:+ b.
Proof.
  revert s. induction p as [|a p IH]; intros s; [by exists s |].
  destruct s as [|c s]; [done |]. rewrite prefix_cons.
  intros [<-%bool_decide_eq_true [b ->]%IH]%andb_true_iff. by exists b.
Qed.

Lemma blank_prefix_app (s : string) :
  String.prefix BLANK s = true → ∃ b, s = BLANK +:+ b.
Proof. apply prefix_app. Qed.

Lemma find_from_ge (needle s : string) (i j : Z) :
  find_from needle s i = j → j = -1 ∨ i ≤ j.
Proof.
  revert i. induction s as [|c r IH]; intros i.
  - cbn [find_from]. destruct (String.prefix needle ""); intros <-; [right; lia | by left].
  - rewrite find_from_cons.
    destruct (String.prefix needle (String c r)); [intros <-; right; lia |].
    intros [?|?]%IH; [by left | right; lia].
Qed.

Lemma split_crlf_first_empty (s : string) (xs : list string) :
  split_crlf s = "" :: xs → s = "" ∨ ∃ r, s = String CR (String LF r).
Proof.
  destruct s as [|c r]; [by left |].
  destruct (split_crlf_step c r) as [(r' & -> & -> & _)|[_ ->]]; [right; eauto |].
  pose proof (split_crlf_nonempty r). by destruct (split_crlf r).
Qed.

Lemma find_from_split (s : string) :
  ∀ i j, find_from BLANK s i = j → 0 ≤ i → 0 ≤ j →
    ∃ h b, s = h +:+ BLANK +:+ b
           ∧ Forall (fun l => l ≠ "") (tail (split_crlf h)).
Proof.
  induction s as [|c r IH]; intros i j.
  - simpl. intros <-. lia.
  - rewrite find_from_cons.
    destruct (String.prefix BLANK (String c r)) eqn:Hp.
    { apply blank_prefix_app in Hp as [b ->]. intros _ _ _. by exists "", b. }
    intros Hj Hi Hj0. destruct (find_from_ge _ _ _ _ Hj) as [->|Hij]; [lia |].
    destruct (IH (i + 1) j Hj) as (h & b & -> & Hne); [lia.. |].
    exists (String c h), b. split; [done |].
    destruct (split_crlf_step c h) as [(h' & -> & -> & ->)|[_ ->]].
    + cbn [tail].
      destruct (split_crlf_step LF h') as [(? & [=] & _)|[_ Hs]].
      rewrite Hs in Hne. pose proof (split_crlf_nonempty h') as Hh'.
      destruct (split_crlf h') as [|x xs] eqn:Hx; [done |]. cbn [cons_hd tail] in Hne.
      constructor; [|done]. intros ->.
      apply split_crlf_first_empty in Hx as [->|[h'' ->]].
      * by vm_compute in Hp.
      * destruct h''; by vm_compute in Hp.
    + pose proof (split_crlf_nonempty h). by destruct (split_crlf h).
Qed.

Lemma cleave_message (message : string) :
  0 ≤ find BLANK message →
  ∃ h b, message = h +:+ BLANK +:+ b ∧ cleave message = (h, b)
         ∧ Forall (fun l => l ≠ "") (tail (split_crlf h)).
Proof.
  intros Hf.
  destruct (find_from_split message 0 _ eq_refl) as (h & b & -> & Hne); [lia | done |].
  exists h, b. split_and!; [done | by apply cleave_blank | done].
Qed.

(** [Article.__init__] raises on a header block whose first line is
    empty. *)
Lemma Article_init_first_line (w : world) (block body0 : string) (a : Article) :
  Article_init w block body0 = Return a → head (split_crlf block) ≠ Some "".
Proof.
  unfold Article_init. destruct (split_crlf block) as [|l ls]; [done |].
  intros Ha [= ->]. done.
Qed.

(** C7, as stated, fails: [textHeaders] ends every header with a line
    break, [Article.__init__] splits the block into lines and takes the
    empty last line for a continuation, so parsing the printed headers
    again appends a line break to the last header.  And an article text
    that has no header at all is not parsed: the empty first line is
    taken for a continuation of a header that is not there. *)
Lemma reparse_textHeaders_changes :
  (Article_init example_world "Newsgroups: alt.test" example_body = Return example_article
   ∧ ∃ t a',
       textHeaders example_article = Return t
       ∧ Article_init example_world t example_body = Return a'
       ∧ a' ≠ example_article
       ∧ getHeader example_article "Date" = Return "Tue Nov 14 22:13:20 2023"
       ∧ getHeader a' "Date" = Return ("Tue Nov 14 22:13:20 2023" +:+ CRLF))
  ∧ Article_init example_world "" example_body = Raise KeyError
  ∧ parse_message example_world (BLANK +:+ example_body) = Raise KeyError.
Proof.
  split; [split; [reflexivity |] | by split].
  eexists _, _. split_and!; [reflexivity | reflexivity | | reflexivity | reflexivity].
  intros [=].
Qed.

(** C7, amended: when a message has a blank line after its headers and
    is parsed without an exception, the article has a value for
    Message-ID, Bytes, Lines and Date; and when its headers can be
    printed, reading the article text (the printed headers, an empty
    line, the body) the way [postRequest] reads a message gives the same
    article again, whatever the clock then shows. *)
Theorem parse_article_text_again (w w' : world) (message : string)
    (a : Article) (text : string) :
  world_ok w →
  0 ≤ find BLANK message →
  parse_message w message = Return a →
  article_text a = Return text →
  (nonempty_header a "Message-ID" ∧ nonempty_header a "Bytes"
   ∧ nonempty_header a "Lines" ∧ nonempty_header a "Date")
  ∧ parse_message w' text = Return a.
Proof.
  intros Hw (h & b & -> & Hc & Hne)%cleave_message Ha Ht.
  unfold parse_message in Ha. rewrite Hc in Ha.
  split; [by eapply Article_init_four; [apply Hw |] |].
  eapply print_and_parse_again; [done | | done..].
  apply Article_init_first_line in Ha.
  destruct (split_crlf h) as [|l ls]; [constructor |].
  constructor; [by intros -> | done].
Qed.

Lemma parse_article_text_again_witness :
  world_ok example_world
  ∧ 0 ≤ find BLANK message_plain
  ∧ parse_message example_world message_plain = Return example_article
  ∧ (∃ text, article_text example_article = Return text
             ∧ parse_message example_world text = Return example_article).
Proof.
  split; [exact example_world_ok |].
  split; [by vm_compute |].
  split; [reflexivity |].
  eexists. split; [reflexivity |].
  eapply (parse_article_text_again example_world example_world
            message_plain example_article).
  - exact example_world_ok.
  - by vm_compute.
  - reflexivity.
  - reflexivity.
Defined.

(** ** Range requests on an unknown group *)





(** ** Retrieval of a missing article *)

(** PickleStorage tells the two cases apart by the ERR_ code. *)
Lemma pickle_lookup_errors {A} (db : pickle_db) (group : string) (index : Z)
    (k : Article → res A) :
  (db_get db group = None →
   Pickle.lookup_article db group index k = Return (Fail (FCode ERR_NOGROUP)))
  ∧ (∀ t, db_get db group = Some (Table t) → dict_get t index = None →
     Pickle.lookup_article db group index k = Return (Fail (FCode ERR_NOARTICLE)))
  ∧ ERR_NOGROUP ≠ ERR_NOARTICLE.
Proof.
  unfold Pickle.lookup_article. split_and!; [by intros -> | | done].
  intros t -> Ht. by rewrite Ht.
Qed.

(** NewsShelf answers a missing index of a group it carries with the
    failure it has for a group it does not carry. *)
Lemma shelf_lookup_missing_index {A} (s : shelf) (group : string) (index : Z)
    (k : Article → res A) (g : Group) :
  s_groups s !! encode group = Some g → dict_get (articles g) index = None →
  NewsShelf.lookup_article s group index k
  = Return (Fail (FError ("No such group: " +:+ group))).
Proof. intros Hg Hi. unfold NewsShelf.lookup_article. by rewrite Hg, Hi. Qed.

Lemma shelf_lookup_missing_group {A} (s : shelf) (group : string) (index : Z)
    (k : Article → res A) :
  s_groups s !! encode group = None →
  NewsShelf.lookup_article s group index k
  = Return (Fail (FError ("No such group: " +:+ group))).
Proof. intros Hg. unfold NewsShelf.lookup_article. by rewrite Hg. Qed.

(** C9 at the failing input: the shelf carries [alt.test], which holds
    no article 7, and the three retrieval requests fail with "No such
    group: alt.test", the failure of an unknown group. *)
Theorem shelf_missing_article_reported_as_group :
  s_groups shelf_plain !! encode "alt.test" = Some (new_group "alt.test" "y")
  ∧ NewsShelf.articleRequest shelf_plain "alt.test" 7 None
    = Return (Fail (FError "No such group: alt.test"))
  ∧ NewsShelf.headRequest shelf_plain "alt.test" 7
    = Return (Fail (FError "No such group: alt.test"))
  ∧ NewsShelf.bodyRequest shelf_plain "alt.test" 7
    = Return (Fail (FError "No such group: alt.test"))
  ∧ NewsShelf.bodyRequest (Shelf ∅ ∅ [] ∅) "alt.test" 7
    = Return (Fail (FError "No such group: alt.test")).
Proof. by split_and!. Qed.

(** ** Moderation gating *)

Lemma foldM_raise {A B} (f : A → B → res A) (l : list B) (x : B) (e : exn) :
  x ∈ l → (∀ acc, f acc x = Raise e) →
  (∀ acc y, y ∈ l → f acc y = Raise e ∨ ∃ acc', f acc y = Return acc') →
  ∀ acc, foldM f l acc = Raise e.
Proof.
  intros Hx Hfx. induction l as [|y l IH]; intros Hall acc.
  - by apply elem_of_nil in Hx.
  - simpl. apply elem_of_cons in Hx as [<-|Hx]; [by rewrite Hfx |].
    destruct (Hall acc y) as [->|[acc' ->]]; [left | done |]. simpl.
    apply IH; [done |]. intros acc0 z Hz. apply Hall. by right.
Qed.

(** [PickleStorage.getModerators] raises as soon as one target group
    has no entry in the registry. *)
Lemma pickle_getModerators_missing (db : pickle_db) (groups : list string) (g : string) :
  g ∈ groups → p_moderators db !! g = None →
  Pickle.getModerators db groups = Raise TypeError.
Proof.
  intros Hg Hm. unfold Pickle.getModerators.
  rewrite (foldM_raise _ groups g TypeError); [done | done | by rewrite Hm |].
  intros acc y _. destruct (p_moderators db !! y); eauto.
Qed.

Lemma pickle_getModerators_entries (db : pickle_db) (groups ms : list string) :
  Pickle.getModerators db groups = Return ms →
  ∀ g, g ∈ groups → is_Some (p_moderators db !! g).
Proof.
  intros Hms g Hg. destruct (p_moderators db !! g) eqn:Hm; [done |].
  by rewrite (pickle_getModerators_missing db groups g) in Hms.
Qed.

(** A post through PickleStorage that names a group without registry
    entry raises [TypeError] and stores nothing, whether the group is
    carried or not and whatever the other target groups are. *)
Lemma pickle_post_missing_entry (w : world) (cfg : mailcfg) (db : pickle_db)
    (message head body0 newsgroups g : string) (a : Article) :
  cleave message = (head, body0) →
  Article_init w head body0 = Return a →
  getHeader a "Newsgroups" = Return newsgroups →
  g ∈ words newsgroups → p_moderators db !! g = None →
  Pickle.postRequest w cfg db message = (db, Raise TypeError).
Proof.
  intros Hc Ha Hn Hg Hm. unfold Pickle.postRequest. rewrite Hc, Ha. cbn [bind].
  rewrite Hn. cbn [bind].
  by rewrite (pickle_getModerators_missing db _ g).
Qed.

(** When every target group has a registry entry and one of them lists
    a moderator, a post without Approved is handed to the moderators and
    the store is left alone. *)
Lemma pickle_post_diverted (w : world) (cfg : mailcfg) (db : pickle_db)
    (message head body0 newsgroups : string) (a : Article) (m : string) (ms : list string) :
  cleave message = (head, body0) →
  Article_init w head body0 = Return a →
  getHeader a "Newsgroups" = Return newsgroups →
  Pickle.getModerators db (words newsgroups) = Return (m :: ms) →
  getHeader a "Approved" = Return "" →
  Pickle.postRequest w cfg db message
  = (db, let! o := notifyModerators w cfg (m :: ms) a in Return (Mailed o)).
Proof.
  intros Hc Ha Hn Hm Hap. unfold Pickle.postRequest. rewrite Hc, Ha. cbn [bind].
  rewrite Hn. cbn [bind]. rewrite Hm. cbn [bind]. rewrite Hap. done.
Qed.

Lemma shelf_getModerator_Some (s : shelf) (groups : list string) (g : string) :
  g ∈ groups → is_Some (s_moderators s !! encode g) →
  is_Some (NewsShelf.getModerator s groups).
Proof.
  intros Hg Hm. induction groups as [|x groups IH]; [by apply elem_of_nil in Hg |].
  simpl. apply elem_of_cons in Hg as [<-|Hg].
  - destruct Hm as [m ->]. done.
  - destruct (s_moderators s !! encode x); [done | auto].
Qed.

Lemma shelf_getModerator_elem (s : shelf) (groups : list string) (m : string) :
  NewsShelf.getModerator s groups = Some m →
  ∃ g, g ∈ groups ∧ s_moderators s !! encode g = Some m.
Proof.
  induction groups as [|x groups IH]; [done |]. simpl.
  destruct (s_moderators s !! encode x) as [m'|] eqn:Hx.
  - intros [= ->]. exists x. split; [left | done].
  - intros (g & Hg & Hm)%IH. exists g. split; [by right | done].
Qed.

(** NewsShelf: when a target group has a moderator, the article has no
    Approved value and the addresses of the registry are not empty, the
    post is handed to the moderator of the first moderated target
    group and the shelf is left alone. *)
Lemma shelf_post_diverted (w : world) (cfg : mailcfg) (s : shelf)
    (message head body0 newsgroups g : string) (a : Article) :
  (∀ k m, s_moderators s !! k = Some m → m ≠ "") →
  cleave message = (head, body0) →
  Article_init w head body0 = Return a →
  getHeader a "Newsgroups" = Return newsgroups →
  g ∈ words newsgroups → is_Some (s_moderators s !! encode g) →
  getHeader a "Approved" = Return "" →
  ∃ m, NewsShelf.getModerator s (words newsgroups) = Some m
       ∧ NewsShelf.postRequest w cfg s message
         = (s, let! o := notifyModerators w cfg [m] a in Return (Mailed o)).
Proof.
  intros Hreg Hc Ha Hn Hg Hm Hap.
  destruct (shelf_getModerator_Some s _ g Hg Hm) as [m Hmod].
  exists m. split; [done |].
  destruct (shelf_getModerator_elem s _ m Hmod) as (g' & _ & Hg').
  unfold NewsShelf.postRequest. rewrite Hc, Ha. cbn [bind].
  rewrite Hn. cbn [bind]. rewrite Hmod.
  rewrite decide_False by eauto. rewrite Hap. cbn [bind].
  by rewrite decide_True.
Qed.

(** C1 at the failing input: PickleStorage carries [alt.test], the
    registry has no entry for it, and the post of the scenario raises
    [TypeError] out of [getModerators]; nothing is stored. *)
Theorem pickle_post_unmoderated_raises :
  db_get pickle_plain "alt.test" = Some (Table [])
  ∧ p_moderators pickle_plain !! "alt.test" = None
  ∧ Pickle.postRequest example_world example_cfg pickle_plain message_plain
    = (pickle_plain, Raise TypeError)
  ∧ Pickle.groupRequest pickle_plain "alt.test"
    = Return (Succeed ("alt.test", 0, Pickle.IntB 0, Pickle.IntB 0, "y"))
  ∧ Pickle.bodyRequest pickle_plain "alt.test" 1 = Return (Fail (FCode ERR_NOARTICLE)).
Proof. by split_and!. Qed.

(** C2 at the failing input: a post to a moderated and an unmoderated
    group, without Approved, is not handed to the moderators by
    PickleStorage: [getModerators] raises [TypeError] at the group that
    has no registry entry. *)
Theorem pickle_post_mixed_raises :
  p_moderators pickle_mixed !! "mod.test" = Some ["alice@example.org"]
  ∧ (∃ a, parse_message example_world message_mixed = Return a
          ∧ getHeader a "Newsgroups" = Return "mod.test alt.test"
          ∧ getHeader a "Approved" = Return "")
  ∧ Pickle.postRequest example_world example_cfg pickle_mixed message_mixed
    = (pickle_mixed, Raise TypeError).
Proof. split_and!; [done | by eexists | done]. Qed.

(** *** The scenario of C1 on NewsShelf *)

Lemma cleave_message_plain : cleave message_plain = ("Newsgroups: alt.test", example_body).
Proof. reflexivity. Qed.

Lemma Article_init_plain (w : world) :
  Article_init w "Newsgroups: alt.test" example_body = Return (article_plain w).
Proof. reflexivity. Qed.

(** The sibling path does what the claim says: on a shelf that carries
    the fresh group [alt.test] without a moderator, the post succeeds,
    [groupRequest] reports count 1, high 1, low 1 and [bodyRequest]
    returns the body. *)
Lemma shelf_post_scenario (w : world) (cfg : mailcfg) (s : shelf) (flags : string) :
  s_groups s !! "alt.test" = Some (new_group "alt.test" flags) →
  s_moderators s !! "alt.test" = None →
  words (hostname w) ≠ [] →
  ∃ s',
    NewsShelf.postRequest w cfg s message_plain = (s', Return (Posted (Succeed tt)))
    ∧ NewsShelf.groupRequest s' "alt.test" = Succeed ("alt.test", 1, 1, 1, flags)
    ∧ NewsShelf.bodyRequest s' "alt.test" 1
      = Return (Succeed (1, new_message_id w example_body, example_body)).
Proof.
  intros Hg Hm Hh. unfold NewsShelf.postRequest.
  rewrite cleave_message_plain, Article_init_plain. cbn [bind].
  change (getHeader (article_plain w) "Newsgroups") with (@Return string "alt.test").
  cbn [bind]. change (words "alt.test") with ["alt.test"].
  cbn [NewsShelf.getModerator]. change (encode "alt.test") with "alt.test".
  rewrite Hm. cbn [bind fold_left NewsShelf.post_group].
  change (encode "alt.test") with "alt.test". rewrite Hg.
  unfold host_word. destruct (words (hostname w)) as [|host ?]; [done |].
  cbn [app].
  change (getHeader (putHeader (article_plain w) "Xref" _) "Message-ID")
    with (@Return string (new_message_id w example_body)).
  eexists. split; [reflexivity |]. split.
  - unfold NewsShelf.groupRequest. change (encode "alt.test") with "alt.test".
    cbn [s_groups set_message_id set_group]. by rewrite lookup_insert_eq.
  - unfold NewsShelf.bodyRequest, NewsShelf.lookup_article.
    change (encode "alt.test") with "alt.test".
    cbn [s_groups set_message_id set_group]. by rewrite lookup_insert_eq.
Qed.

(** *** Posts that name no carried group *)

Lemma shelf_post_loop_unknown (article : Article) (groups : list string)
    (s : shelf) (xref : list (string * string)) :
  (∀ g, g ∈ groups → s_groups s !! encode g = None) →
  fold_left (NewsShelf.post_group article) groups (s, xref) = (s, xref).
Proof.
  induction groups as [|g groups IH]; intros Hall; [done |]. simpl.
  rewrite (Hall g) by left. apply IH. intros g' Hg'. apply Hall. by right.
Qed.

(** NewsShelf: a post that is not handed to a moderator and names no
    carried group fails with the NewsServerError "No groups carried". *)
Lemma shelf_post_no_groups (w : world) (cfg : mailcfg) (s : shelf)
    (message head body0 newsgroups : string) (a : Article) :
  cleave message = (head, body0) →
  Article_init w head body0 = Return a →
  getHeader a "Newsgroups" = Return newsgroups →
  NewsShelf.getModerator s (words newsgroups) = None →
  (∀ g, g ∈ words newsgroups → s_groups s !! encode g = None) →
  NewsShelf.postRequest w cfg s message
  = (s, Return (Posted (Fail (FError ("No groups carried: "
                                        +:+ join " " (words newsgroups)))))).
Proof.
  intros Hc Ha Hn Hm Hall. unfold NewsShelf.postRequest. rewrite Hc, Ha. cbn [bind].
  rewrite Hn. cbn [bind]. rewrite Hm. cbn [bind].
  by rewrite shelf_post_loop_unknown.
Qed.


(** ** The Xref header *)

Lemma join_empty_cons (x : string) (l : list string) : join "" (x :: l) = x +:+ join "" l.
Proof. destruct l; [by rewrite sapp_nil_r | done]. Qed.

(** PickleStorage writes the pairs one after the other, with nothing
    between them. *)
Lemma pickle_xref_text_cons (x : string * Z) (xref : list (string * Z)) :
  Pickle.xref_text (x :: xref) = (x.1 +:+ ":" +:+ str x.2) +:+ Pickle.xref_text xref.
Proof. unfold Pickle.xref_text. by rewrite map_cons, join_empty_cons. Qed.

(** NewsShelf separates them by one space. *)
Lemma shelf_xref_text_cons (x y : string * string) (xref : list (string * string)) :
  NewsShelf.xref_text (x :: y :: xref)
  = (x.1 +:+ ":" +:+ x.2) +:+ " " +:+ NewsShelf.xref_text (y :: xref).
Proof. done. Qed.

Lemma shelf_xref_text_one (x : string * string) :
  NewsShelf.xref_text [x] = x.1 +:+ ":" +:+ x.2.
Proof. done. Qed.

(** C5 at the failing input: the article posted to [mod.a] and [mod.b]
    through PickleStorage gets the Xref value
    "news.example.org mod.a:1mod.b:1", the two pairs run together; the
    expression of NewsShelf gives "mod.a:1 mod.b:1" for the same pairs. *)
Theorem pickle_xref_pairs_run_together :
  (Pickle.postRequest example_world example_cfg pickle_moderated message_approved).2
  = Return (Posted (Succeed tt))
  ∧ Pickle.xhdrRequest pickle_after_post "mod.a" None None "Xref"
    = Return (Succeed [(1, "news.example.org mod.a:1mod.b:1")])
  ∧ Pickle.xhdrRequest pickle_after_post "mod.b" None None "Xref"
    = Return (Succeed [(1, "news.example.org mod.a:1mod.b:1")])
  ∧ Pickle.xref_text [("mod.a", 1); ("mod.b", 1)] = "mod.a:1mod.b:1"
  ∧ NewsShelf.xref_text [("mod.a", "1"); ("mod.b", "1")] = "mod.a:1 mod.b:1".
Proof. by split_and!. Qed.

(** ** listRequest *)

(** PickleStorage reports one more than the largest index of a group
    that holds articles. *)
Lemma pickle_list_group_table (db : pickle_db) (i : string) (k : Z) (a : Article)
    (t : dict Z Article) :
  db_get db i = Some (Table ((k, a) :: t)) →
  Pickle.list_group db i
  = Return (i, max_list k (dict_keys t) + 1, min_list k (dict_keys t),
            Pickle.table_flags db i).
Proof. intros Hi. unfold Pickle.list_group. by rewrite Hi. Qed.

(** NewsShelf reports the bounds recorded in each group. *)
Lemma shelf_listRequest_spec (s : shelf) :
  ∃ r, NewsShelf.listRequest s = Succeed r
       ∧ ∀ x, x ∈ r ↔ ∃ key g, s_groups s !! key = Some g
                               ∧ x = (g_name g, maxArticle g, minArticle g, g_flags g).
Proof.
  eexists. split; [done |]. intros x.
  rewrite list_elem_of_In, in_map_iff. split.
  - intros (g & <- & Hg). apply list_elem_of_In, list_elem_of_fmap in Hg as ([key g'] & -> & Hg).
    apply elem_of_map_to_list in Hg. by exists key, g'.
  - intros (key & g & Hg & ->). exists g. split; [done |].
    apply list_elem_of_In, list_elem_of_fmap. exists (key, g). split; [done |].
    by apply elem_of_map_to_list.
Qed.

(** C8 at the failing input: after one article is filed in [mod.a] and
    [mod.b], whose largest index is then 1 ([groupRequest] says so),
    [PickleStorage.listRequest] reports 2 as the maximum index. *)
Theorem pickle_listRequest_reports_next_index :
  Pickle.listRequest pickle_after_post
  = Return (Succeed [("mod.a", 2, 1, "m"); ("mod.b", 2, 1, "m")])
  ∧ (∀ g, g ∈ ["mod.a"; "mod.b"] →
     ∃ a, p_tables pickle_after_post !! g = Some [(1, a)])
  ∧ Pickle.groupRequest pickle_after_post "mod.a"
    = Return (Succeed ("mod.a", 1, Pickle.IntB 1, Pickle.IntB 1, "y")).
Proof.
  split_and!; [done | | done].
  intros g Hg. repeat (apply elem_of_cons in Hg as [->|Hg]; [by eexists |]).
  by apply elem_of_nil in Hg.
Qed.

(** ** The range of xhdrRequest *)

(** The range [xoverRequest] of PickleStorage selects. *)
Lemma xover_in_range_spec (low high : option Z) (i : Z) :
  Pickle.xover_in_range low high i = true
  ↔ (∀ l, low = Some l → l ≤ i) ∧ (∀ h, high = Some h → i ≤ h).
Proof.
  unfold Pickle.xover_in_range. rewrite andb_true_iff.
  destruct low as [l|], high as [h|]; rewrite ?bool_decide_eq_true.
  - split; [intros [??]; split; by intros ? [= <-] | intros [H1 H2]; auto].
  - split; [intros [??]; split; [by intros ? [= <-] | done] | intros [H1 H2]; auto].
  - split; [intros [??]; split; [done | by intros ? [= <-]] | intros [H1 H2]; auto].
  - done.
Qed.

(** The range [xhdrRequest] of PickleStorage selects: without a lower
    bound everything, whatever the upper bound is; with both bounds the
    indices up to the upper bound, whatever the lower bound is. *)
Lemma xhdr_in_range_no_low (high : option Z) (i : Z) :
  Pickle.xhdr_in_range None high i = Return true.
Proof. done. Qed.

Lemma xhdr_in_range_both (l h i : Z) :
  Pickle.xhdr_in_range (Some l) (Some h) i = Return (bool_decide (i ≤ h)).
Proof. unfold Pickle.xhdr_in_range. by destruct (bool_decide (l ≤ i)). Qed.

Lemma xhdr_in_range_no_high (l i : Z) :
  Pickle.xhdr_in_range (Some l) None i = if bool_decide (l ≤ i) then Return true else Raise TypeError.
Proof. done. Qed.

(** NewsShelf, given both bounds, returns the stored indices between
    them and no other. *)
Lemma elem_of_range (low high i : Z) : i ∈ NewsShelf.range low high ↔ low ≤ i ≤ high.
Proof.
  unfold NewsShelf.range. rewrite list_elem_of_fmap. split.
  - intros (k & -> & Hk%elem_of_seq). lia.
  - intros Hi. exists (Z.to_nat (i - low)). split; [lia |].
    apply elem_of_seq. lia.
Qed.

Lemma shelf_xhdr_loop (g : Group) (header : string) (indices : list Z) :
  ∀ r0 r : list (Z * string),
    foldM (fun r i =>
             match dict_get (articles g) i with
             | Some a => let! v := getHeader a header in Return (r ++ [(i, v)])
             | None => Return r
             end) indices r0 = Return r →
    ∀ i v, (i, v) ∈ r ↔
           (i, v) ∈ r0
           ∨ (i ∈ indices
              ∧ ∃ a, dict_get (articles g) i = Some a ∧ getHeader a header = Return v).
Proof.
  induction indices as [|j indices IH]; intros r0 r; simpl.
  - intros [= <-] i v. split; [by left |].
    by intros [?|[?%elem_of_nil _]].
  - destruct (dict_get (articles g) j) as [a|] eqn:Hj; simpl.
    + destruct (getHeader a header) as [vj|] eqn:Hv; [|done]. simpl.
      intros Hr i v. rewrite (IH _ _ Hr), elem_of_app, list_elem_of_singleton, elem_of_cons.
      split.
      * intros [[?|[= -> ->]]|[? ?]]; [by left | right | right].
        -- split; [by left | eauto].
        -- split; [by right | done].
      * intros [?|[[->|?] (a' & Ha' & Hv')]]; [by left; left | | right; eauto].
        left; right. congruence.
    + intros Hr i v. rewrite (IH _ _ Hr), elem_of_cons. split.
      * intros [?|[? ?]]; [by left | right]. split; [by right | done].
      * intros [?|[[->|?] (a' & Ha' & Hv')]]; [by left | congruence | right; eauto].
Qed.

Lemma shelf_xhdr_both_bounds (w : world) (s : shelf) (group header : string)
    (low high : Z) (g : Group) (r : list (Z * string)) :
  s_groups s !! encode group = Some g →
  NewsShelf.xhdrRequest w s group (Some low) (Some high) header = Return (Succeed r) →
  ∀ i v, (i, v) ∈ r ↔
         low ≤ i ≤ high
         ∧ ∃ a, dict_get (articles g) i = Some a ∧ getHeader a header = Return v.
Proof.
  intros Hg. unfold NewsShelf.xhdrRequest. rewrite Hg. cbn [bind default].
  destruct (foldM _ _ _) as [r'|] eqn:Hloop; [|done]. simpl. intros [= <-] i v.
  rewrite (shelf_xhdr_loop _ _ _ _ _ Hloop), elem_of_range. split.
  - by intros [?%elem_of_nil|?].
  - by right.
Qed.

(** C4 at the failing input: [mod.a] holds the articles 1 and 2;
    [xhdrRequest] with no lower bound and the upper bound 1 returns both,
    and with the bounds 2 and 3 it returns both as well, where
    [xoverRequest] returns the row of article 1, respectively 2, only. *)
Theorem pickle_xhdr_ignores_bounds :
  dict_keys <$> p_tables pickle_after_two_posts !! "mod.a" = Some [1; 2]
  ∧ Pickle.xhdrRequest pickle_after_two_posts "mod.a" None (Some 1) "Bytes"
    = Return (Succeed [(1, "4"); (2, "4")])
  ∧ Pickle.xhdrRequest pickle_after_two_posts "mod.a" (Some 2) (Some 3) "Bytes"
    = Return (Succeed [(1, "4"); (2, "4")])
  ∧ (∃ r, Pickle.xoverRequest pickle_after_two_posts "mod.a" None (Some 1)
          = Return (Succeed r) ∧ map (fun row => head row) r = [Some "1"])
  ∧ (∃ r, Pickle.xoverRequest pickle_after_two_posts "mod.a" (Some 2) (Some 3)
          = Return (Succeed r) ∧ map (fun row => head row) r = [Some "2"]).
Proof. split_and!; [done.. | by eexists | by eexists]. Qed.

(** ** Index assignment *)

Lemma named_nil (key : string) : named key [] = 0.
Proof. done. Qed.

Lemma named_cons (key g : string) (groups : list string) :
  named key (g :: groups) = (if decide (encode g = key) then 1 else 0) + named key groups.
Proof.
  unfold named. rewrite filter_cons.
  destruct (decide (encode g = key)); simpl length; lia.
Qed.

Lemma named_nonneg (key : string) (groups : list string) : 0 ≤ named key groups.
Proof. unfold named. lia. Qed.

Lemma named_pos (key : string) (groups : list string) :
  key ∈ groups → 0 < named key groups.
Proof.
  induction groups as [|g groups IH]; [by intros ?%elem_of_nil |].
  rewrite named_cons. pose proof (named_nonneg key groups).
  intros [->|Hk]%elem_of_cons; [by rewrite decide_True; [lia |] |].
  destruct (decide (encode g = key)); [lia | auto].
Qed.

(** *** NewsShelf *)

Lemma filed_refl (a : Article) (g : Group) : filed a 0 g g.
Proof.
  split; [done.. | lia |]. intros i. by rewrite bool_decide_false by lia.
Qed.

Lemma filed_trans (a : Article) (n m : Z) (g g1 g2 : Group) :
  0 ≤ n → 0 ≤ m → filed a n g g1 → filed a m g1 g2 → filed a (n + m) g g2.
Proof.
  intros Hn Hm [H1 H2 H3 H4 H5] [K1 K2 K3 K4 K5].
  split; [congruence.. | lia |].
  intros i. rewrite K5, H5, H4.
  repeat case_bool_decide; try done; lia.
Qed.

Lemma filed_step (a : Article) (g : Group) :
  filed a 1 g (mkGroup (g_name g) (g_flags g) (minArticle g) (maxArticle g + 1)
                       (dict_set (articles g) (maxArticle g + 1) a)).
Proof.
  split; [done.. |]. intros i. simpl. case_bool_decide as Hi.
  - assert (i = maxArticle g + 1) as -> by lia. apply dict_get_set_eq.
  - apply dict_get_set_ne. lia.
Qed.

(** The groups of the shelf after the loop of [postRequest]. *)
Lemma shelf_post_loop_spec (a : Article) (groups : list string) :
  ∀ (s : shelf) (xref : list (string * string)),
    let r := fold_left (NewsShelf.post_group a) groups (s, xref) in
    ∀ key,
      match s_groups s !! key with
      | None => s_groups r.1 !! key = None
      | Some g => ∃ g', s_groups r.1 !! key = Some g' ∧ filed a (named key groups) g g'
      end.
Proof.
  induction groups as [|h groups IH]; intros s xref r key.
  - subst r. simpl. destruct (s_groups s !! key) as [g|]; [|done].
    exists g. split; [done | apply filed_refl].
  - subst r. simpl. unfold NewsShelf.post_group at 2.
    rewrite named_cons.
    destruct (s_groups s !! encode h) as [g0|] eqn:Hh.
    + specialize (IH (set_group s (encode h)
                        (mkGroup (g_name g0) (g_flags g0) (minArticle g0)
                           (maxArticle g0 + 1)
                           (dict_set (articles g0) (maxArticle g0 + 1) a)))
                     (xref ++ [(h, str (maxArticle g0 + 1))]) key).
      simpl in IH. unfold set_group in IH at 1. simpl in IH.
      destruct (decide (encode h = key)) as [<-|Hne].
      * rewrite lookup_insert_eq in IH. rewrite Hh.
        destruct IH as (g' & Hg' & Hf). exists g'. split; [done |].
        eapply filed_trans; [lia | apply named_nonneg | apply filed_step | done].
      * rewrite lookup_insert_ne in IH by done. rewrite Z.add_0_l. exact IH.
    + specialize (IH s xref key). simpl in IH.
      destruct (decide (encode h = key)) as [<-|Hne]; [|by rewrite Z.add_0_l].
      rewrite Hh in IH |- *. done.
Qed.

(** What a successful post through NewsShelf went through. *)
Lemma shelf_post_success (w : world) (cfg : mailcfg) (s s' : shelf) (message : string) :
  NewsShelf.postRequest w cfg s message = (s', Return (Posted (Succeed tt))) →
  ∃ a newsgroups s1 xref,
    parse_message w message = Return a
    ∧ getHeader a "Newsgroups" = Return newsgroups
    ∧ fold_left (NewsShelf.post_group a) (words newsgroups) (s, []) = (s1, xref)
    ∧ s_groups s' = s_groups s1.
Proof.
  unfold NewsShelf.postRequest, parse_message.
  destruct (cleave message) as [head body0].
  destruct (Article_init w head body0) as [a|]; [|done]. cbn [bind].
  destruct (getHeader a "Newsgroups") as [newsgroups|] eqn:Hn; [|done]. cbn [bind].
  destruct (match NewsShelf.getModerator s (words newsgroups) with
            | Some m => _ | None => _ end) as [[m|]|]; cbn [bind].
  - intros [= _ H]. by destruct (notifyModerators w cfg [m] a).
  - destruct (fold_left _ _ _) as [s1 xref] eqn:Hloop.
    destruct xref as [|x xref]; [done |].
    destruct (host_word w) as [host|]; [|done].
    destruct (getHeader _ "Message-ID") as [id|]; [|done].
    intros [= <-]. by exists a, newsgroups, s1, (x :: xref).
  - done.
Qed.

Lemma new_group_wf (name flags : string) : group_wf (new_group name flags).
Proof. split; [done |]. by intros i [? [=]]. Qed.

Lemma filed_wf (a : Article) (n : Z) (g g' : Group) :
  0 ≤ n → filed a n g g' → group_wf g →
  group_wf g'
  ∧ ∀ i a0, dict_get (articles g) i = Some a0 → dict_get (articles g') i = Some a0.
Proof.
  intros Hn [_ _ _ Hmax Hart] [H0 Hwf]. split; [split; [lia |] |].
  - intros i. rewrite Hart, Hmax. case_bool_decide; [lia |].
    intros Hi%Hwf. lia.
  - intros i a0 Hi. rewrite Hart. rewrite bool_decide_false; [done |].
    assert (is_Some (dict_get (articles g) i)) as ?%Hwf by eauto. lia.
Qed.

(** The group named once gets the article at its maximum plus one and
    nowhere else. *)
Lemma filed_once (a : Article) (g g' : Group) :
  filed a 1 g g' →
  maxArticle g' = maxArticle g + 1
  ∧ dict_get (articles g') (maxArticle g + 1) = Some a
  ∧ ∀ i, i ≠ maxArticle g + 1 → dict_get (articles g') i = dict_get (articles g) i.
Proof.
  intros [_ _ _ Hmax Hart]. split_and!; [done | |].
  - rewrite Hart. by rewrite bool_decide_true by lia.
  - intros i Hi. rewrite Hart. by rewrite bool_decide_false by lia.
Qed.

(** *** PickleStorage *)

Lemma max_list_le (k : Z) (ks : list Z) : k ≤ max_list k ks.
Proof.
  unfold max_list. revert k. induction ks as [|x ks IH]; intros k; simpl; [lia |].
  specialize (IH (Z.max k x)). lia.
Qed.

Lemma max_list_ge (k : Z) (ks : list Z) (x : Z) : x ∈ ks → x ≤ max_list k ks.
Proof.
  unfold max_list. revert k. induction ks as [|y ks IH]; intros k.
  - by intros ?%elem_of_nil.
  - simpl. intros [->|Hx]%elem_of_cons; [|auto].
    pose proof (max_list_le (Z.max k y) ks). unfold max_list in *. lia.
Qed.

Lemma max_list_snoc (k : Z) (ks : list Z) (n : Z) :
  max_list k (ks ++ [n]) = Z.max (max_list k ks) n.
Proof. unfold max_list. by rewrite fold_left_app. Qed.

Lemma next_index_gt (t : dict Z Article) (i : Z) :
  is_Some (dict_get t i) → i < Pickle.next_index t.
Proof.
  intros Hi. assert (i ∈ dict_keys t) as Hin.
  { destruct (decide (i ∈ dict_keys t)) as [|Hn]; [done |].
    apply dict_get_None in Hn. rewrite Hn in Hi. by destruct Hi. }
  unfold Pickle.next_index. destruct (dict_keys t) as [|k ks]; [by apply elem_of_nil in Hin |].
  apply elem_of_cons in Hin as [->|Hin].
  - pose proof (max_list_le k ks). lia.
  - pose proof (max_list_ge k ks i Hin). lia.
Qed.

Lemma next_index_fresh (t : dict Z Article) : dict_get t (Pickle.next_index t) = None.
Proof.
  destruct (dict_get t (Pickle.next_index t)) eqn:Hi; [|done].
  assert (is_Some (dict_get t (Pickle.next_index t))) as ?%next_index_gt by eauto. lia.
Qed.

Lemma next_index_set (t : dict Z Article) (a : Article) :
  Pickle.next_index (dict_set t (Pickle.next_index t) a) = Pickle.next_index t + 1.
Proof.
  rewrite dict_set_new by apply next_index_fresh.
  unfold Pickle.next_index, dict_keys. rewrite fmap_app. simpl.
  destruct (t.*1) as [|k ks]; simpl; [done |].
  rewrite max_list_snoc. lia.
Qed.

Lemma next_index_same_keys (t t' : dict Z Article) :
  dict_keys t' = dict_keys t → Pickle.next_index t' = Pickle.next_index t.
Proof. unfold Pickle.next_index. by intros ->. Qed.

Lemma pfiled_refl (a : Article) (t : dict Z Article) : pfiled a 0 t t.
Proof. split; [lia |]. intros i. by rewrite bool_decide_false by lia. Qed.

Lemma pfiled_trans (a : Article) (n m : Z) (t t1 t2 : dict Z Article) :
  0 ≤ n → 0 ≤ m → pfiled a n t t1 → pfiled a m t1 t2 → pfiled a (n + m) t t2.
Proof.
  intros Hn Hm [H1 H2] [K1 K2]. split; [lia |].
  intros i. rewrite K2, H2, H1. repeat case_bool_decide; try done; lia.
Qed.

Lemma pfiled_step (a : Article) (t : dict Z Article) :
  pfiled a 1 t (dict_set t (Pickle.next_index t) a).
Proof.
  split; [apply next_index_set |]. intros i. case_bool_decide as Hi.
  - assert (i = Pickle.next_index t) as -> by lia. apply dict_get_set_eq.
  - apply dict_get_set_ne. lia.
Qed.

Lemma pfiled_keeps (a : Article) (n : Z) (t t' : dict Z Article) (i : Z) (a0 : Article) :
  pfiled a n t t' → dict_get t i = Some a0 → dict_get t' i = Some a0.
Proof.
  intros [_ Hart] Hi. rewrite Hart, bool_decide_false; [done |].
  assert (is_Some (dict_get t i)) as ?%next_index_gt by eauto. lia.
Qed.

Lemma pfiled_once (a : Article) (t t' : dict Z Article) :
  pfiled a 1 t t' →
  Pickle.next_index t' = Pickle.next_index t + 1
  ∧ dict_get t' (Pickle.next_index t) = Some a
  ∧ ∀ i, i ≠ Pickle.next_index t → dict_get t' i = dict_get t i.
Proof.
  intros [Hnext Hart]. split_and!; [done | |].
  - rewrite Hart. by rewrite bool_decide_true by lia.
  - intros i Hi. rewrite Hart. by rewrite bool_decide_false by lia.
Qed.

Lemma db_get_table (db : pickle_db) (group : string) (t : dict Z Article) :
  db_get db group = Some (Table t) → p_tables db !! group = Some t.
Proof.
  unfold db_get. repeat case_decide; [done.. |].
  destruct (p_tables db !! group); [by intros [= ->] | done].
Qed.

Lemma db_get_None (db : pickle_db) (group : string) :
  db_get db group = None → p_tables db !! group = None.
Proof.
  unfold db_get. repeat case_decide; [done.. |]. by destruct (p_tables db !! group).
Qed.

(** The store after the loop of [postRequest], and the slots it
    filled. *)
Lemma pickle_post_loop_spec (a : Article) (groups : list string) :
  ∀ (db db' : pickle_db) (xref xref' : list (string * Z)),
    Pickle.post_loop a groups (db, xref) = (db', Return xref') →
    p_groups db' = p_groups db ∧ p_moderators db' = p_moderators db
    ∧ (∀ key,
         match p_tables db !! key with
         | None => p_tables db' !! key = None
         | Some t => ∃ t', p_tables db' !! key = Some t'
                           ∧ pfiled a (named key groups) t t'
         end)
    ∧ (∀ key i,
         (key, i) ∈ xref' ↔
         (key, i) ∈ xref
         ∨ ∃ t, p_tables db !! key = Some t
                ∧ Pickle.next_index t ≤ i < Pickle.next_index t + named key groups).
Proof.
  induction groups as [|h groups IH]; intros db db' xref xref'.
  - simpl. intros [= <- <-]. split_and!; [done.. | |].
    + intros key. destruct (p_tables db !! key) as [t|]; [|done].
      exists t. split; [done | apply pfiled_refl].
    + intros key i. split; [by left |]. intros [?|(t & _ & Hi)]; [done |].
      rewrite named_nil in Hi. lia.
  - cbn [Pickle.post_loop]. unfold Pickle.post_group.
    destruct (db_get db h) as [[l|m|t]|] eqn:Hh; [done | done | |].
    + apply db_get_table in Hh.
      intros (Hg & Hm & Htab & Hx)%IH. cbn [p_groups p_moderators set_table] in Hg, Hm.
      split_and!; [done.. | |].
      * intros key. specialize (Htab key). cbn [p_tables set_table] in Htab.
        rewrite named_cons. unfold encode.
        destruct (decide (h = key)) as [<-|Hne].
        -- rewrite lookup_insert_eq in Htab. rewrite Hh.
           destruct Htab as (t' & Ht' & Hf). exists t'. split; [done |].
           eapply pfiled_trans; [lia | apply named_nonneg | apply pfiled_step | done].
        -- rewrite lookup_insert_ne in Htab by done. by rewrite Z.add_0_l.
      * intros key i. rewrite Hx. cbn [p_tables set_table].
        rewrite named_cons. unfold encode. pose proof (named_nonneg key groups).
        rewrite elem_of_app, list_elem_of_singleton.
        destruct (decide (h = key)) as [<-|Hne].
        -- rewrite lookup_insert_eq, Hh. split.
           ++ intros [[?|[= ->]]|(t' & [= <-] & Hi)]; [by left | right..].
              ** exists t. split; [done | lia].
              ** exists t. split; [done |]. rewrite next_index_set in Hi. lia.
           ++ intros [?|(t' & [= <-] & Hi)]; [by left; left |].
              destruct (decide (i = Pickle.next_index t)) as [->|]; [by left; right |].
              right. eexists. split; [done |]. rewrite next_index_set. lia.
        -- rewrite lookup_insert_ne by done. rewrite Z.add_0_l. split.
           ++ intros [[?|[= ? _]]|?]; [by left | done | by right].
           ++ intros [?|?]; [by left; left | by right].
    + apply db_get_None in Hh.
      intros (Hg & Hm & Htab & Hx)%IH. split_and!; [done.. | |].
      * intros key. specialize (Htab key). rewrite named_cons. unfold encode.
        destruct (decide (h = key)) as [<-|Hne]; [|by rewrite Z.add_0_l].
        by rewrite Hh in Htab |- *.
      * intros key i. rewrite Hx, named_cons. unfold encode.
        destruct (decide (h = key)) as [<-|Hne]; [|by rewrite Z.add_0_l].
        rewrite Hh. split; (intros [?|(? & [=] & _)]; by left).
Qed.

(** The [putHeader] after the loop shows in the slots the loop filled
    and in no other. *)
Lemma restamp_spec (a' : Article) (xref : list (string * Z)) :
  ∀ db : pickle_db,
    (∀ x, x ∈ xref → ∃ t, p_tables db !! x.1 = Some t ∧ is_Some (dict_get t x.2)) →
    p_groups (Pickle.restamp a' db xref) = p_groups db
    ∧ p_moderators (Pickle.restamp a' db xref) = p_moderators db
    ∧ ∀ key,
        match p_tables db !! key with
        | None => p_tables (Pickle.restamp a' db xref) !! key = None
        | Some t =>
            ∃ t', p_tables (Pickle.restamp a' db xref) !! key = Some t'
                  ∧ Pickle.next_index t' = Pickle.next_index t
                  ∧ ∀ i, dict_get t' i
                         = if bool_decide ((key, i) ∈ xref) then Some a'
                           else dict_get t i
        end.
Proof.
  induction xref as [|[g j] xref IH]; intros db Hslots.
  - split_and!; [done.. |]. intros key. simpl.
    destruct (p_tables db !! key) as [t|]; [|done].
    by exists t.
  - destruct (Hslots (g, j)) as (t0 & Ht0 & Hj); [left |]. simpl in Ht0, Hj.
    unfold Pickle.restamp. cbn [fold_left fst snd]. rewrite Ht0.
    fold (Pickle.restamp a' (set_table db g (dict_set t0 j a')) xref).
    destruct (IH (set_table db g (dict_set t0 j a'))) as (Hg & Hm & Htab).
    { intros [g' j'] Hx. destruct (Hslots (g', j')) as (t & Ht & Hi); [by right |].
      simpl in *. destruct (decide (g = g')) as [<-|Hne].
      - rewrite lookup_insert_eq. eexists. split; [done |].
        assert (t = t0) as -> by congruence.
        destruct (decide (j = j')) as [<-|].
        + by rewrite dict_get_set_eq.
        + by rewrite dict_get_set_ne.
      - rewrite lookup_insert_ne by done. eauto. }
    split_and!; [done.. |]. intros key. specialize (Htab key).
    cbn [p_tables set_table] in Htab.
    destruct (decide (g = key)) as [<-|Hne].
    + rewrite lookup_insert_eq in Htab. rewrite Ht0.
      destruct Htab as (t' & Ht' & Hnext & Hart). exists t'. split_and!; [done | |].
      * rewrite Hnext. apply next_index_same_keys. rewrite dict_keys_set.
        by destruct Hj as [? ->].
      * intros i. rewrite Hart.
        destruct (decide (i = j)) as [->|Hij].
        -- rewrite dict_get_set_eq, (bool_decide_true ((g, j) ∈ (g, j) :: xref)) by left.
           by case_bool_decide.
        -- rewrite dict_get_set_ne by done.
           assert (bool_decide ((g, i) ∈ xref) = bool_decide ((g, i) ∈ (g, j) :: xref))
             as ->; [|done].
           apply bool_decide_ext. rewrite elem_of_cons. split; [by right |].
           by intros [[= ?]|?].
    + rewrite lookup_insert_ne in Htab by done.
      destruct (p_tables db !! key) as [t|]; [|done].
      destruct Htab as (t' & Ht' & Hnext & Hart). exists t'. split_and!; [done.. |].
      intros i. rewrite Hart.
      assert (bool_decide ((key, i) ∈ xref) = bool_decide ((key, i) ∈ (g, j) :: xref)) as ->; [|done].
      apply bool_decide_ext. rewrite elem_of_cons. split; [by right |].
      by intros [[= ? ?]|?].
Qed.

(** What a successful post through PickleStorage went through. *)
Lemma pickle_post_success (w : world) (cfg : mailcfg) (db db' : pickle_db) (message : string) :
  Pickle.postRequest w cfg db message = (db', Return (Posted (Succeed tt))) →
  ∃ a newsgroups host db1 xref,
    parse_message w message = Return a
    ∧ getHeader a "Newsgroups" = Return newsgroups
    ∧ Pickle.post_loop a (words newsgroups) (db, []) = (db1, Return xref)
    ∧ host_word w = Return host
    ∧ db' = Pickle.restamp (putHeader a "Xref" (host +:+ " " +:+ Pickle.xref_text xref))
                           db1 xref.
Proof.
  unfold Pickle.postRequest, parse_message.
  destruct (cleave message) as [head body0].
  destruct (Article_init w head body0) as [a|]; [|done]. cbn [bind].
  destruct (getHeader a "Newsgroups") as [newsgroups|] eqn:Hn; [|done]. cbn [bind].
  destruct (Pickle.getModerators db (words newsgroups)) as [ms|]; [|done]. cbn [bind].
  destruct (match ms with [] => _ | _ :: _ => _ end) as [[|]|]; cbn [bind].
  - intros [= _ H]. by destruct (notifyModerators w cfg ms a).
  - destruct (Pickle.post_loop _ _ _) as [db1 [xref|]] eqn:Hloop; [|done].
    destruct xref as [|x xref]; [done |].
    destruct (host_word w) as [host|] eqn:Hhost; [|done].
    intros [= <-]. by exists a, newsgroups, host, db1, (x :: xref).
  - done.
Qed.

(** One post, seen from a group: the shelf ([filed]) and the pickle
    store ([pfiled]). *)
Lemma shelf_post_files (w : world) (cfg : mailcfg) (s s' : shelf) (message : string) :
  NewsShelf.postRequest w cfg s message = (s', Return (Posted (Succeed tt))) →
  ∃ a newsgroups,
    parse_message w message = Return a
    ∧ getHeader a "Newsgroups" = Return newsgroups
    ∧ ∀ key,
        match s_groups s !! key with
        | None => s_groups s' !! key = None
        | Some g => ∃ g', s_groups s' !! key = Some g'
                          ∧ filed a (named key (words newsgroups)) g g'
        end.
Proof.
  intros (a & newsgroups & s1 & xref & Ha & Hn & Hloop & Hs)%shelf_post_success.
  exists a, newsgroups. split_and!; [done.. |]. intros key.
  pose proof (shelf_post_loop_spec a (words newsgroups) s [] key) as Hspec.
  simpl in Hspec. rewrite Hloop in Hspec. simpl in Hspec. by rewrite Hs.
Qed.

Lemma pickle_post_files (w : world) (cfg : mailcfg) (db db' : pickle_db) (message : string) :
  Pickle.postRequest w cfg db message = (db', Return (Posted (Succeed tt))) →
  ∃ a newsgroups value,
    parse_message w message = Return a
    ∧ getHeader a "Newsgroups" = Return newsgroups
    ∧ ∀ key,
        match p_tables db !! key with
        | None => p_tables db' !! key = None
        | Some t => ∃ t', p_tables db' !! key = Some t'
                          ∧ pfiled (putHeader a "Xref" value)
                                   (named key (words newsgroups)) t t'
        end.
Proof.
  intros (a & newsgroups & host & db1 & xref & Ha & Hn & Hloop & Hhost & ->)%pickle_post_success.
  exists a, newsgroups, (host +:+ " " +:+ Pickle.xref_text xref).
  split_and!; [done.. |].
  apply pickle_post_loop_spec in Hloop as (_ & _ & Htab & Hx).
  destruct (restamp_spec (putHeader a "Xref" (host +:+ " " +:+ Pickle.xref_text xref))
              xref db1) as (_ & _ & Hre).
  { intros [g j] [Hin|(t & Ht & Hj)]%Hx; [by apply elem_of_nil in Hin |].
    specialize (Htab g). rewrite Ht in Htab. destruct Htab as (t' & Ht' & [_ Hart]).
    exists t'. split; [done |]. simpl. rewrite Hart. by rewrite bool_decide_true. }
  intros key. specialize (Htab key). specialize (Hre key).
  destruct (p_tables db !! key) as [t|] eqn:Ht.
  - destruct Htab as (t1 & Ht1 & [Hnext Hart]). rewrite Ht1 in Hre.
    destruct Hre as (t' & Ht' & Hnext' & Hart'). exists t'. split; [done |].
    split; [congruence |]. intros i. rewrite Hart', Hart.
    assert (bool_decide ((key, i) ∈ xref)
            = bool_decide (Pickle.next_index t ≤ i
                           < Pickle.next_index t + named key (words newsgroups))) as ->.
    { apply bool_decide_ext. rewrite Hx. split.
      - intros [Hin|(t0 & Ht0 & ?)]; [by apply elem_of_nil in Hin |].
        rewrite Ht in Ht0. by injection Ht0 as <-.
      - intros. right. eauto. }
    by case_bool_decide.
  - by rewrite Htab in Hre.
Qed.

(** C3, as stated, fails: a post whose Newsgroups header names a group
    twice is filed twice in it, and the maximum index of the group moves
    up by 2 in the one post, on the shelf and in the pickle store. *)
Lemma post_naming_group_twice :
  NewsShelf.groupRequest shelf_plain "alt.test" = Succeed ("alt.test", 0, 0, 1, "y")
  ∧ (∃ s', NewsShelf.postRequest example_world example_cfg shelf_plain message_twice
           = (s', Return (Posted (Succeed tt)))
           ∧ NewsShelf.groupRequest s' "alt.test" = Succeed ("alt.test", 2, 2, 1, "y"))
  ∧ Pickle.groupRequest pickle_moderated "mod.a"
    = Return (Succeed ("mod.a", 0, Pickle.IntB 0, Pickle.IntB 0, "y"))
  ∧ (∃ db', Pickle.postRequest example_world example_cfg pickle_moderated
              message_approved_twice
            = (db', Return (Posted (Succeed tt)))
            ∧ Pickle.groupRequest db' "mod.a"
              = Return (Succeed ("mod.a", 2, Pickle.IntB 2, Pickle.IntB 1, "y"))).
Proof. split_and!; [done | by eexists | done | by eexists]. Qed.

(** C3, amended: in a successful post every group gets the article
    once for each time the Newsgroups header names it, under its
    previous maximum index plus 1, plus 2, and so on (from 1 in an empty
    table of PickleStorage, from [maxArticle + 1] on NewsShelf), so that
    its maximum moves up by the number of times it is named - by exactly
    1 when it is named once, by 0 when it is not named - whatever happens
    to the other groups; no index in use is assigned again. *)
Theorem post_files_after_maximum (w : world) (cfg : mailcfg) (message : string)
    (s s' : shelf) (db db' : pickle_db) :
  (NewsShelf.postRequest w cfg s message = (s', Return (Posted (Succeed tt))) →
   shelf_files w message s s')
  ∧ (Pickle.postRequest w cfg db message = (db', Return (Posted (Succeed tt))) →
     pickle_files w message db db').
Proof.
  split.
  - intros (a & newsgroups & Ha & Hn & Htab)%shelf_post_files.
    exists a, newsgroups. split_and!; [done.. |]. intros key g Hg.
    specialize (Htab key). rewrite Hg in Htab. destruct Htab as (g' & Hg' & Hf).
    exists g'. split_and!; [done.. |].
    intros Hwf. eapply filed_wf; [apply named_nonneg | done..].
  - intros (a & newsgroups & value & Ha & Hn & Htab)%pickle_post_files.
    exists a, newsgroups, value. split_and!; [done.. |]. intros key t Ht.
    specialize (Htab key). rewrite Ht in Htab. destruct Htab as (t' & Ht' & Hf).
    exists t'. split_and!; [done.. |]. intros i a0. by eapply pfiled_keeps.
Qed.

Lemma post_files_after_maximum_witness :
  (NewsShelf.postRequest example_world example_cfg shelf_plain message_plain
   = (shelf_after_post, Return (Posted (Succeed tt)))
   ∧ Pickle.postRequest example_world example_cfg pickle_moderated message_approved
     = (pickle_after_post, Return (Posted (Succeed tt))))
  ∧ shelf_files example_world message_plain shelf_plain shelf_after_post
  ∧ pickle_files example_world message_approved pickle_moderated pickle_after_post.
Proof.
  split; [split; reflexivity |].
  destruct (post_files_after_maximum example_world example_cfg message_plain
              shelf_plain shelf_after_post pickle_plain pickle_plain) as [Hs _].
  destruct (post_files_after_maximum example_world example_cfg message_approved
              shelf_plain shelf_plain pickle_moderated pickle_after_post) as [_ Hp].
  exact (conj (Hs eq_refl) (Hp eq_refl)).
Defined.


(** * Further properties *)

(** ** The parser *)

Lemma parse_line_keys hs header line hs' header' :
  parse_line (hs, header) line = Return (hs', header') →
  keys_folded hs → keys_folded hs'.
Proof.
  intros Hp [Hnd Hall]. unfold parse_line in Hp.
  destruct (is_continuation line).
  - destruct header as [h|]; [|done].
    destruct (dict_get hs h) as [[n|n v]|] eqn:Hh; [done | | done].
    injection Hp as <- <-. split; [by apply NoDup_dict_set |].
    apply Forall_dict_set; [done |].
    apply (dict_get_Forall _ _ _ _ Hall Hh).
  - injection Hp as <- <-. split; [by apply NoDup_dict_set |].
    by apply Forall_dict_set.
Qed.

Lemma parse_lines_keys lines st st' :
  foldM parse_line lines st = Return st' → keys_folded st.1 → keys_folded st'.1.
Proof.
  revert st. induction lines as [|line lines IH]; intros st Hf Hok; simpl in Hf.
  - by injection Hf as <-.
  - destruct st as [hs header].
    destruct (parse_line (hs, header) line) as [[hs1 header1]|] eqn:Hp; [|done].
    apply (IH _ Hf). by eapply parse_line_keys.
Qed.

Lemma default_header_keys (a a' : Article) (h val : string) :
  default_header a h val = Return a' →
  keys_folded (headers a) → keys_folded (headers a').
Proof.
  unfold default_header. destruct (getHeader a h) as [v|]; [|done]. simpl.
  destruct (decide (v = "")); intros [= <-] [Hnd Hall]; [|done].
  split; [by apply NoDup_dict_set | by apply Forall_dict_set].
Qed.

(** X1: whatever the header block is, an article that
    [Article.__init__] returns holds every header once, under the lower
    case of the name it prints. *)
Theorem Article_init_keys (w : world) (block body0 : string) (a : Article) :
  Article_init w block body0 = Return a → keys_folded (headers a).
Proof.
  intros (hs & header & a1 & a2 & a3 & H0 & H1 & H2 & H3 & H4)%Article_init_steps.
  eapply default_header_keys; [exact H4 |].
  eapply default_header_keys; [exact H3 |].
  eapply default_header_keys; [exact H2 |].
  eapply default_header_keys; [exact H1 |]. simpl.
  apply (parse_lines_keys _ _ _ H0). split; [apply NoDup_nil_2 | constructor].
Qed.

Lemma Article_init_keys_witness :
  Article_init example_world "Newsgroups: alt.test" example_body = Return example_article
  ∧ keys_folded (headers example_article).
Proof.
  split; [reflexivity |].
  apply (Article_init_keys example_world "Newsgroups: alt.test" example_body). reflexivity.
Defined.

Lemma getHeader_lower (a : Article) (h h' : string) :
  lower h = lower h' → getHeader a h = getHeader a h'.
Proof. unfold getHeader. by intros ->. Qed.

Lemma default_header_keeps (a a' : Article) (h val h' v : string) :
  default_header a h val = Return a' →
  getHeader a h' = Return v → v ≠ "" → getHeader a' h' = Return v.
Proof.
  intros Hd Hv Hne. destruct (decide (lower h = lower h')) as [Heq|Hneq].
  - rewrite <- (getHeader_lower a h h' Heq) in Hv.
    by rewrite (default_header_present a h v val Hv Hne) in Hd; injection Hd as <-;
      rewrite <- (getHeader_lower a h h' Heq).
  - by rewrite (default_header_other a a' h h' val Hd Hneq).
Qed.

Lemma defaulted_other (h : string) :
  ¬ defaulted h →
  lower "Message-ID" ≠ lower h ∧ lower "Bytes" ≠ lower h
  ∧ lower "Lines" ≠ lower h ∧ lower "Date" ≠ lower h.
Proof.
  unfold defaulted. intros Hn.
  split_and!; intros Heq; apply Hn; rewrite <- Heq; set_solver.
Qed.

(** X2: [Article.__init__] changes no header the block gives a value
    to, and no header at all besides Message-ID, Bytes, Lines and Date;
    the body is the one it was given. *)
Theorem Article_init_keeps_values (w : world) (block body0 : string) (a : Article) :
  Article_init w block body0 = Return a →
  ∃ hs header,
    parse_headers block = Return (hs, header)
    ∧ body a = body0
    ∧ (∀ h v, getHeader (mkArticle body0 hs) h = Return v → v ≠ "" →
              getHeader a h = Return v)
    ∧ (∀ h, ¬ defaulted h → getHeader a h = getHeader (mkArticle body0 hs) h).
Proof.
  intros Ha. pose proof (Article_init_body _ _ _ _ Ha) as Hb.
  apply Article_init_steps in Ha as (hs & header & a1 & a2 & a3 & H0 & H1 & H2 & H3 & H4).
  exists hs, header. split_and!; [done.. | |].
  - intros h v Hv Hne.
    eapply default_header_keeps; [exact H4 | | done].
    eapply default_header_keeps; [exact H3 | | done].
    eapply default_header_keeps; [exact H2 | | done].
    by eapply default_header_keeps; [exact H1 | |].
  - intros h (Hm & Hby & Hl & Hd)%defaulted_other.
    rewrite (default_header_other _ _ _ h _ H4 Hd).
    rewrite (default_header_other _ _ _ h _ H3 Hl).
    rewrite (default_header_other _ _ _ h _ H2 Hby).
    by rewrite (default_header_other _ _ _ h _ H1 Hm).
Qed.

Lemma Article_init_keeps_values_witness :
  Article_init example_world "Newsgroups: alt.test" example_body = Return example_article
  ∧ ∃ hs header,
      parse_headers "Newsgroups: alt.test" = Return (hs, header)
      ∧ body example_article = example_body
      ∧ (∀ h v, getHeader (mkArticle example_body hs) h = Return v → v ≠ "" →
                getHeader example_article h = Return v)
      ∧ (∀ h, ¬ defaulted h →
              getHeader example_article h = getHeader (mkArticle example_body hs) h).
Proof.
  split; [reflexivity |].
  apply (Article_init_keeps_values example_world "Newsgroups: alt.test" example_body).
  reflexivity.
Defined.

(** X3: a header among Message-ID, Bytes, Lines and Date that the
    block leaves out, or leaves empty, gets its default: the id made of
    the digest and the host name, the length of the body, the number of
    its line feeds, the printed time. *)
Theorem Article_init_defaults (w : world) (block body0 : string) (a : Article) :
  Article_init w block body0 = Return a →
  ∃ hs header,
    parse_headers block = Return (hs, header)
    ∧ (getHeader (mkArticle body0 hs) "Message-ID" = Return "" →
       getHeader a "Message-ID" = Return (new_message_id w body0))
    ∧ (getHeader (mkArticle body0 hs) "Bytes" = Return "" →
       getHeader a "Bytes" = Return (str (len body0)))
    ∧ (getHeader (mkArticle body0 hs) "Lines" = Return "" →
       getHeader a "Lines" = Return (str (count_char LF body0)))
    ∧ (getHeader (mkArticle body0 hs) "Date" = Return "" →
       getHeader a "Date" = Return (ctime_str w)).
Proof.
  intros (hs & header & a1 & a2 & a3 & H0 & H1 & H2 & H3 & H4)%Article_init_steps.
  exists hs, header. split_and!; [done | | | |].
  - intros Hv.
    rewrite (default_header_other _ _ _ "Message-ID" _ H4) by done.
    rewrite (default_header_other _ _ _ "Message-ID" _ H3) by done.
    rewrite (default_header_other _ _ _ "Message-ID" _ H2) by done.
    by apply (default_header_absent _ _ _ _ H1).
  - intros Hv.
    rewrite (default_header_other _ _ _ "Bytes" _ H4) by done.
    rewrite (default_header_other _ _ _ "Bytes" _ H3) by done.
    apply (default_header_absent _ _ _ _ H2).
    by rewrite (default_header_other _ _ _ "Bytes" _ H1).
  - intros Hv.
    rewrite (default_header_other _ _ _ "Lines" _ H4) by done.
    apply (default_header_absent _ _ _ _ H3).
    rewrite (default_header_other _ _ _ "Lines" _ H2) by done.
    by rewrite (default_header_other _ _ _ "Lines" _ H1).
  - intros Hv. apply (default_header_absent _ _ _ _ H4).
    rewrite (default_header_other _ _ _ "Date" _ H3) by done.
    rewrite (default_header_other _ _ _ "Date" _ H2) by done.
    by rewrite (default_header_other _ _ _ "Date" _ H1).
Qed.

Lemma Article_init_defaults_witness :
  Article_init example_world "Newsgroups: alt.test" example_body = Return example_article
  ∧ getHeader example_article "Bytes" = Return (str (len example_body))
  ∧ getHeader example_article "Lines" = Return (str (count_char LF example_body)).
Proof.
  split; [reflexivity |].
  destruct (Article_init_defaults example_world "Newsgroups: alt.test" example_body
              example_article eq_refl) as (hs & header & Hp & _ & Hb & Hl & _).
  injection Hp as <- <-. split; [exact (Hb eq_refl) | exact (Hl eq_refl)].
Defined.

(** X4: a header block whose first line is empty or starts with a
    space or a tab is refused with [KeyError]: the line is read as the
    continuation of a header, and there is none yet. *)
Theorem Article_init_continuation_first (w : world) (block body0 line : string)
    (lines : list string) :
  split_crlf block = line :: lines → is_continuation line = true →
  Article_init w block body0 = Raise KeyError.
Proof.
  intros Hs Hc. unfold Article_init. rewrite Hs. simpl. by rewrite Hc.
Qed.

Lemma Article_init_continuation_first_witness :
  split_crlf (" folded" +:+ CRLF +:+ "Subject: x") = [" folded"; "Subject: x"]
  ∧ is_continuation " folded" = true
  ∧ Article_init example_world (" folded" +:+ CRLF +:+ "Subject: x") example_body
    = Raise KeyError.
Proof.
  split; [reflexivity |]. split; [reflexivity |].
  apply (Article_init_continuation_first example_world _ example_body
           " folded" ["Subject: x"]); reflexivity.
Defined.

Lemma dict_set_set {K V : Type} `{EqDecision K} (d : dict K V) (k : K) (v v' : V) :
  dict_set (dict_set d k v) k v' = dict_set d k v'.
Proof.
  induction d as [|[k' v''] d IH]; simpl.
  - by rewrite decide_True.
  - destruct (decide (k = k')) as [->|Hne]; simpl.
    + by rewrite decide_True.
    + by rewrite decide_False, IH.
Qed.

Lemma parse_more_continuations (hs : dict string htuple) (k n : string) (conts : list string) :
  Forall (fun c => is_continuation c = true) conts →
  ∀ cur,
    foldM parse_line conts (dict_set hs k (T2 n cur), Some k)
    = Return (dict_set hs k (T2 n (fold_left (fun acc c => acc +:+ CRLF +:+ c) conts cur)),
              Some k).
Proof.
  induction 1 as [|c conts Hc _ IH]; intros cur; [done |].
  simpl. rewrite Hc, dict_get_set_eq. simpl.
  by rewrite dict_set_set, IH.
Qed.

(** X5: a header line followed by continuation lines gives one
    header whose value is the text after the first [": "] and the
    continuation lines as they are, joined by line breaks; it takes the
    place of an earlier header of the same name, in any case of
    letters. *)
Theorem parse_folded_header (hs : dict string htuple) (header : option string)
    (line n v0 : string) (conts : list string) :
  is_continuation line = false →
  split_colon line = T2 n v0 →
  Forall (fun c => is_continuation c = true) conts →
  foldM parse_line (line :: conts) (hs, header)
  = Return (dict_set hs (lower n) (T2 n (join CRLF (v0 :: conts))), Some (lower n)).
Proof.
  intros Hc Hs Hconts. cbn [foldM]. unfold parse_line at 1. rewrite Hc, Hs.
  cbn [tuple_name bind]. rewrite parse_more_continuations by done.
  by rewrite join_fold.
Qed.

Lemma parse_folded_header_witness :
  is_continuation "Subject: a long" = false
  ∧ split_colon "Subject: a long" = T2 "Subject" "a long"
  ∧ Forall (fun c => is_continuation c = true) [" subject"; String TAB "line"]
  ∧ foldM parse_line ["Subject: a long"; " subject"; String TAB "line"]
          ([("subject", T2 "SUBJECT" "old")], None)
    = Return ([("subject",
                T2 "Subject" (join CRLF ["a long"; " subject"; String TAB "line"]))],
              Some "subject").
Proof.
  split; [reflexivity |]. split; [reflexivity |]. split; [by repeat constructor |].
  apply (parse_folded_header [("subject", T2 "SUBJECT" "old")] None
           "Subject: a long" "Subject" "a long" [" subject"; String TAB "line"]);
    [reflexivity | reflexivity | by repeat constructor].
Defined.

(** ** Printing *)

Lemma mapM_Return {A B} (f : A → res B) (g : A → B) (l : list A) :
  (∀ x, x ∈ l → f x = Return (g x)) → mapM f l = Return (map g l).
Proof.
  induction l as [|x l IH]; intros Hf; simpl; [done |].
  rewrite Hf by left. simpl. rewrite IH; [done |]. intros y Hy. apply Hf. by right.
Qed.

Lemma dict_get_value {K V : Type} `{EqDecision K} (d : dict K V) (k : K) (v : V) :
  dict_get d k = Some v → v ∈ dict_values d.
Proof.
  intros Hk%dict_get_Some_elem. unfold dict_values.
  apply list_elem_of_fmap. by exists (k, v).
Qed.

Lemma getHeader_printable (a : Article) (h : string) :
  Forall is_T2 (dict_values (headers a)) →
  getHeader a h = Return (header_value a h).
Proof.
  intros Hall. unfold getHeader, header_value.
  destruct (dict_get (headers a) (lower h)) as [[n|n v]|] eqn:Hh; [|done..].
  apply dict_get_value in Hh.
  rewrite Forall_forall in Hall. by apply Hall in Hh.
Qed.

Lemma textHeaders_printable (a : Article) (t : string) :
  textHeaders a = Return t → Forall is_T2 (dict_values (headers a)).
Proof.
  unfold textHeaders.
  destruct (mapM format_header (dict_values (headers a))) as [lines|] eqn:Hl; [|done].
  intros _. by apply mapM_format_header in Hl as [? _].
Qed.

(** X6: for an article whose headers can be printed, [overview] does
    not raise and returns eight columns, the values of Subject, From,
    Date, Message-ID, References, Bytes, Lines and Xref in this order,
    with the empty string for a header the article does not have. *)
Theorem overview_printable (a : Article) (t : string) :
  textHeaders a = Return t →
  overview a = Return (map (header_value a) OVERVIEW_FMT)
  ∧ length (map (header_value a) OVERVIEW_FMT) = 8%nat.
Proof.
  intros Ht%textHeaders_printable. split; [|done].
  apply mapM_Return. intros h _. by apply getHeader_printable.
Qed.

Lemma overview_printable_witness :
  (∃ t, textHeaders example_article = Return t)
  ∧ overview example_article
    = Return [""; ""; "Tue Nov 14 22:13:20 2023";
              "<0cc175b9c0f1b6a831c399e269772661@news.example.org>"; ""; "11"; "1"; ""].
Proof.
  split; [by eexists |].
  destruct (overview_printable example_article _ eq_refl) as [Ho _]. exact Ho.
Defined.

Lemma mapM_format_printable (l : list htuple) :
  Forall is_T2 l → mapM format_header l = Return (map header_line l).
Proof.
  intros Hl. apply mapM_Return. intros t Ht.
  eapply Forall_forall in Hl; [|done]. by destruct t.
Qed.

Lemma join_snoc (sep x : string) (l : list string) :
  l ≠ [] → join sep (l ++ [x]) = join sep l +:+ sep +:+ x.
Proof.
  induction l as [|y l IH]; [done |]. intros _.
  destruct l as [|z l]; [done |].
  change ((y :: z :: l) ++ [x]) with (y :: ((z :: l) ++ [x])).
  rewrite (join_cons sep y ((z :: l) ++ [x])) by done.
  rewrite IH by done. rewrite (join_cons sep y (z :: l)) by done.
  by rewrite !sapp_assoc.
Qed.

(** X7: a header put on an article that has headers but not this
    one is printed last, after the headers the article had, which stay
    as they were. *)
Theorem textHeaders_putHeader_new (a : Article) (t h v : string) :
  textHeaders a = Return t →
  headers a ≠ [] →
  dict_get (headers a) (lower h) = None →
  textHeaders (putHeader a h v) = Return (t +:+ (h +:+ ": " +:+ v) +:+ CRLF).
Proof.
  intros Ht Hne Hh. pose proof (textHeaders_printable a t Ht) as Hall.
  unfold textHeaders in *. unfold putHeader. cbn [headers].
  rewrite dict_set_new by done. unfold dict_values in *. rewrite fmap_app.
  rewrite mapM_format_printable in Ht by done. injection Ht as <-.
  rewrite mapM_format_printable.
  2:{ apply Forall_app. split; [done | by repeat constructor]. }
  cbn [bind]. rewrite map_app. cbn [map fmap list_fmap header_line snd].
  rewrite join_snoc.
  - by rewrite !sapp_assoc.
  - by destruct (headers a).
Qed.

Lemma textHeaders_putHeader_new_witness :
  (∃ t, textHeaders example_article = Return t
        ∧ textHeaders (putHeader example_article "Xref" "news.example.org alt.test:1")
          = Return (t +:+ "Xref: news.example.org alt.test:1" +:+ CRLF))
  ∧ headers example_article ≠ []
  ∧ dict_get (headers example_article) (lower "Xref") = None.
Proof.
  split; [|by split].
  eexists. split; [reflexivity |].
  apply (textHeaders_putHeader_new example_article _ "Xref" "news.example.org alt.test:1");
    [reflexivity | done | reflexivity].
Defined.

(** ** Messages without a blank line *)

(** X8: a message in which [find] sees no blank line is still cut, at
    the position -1 that [find] returns: the header block is the message
    without its last character and the body is the message from its
    fourth character on. *)
Theorem cleave_without_blank (message s : string) (c : ascii) :
  message = s +:+ String c "" →
  find BLANK message = -1 →
  cleave message = (s, drop_str 3 message).
Proof.
  intros -> Hf. unfold cleave. fold BLANK. rewrite Hf.
  unfold slice_to, slice_from, slice_bound, len.
  change (-1 <? 0) with true. change (-1 + 4 <? 0) with false. cbn iota.
  rewrite length_sapp. simpl String.length.
  replace (Z.to_nat (Z.max 0 (Z.of_nat (String.length s + 1) + -1)))
    with (String.length s) by lia.
  by rewrite take_str_app.
Qed.

Lemma cleave_without_blank_witness :
  "Subject: x" = "Subject: " +:+ String "x" ""
  ∧ find BLANK "Subject: x" = -1
  ∧ cleave "Subject: x" = ("Subject: ", "ject: x").
Proof.
  split; [reflexivity |]. split; [reflexivity |].
  apply (cleave_without_blank "Subject: x" "Subject: " "x"); reflexivity.
Defined.

(** ** Posting, then reading *)

Lemma Article_init_message_id (w : world) (head body0 : string) (a : Article) :
  Article_init w head body0 = Return a → nonempty_header a "Message-ID".
Proof.
  intros (hs & header & a1 & a2 & a3 & _ & H1 & H2 & H3 & H4)%Article_init_steps.
  unfold nonempty_header.
  rewrite (default_header_other _ _ _ "Message-ID" _ H4) by done.
  rewrite (default_header_other _ _ _ "Message-ID" _ H3) by done.
  rewrite (default_header_other _ _ _ "Message-ID" _ H2) by done.
  eapply default_header_get; [done | apply new_message_id_nonempty].
Qed.

Lemma parse_message_body (w : world) (message : string) (a : Article) :
  parse_message w message = Return a →
  body a = (cleave message).2 ∧ nonempty_header a "Message-ID".
Proof.
  unfold parse_message. destruct (cleave message) as [head body0]. intros Ha.
  split; [by eapply Article_init_body | by eapply Article_init_message_id].
Qed.

(** The loop of [PickleStorage.postRequest] gets past no group called
    ['groups'] or ['moderators']. *)
Lemma pickle_post_loop_targets (a : Article) (groups : list string) :
  ∀ st db' xref',
    Pickle.post_loop a groups st = (db', Return xref') →
    ∀ g, g ∈ groups → g ≠ "groups" ∧ g ≠ "moderators".
Proof.
  induction groups as [|h groups IH]; intros st db' xref' Hl g Hg;
    [by apply elem_of_nil in Hg |].
  cbn [Pickle.post_loop] in Hl.
  destruct (Pickle.post_group a st h) as [st'|e] eqn:Hp; [|done].
  apply elem_of_cons in Hg as [->|Hg]; [|by eapply IH].
  destruct st as [db xref]. unfold Pickle.post_group, db_get in Hp.
  by repeat case_decide.
Qed.

Lemma db_get_plain (db : pickle_db) (key : string) (t : dict Z Article) :
  key ≠ "groups" → key ≠ "moderators" → p_tables db !! key = Some t →
  db_get db key = Some (Table t).
Proof.
  intros Hg Hm Ht. unfold db_get. rewrite decide_False, decide_False by done.
  by rewrite Ht.
Qed.

(** X9: after a successful post through PickleStorage, every group
    the Newsgroups header names and the store carries serves the posted
    body under the first index after the ones the group had, together
    with the Message-ID of the article. *)
Theorem pickle_post_then_body (w : world) (cfg : mailcfg) (db db' : pickle_db)
    (message newsgroups key : string) (a : Article) (t : dict Z Article) :
  Pickle.postRequest w cfg db message = (db', Return (Posted (Succeed tt))) →
  parse_message w message = Return a →
  getHeader a "Newsgroups" = Return newsgroups →
  key ∈ words newsgroups →
  p_tables db !! key = Some t →
  ∃ id, getHeader a "Message-ID" = Return id ∧ id ≠ ""
        ∧ Pickle.bodyRequest db' key (Pickle.next_index t)
          = Return (Succeed (Pickle.next_index t, id, (cleave message).2)).
Proof.
  intros Hpost Ha Hn Hkey Ht.
  destruct (parse_message_body w message a Ha) as [Hbody (id & Hid & Hne)].
  exists id. split_and!; [done.. |].
  pose proof Hpost as (a0 & ng0 & host & db1 & xref & Ha0 & Hn0 & Hloop & _ & _)%pickle_post_success.
  rewrite Ha in Ha0. injection Ha0 as <-. rewrite Hn in Hn0. injection Hn0 as <-.
  destruct (pickle_post_loop_targets _ _ _ _ _ Hloop key Hkey) as [Hg Hm].
  apply pickle_post_files in Hpost as (a0 & ng0 & value & Ha0 & Hn0 & Htab).
  rewrite Ha in Ha0. injection Ha0 as <-. rewrite Hn in Hn0. injection Hn0 as <-.
  specialize (Htab key). rewrite Ht in Htab. destruct Htab as (t' & Ht' & [_ Hart]).
  unfold Pickle.bodyRequest, Pickle.lookup_article.
  rewrite (db_get_plain db' key t') by done.
  rewrite Hart, bool_decide_true.
  2:{ pose proof (named_pos key (words newsgroups) Hkey). lia. }
  rewrite getHeader_putHeader_ne by done. rewrite Hid. cbn [bind].
  by rewrite <- Hbody.
Qed.

Lemma pickle_post_then_body_witness :
  Pickle.postRequest example_world example_cfg pickle_moderated message_approved
  = (pickle_after_post, Return (Posted (Succeed tt)))
  ∧ Pickle.bodyRequest pickle_after_post "mod.b" 1
    = Return (Succeed (1, "<0cc175b9c0f1b6a831c399e269772661@news.example.org>", "body")).
Proof.
  split; [reflexivity |].
  destruct (pickle_post_then_body example_world example_cfg pickle_moderated
              pickle_after_post message_approved "mod.a mod.b" "mod.b"
              article_approved [])
    as (id & Hid & _ & Hb); [reflexivity | reflexivity | reflexivity | | reflexivity |].
  - apply elem_of_cons. right. apply elem_of_cons. by left.
  - injection Hid as <-. exact Hb.
Defined.




(** X10: after a successful post through NewsShelf, every group the
    Newsgroups header names and the shelf carries serves the article
    under its previous maximum plus one: [bodyRequest] gives the posted
    body, [articleRequest] the headers as they were parsed - without the
    Xref header, which is put on the article after the shelf has stored
    it - an empty line and the body. *)
Theorem shelf_post_then_article (w : world) (cfg : mailcfg) (s s' : shelf)
    (message newsgroups key : string) (a : Article) (g : Group) :
  NewsShelf.postRequest w cfg s message = (s', Return (Posted (Succeed tt))) →
  parse_message w message = Return a →
  getHeader a "Newsgroups" = Return newsgroups →
  key ∈ words newsgroups →
  s_groups s !! encode key = Some g →
  ∃ id, getHeader a "Message-ID" = Return id ∧ id ≠ ""
        ∧ NewsShelf.bodyRequest s' key (maxArticle g + 1)
          = Return (Succeed (maxArticle g + 1, id, (cleave message).2))
        ∧ NewsShelf.articleRequest s' key (maxArticle g + 1) None
          = (let! text := article_text a in
             Return (Succeed (maxArticle g + 1, id, text))).
Proof.
  intros Hpost Ha Hn Hkey Hg.
  destruct (parse_message_body w message a Ha) as [Hbody (id & Hid & Hne)].
  exists id. split_and!; [done.. | |].
  all: apply shelf_post_files in Hpost as (a0 & ng0 & Ha0 & Hn0 & Htab).
  all: rewrite Ha in Ha0; injection Ha0 as <-; rewrite Hn in Hn0; injection Hn0 as <-.
  all: specialize (Htab (encode key)); rewrite Hg in Htab.
  all: destruct Htab as (g' & Hg' & [_ _ _ _ Hart]).
  all: pose proof (named_pos (encode key) (words newsgroups) Hkey) as Hpos.
  - unfold NewsShelf.bodyRequest, NewsShelf.lookup_article.
    rewrite Hg', Hart, bool_decide_true by lia.
    rewrite Hid. cbn [bind]. by rewrite Hbody.
  - unfold NewsShelf.articleRequest, NewsShelf.lookup_article, article_text.
    rewrite Hg', Hart, bool_decide_true by lia.
    rewrite Hid. cbn [bind]. by destruct (textHeaders a).
Qed.

Lemma shelf_post_then_article_witness :
  NewsShelf.postRequest example_world example_cfg shelf_plain message_plain
  = (shelf_after_post, Return (Posted (Succeed tt)))
  ∧ NewsShelf.bodyRequest shelf_after_post "alt.test" 1
    = Return (Succeed (1, "<0cc175b9c0f1b6a831c399e269772661@news.example.org>",
                       example_body))
  ∧ NewsShelf.headRequest shelf_after_post "alt.test" 1
    = Return (Succeed (1, "<0cc175b9c0f1b6a831c399e269772661@news.example.org>",
                       "Newsgroups: alt.test" +:+ CRLF
                       +:+ "Message-ID: <0cc175b9c0f1b6a831c399e269772661@news.example.org>"
                       +:+ CRLF +:+ "Bytes: 11" +:+ CRLF +:+ "Lines: 1" +:+ CRLF
                       +:+ "Date: Tue Nov 14 22:13:20 2023" +:+ CRLF)).
Proof.
  split; [reflexivity |].
  destruct (shelf_post_then_article example_world example_cfg shelf_plain
              shelf_after_post message_plain "alt.test" "alt.test" example_article
              (new_group "alt.test" "y"))
    as (id & Hid & _ & Hb & _); [reflexivity | reflexivity | reflexivity | | reflexivity |].
  - apply elem_of_cons. by left.
  - injection Hid as <-. split; [exact Hb | reflexivity].
Defined.



(** ** What a post leaves alone *)

(** The loop of [PickleStorage.postRequest], also when it raises. *)
Lemma pickle_post_loop_any (a : Article) (groups : list string) :
  ∀ (db db' : pickle_db) (xref : list (string * Z)) (r : res (list (string * Z))),
    Pickle.post_loop a groups (db, xref) = (db', r) →
    p_groups db' = p_groups db ∧ p_moderators db' = p_moderators db
    ∧ ∀ key,
        match p_tables db !! key with
        | None => p_tables db' !! key = None
        | Some t => ∃ t' n, p_tables db' !! key = Some t' ∧ 0 ≤ n ∧ pfiled a n t t'
        end.
Proof.
  assert (∀ db : pickle_db, ∀ key,
            match p_tables db !! key with
            | None => p_tables db !! key = None
            | Some t => ∃ t' n, p_tables db !! key = Some t' ∧ 0 ≤ n ∧ pfiled a n t t'
            end) as Hrefl.
  { intros db key. destruct (p_tables db !! key) as [t|]; [|done].
    exists t, 0. split_and!; [done | lia | apply pfiled_refl]. }
  induction groups as [|h groups IH]; intros db db' xref r.
  - simpl. intros [= <- <-]. split_and!; [done.. | apply Hrefl].
  - cbn [Pickle.post_loop]. unfold Pickle.post_group.
    destruct (db_get db h) as [[l|m|t]|] eqn:Hh.
    + intros [= <- <-]. split_and!; [done.. | apply Hrefl].
    + intros [= <- <-]. split_and!; [done.. | apply Hrefl].
    + apply db_get_table in Hh.
      intros (Hg & Hm & Htab)%IH. cbn [p_groups p_moderators set_table] in Hg, Hm.
      split_and!; [done.. |]. intros key. specialize (Htab key).
      cbn [p_tables set_table] in Htab.
      destruct (decide (h = key)) as [<-|Hne].
      * rewrite lookup_insert_eq in Htab. rewrite Hh.
        destruct Htab as (t' & n & Ht' & Hn & Hf). exists t', (1 + n).
        split_and!; [done | lia |].
        eapply pfiled_trans; [lia | done | apply pfiled_step | done].
      * by rewrite lookup_insert_ne in Htab.
    + by intros ?%IH.
Qed.

Lemma pickle_keeps_refl (db : pickle_db) : pickle_keeps db db.
Proof.
  split_and!; [done.. |]. intros key. destruct (p_tables db !! key) as [t|]; [|done].
  by exists t.
Qed.

Lemma pickle_post_loop_keeps (a : Article) (groups : list string) (db db' : pickle_db)
    (xref : list (string * Z)) (r : res (list (string * Z))) :
  Pickle.post_loop a groups (db, xref) = (db', r) → pickle_keeps db db'.
Proof.
  intros (Hg & Hm & Htab)%pickle_post_loop_any. split_and!; [done.. |].
  intros key. specialize (Htab key). destruct (p_tables db !! key) as [t|]; [|done].
  destruct Htab as (t' & n & Ht' & _ & Hf). exists t'. split; [done |].
  intros i a0. by eapply pfiled_keeps.
Qed.

(** X12: whatever a post through PickleStorage ends in - filed,
    mailed to the moderators, failed, or an exception on the way - the
    list of groups and the registry of moderators are as before, no
    table is made for a group the store does not carry, and every
    article stored before is still under its index. *)
Theorem pickle_post_keeps_store (w : world) (cfg : mailcfg) (db db' : pickle_db)
    (message : string) (r : res (post_result w)) :
  Pickle.postRequest w cfg db message = (db', r) → pickle_keeps db db'.
Proof.
  unfold Pickle.postRequest.
  destruct (cleave message) as [head body0].
  destruct (Article_init w head body0) as [a|]; cbn [bind];
    [|intros [= <- _]; apply pickle_keeps_refl].
  destruct (getHeader a "Newsgroups") as [newsgroups|]; cbn [bind];
    [|intros [= <- _]; apply pickle_keeps_refl].
  destruct (Pickle.getModerators db (words newsgroups)) as [ms|]; cbn [bind];
    [|intros [= <- _]; apply pickle_keeps_refl].
  destruct (match ms with [] => _ | _ :: _ => _ end) as [[|]|]; cbn [bind];
    [intros [= <- _]; apply pickle_keeps_refl | |intros [= <- _]; apply pickle_keeps_refl].
  destruct (Pickle.post_loop _ _ _) as [db1 [xref|e]] eqn:Hloop;
    [|intros [= <- _]; by eapply pickle_post_loop_keeps].
  destruct xref as [|x xref]; [intros [= <- _]; by eapply pickle_post_loop_keeps |].
  destruct (host_word w) as [host|]; [|intros [= <- _]; by eapply pickle_post_loop_keeps].
  intros [= <- _].
  pose proof (pickle_post_loop_spec _ _ _ _ _ _ Hloop) as (Hg & Hm & Htab & Hx).
  destruct (restamp_spec
              (putHeader a "Xref" (host +:+ " " +:+ Pickle.xref_text (x :: xref)))
              (x :: xref) db1) as (Hg' & Hm' & Hre).
  { intros [g j] [Hin|(t & Ht & Hj)]%Hx; [by apply elem_of_nil in Hin |].
    specialize (Htab g). rewrite Ht in Htab. destruct Htab as (t' & Ht' & [_ Hart]).
    exists t'. split; [done |]. simpl. rewrite Hart. by rewrite bool_decide_true. }
  split_and!; [by etrans | by etrans |].
  intros key. specialize (Htab key). specialize (Hre key).
  destruct (p_tables db !! key) as [t|] eqn:Ht.
  - destruct Htab as (t1 & Ht1 & Hf). rewrite Ht1 in Hre.
    destruct Hre as (t' & Ht' & _ & Hart'). exists t'. split; [done |].
    intros i a0 Hi. rewrite Hart', bool_decide_false; [by eapply pfiled_keeps |].
    rewrite Hx. intros [Hin|(t0 & Ht0 & Hi')]; [by apply elem_of_nil in Hin |].
    rewrite Ht in Ht0. injection Ht0 as <-.
    assert (is_Some (dict_get t i)) as ?%next_index_gt by eauto. lia.
  - by rewrite Htab in Hre.
Qed.

Lemma pickle_post_keeps_store_witness :
  Pickle.postRequest example_world example_cfg pickle_after_post message_approved
  = (pickle_after_two_posts, Return (Posted (Succeed tt)))
  ∧ pickle_keeps pickle_after_post pickle_after_two_posts.
Proof.
  split; [reflexivity |].
  apply (pickle_post_keeps_store example_world example_cfg pickle_after_post
           pickle_after_two_posts message_approved (Return (Posted (Succeed tt)))).
  reflexivity.
Defined.

(** The loop of [NewsShelf.postRequest] writes to the groups only. *)
Lemma shelf_post_loop_tables (a : Article) (groups : list string) :
  ∀ (s : shelf) (xref : list (string * string)),
    let r := fold_left (NewsShelf.post_group a) groups (s, xref) in
    s_moderators r.1 = s_moderators s ∧ s_subscriptions r.1 = s_subscriptions s
    ∧ s_message_ids r.1 = s_message_ids s.
Proof.
  induction groups as [|h groups IH]; intros s xref; [done |].
  cbn [fold_left]. unfold NewsShelf.post_group at 2 4 6.
  destruct (s_groups s !! encode h) as [g0|]; [|apply IH].
  match goal with
  | |- context [fold_left _ groups (?s1, ?x1)] => destruct (IH s1 x1) as (H1 & H2 & H3)
  end.
  cbn zeta. by rewrite H1, H2, H3.
Qed.

Lemma shelf_post_loop_keeps (a : Article) (groups : list string) (s : shelf) :
  shelf_keeps s (fold_left (NewsShelf.post_group a) groups (s, [])).1.
Proof.
  destruct (shelf_post_loop_tables a groups s []) as (Hm & Hs & Hi).
  split_and!; [done | done | by intros id; rewrite Hi |].
  intros key. pose proof (shelf_post_loop_spec a groups s [] key) as Hspec.
  cbn zeta in Hspec. destruct (s_groups s !! key) as [g|]; [|done].
  destruct Hspec as (g' & Hg' & Hf). exists g'.
  pose proof (named_nonneg key groups) as Hn.
  pose proof Hf as [H1 H2 H3 H4 _].
  split_and!; [done.. | lia |]. intros Hwf. by eapply filed_wf.
Qed.

Lemma shelf_keeps_refl (s : shelf) : shelf_keeps s s.
Proof.
  split_and!; [done.. |]. intros key. destruct (s_groups s !! key) as [g|]; [|done].
  exists g. split_and!; [done.. | lia | done].
Qed.

Lemma shelf_keeps_message_id (s s1 : shelf) (key : string) (xref : list (string * string)) :
  shelf_keeps s s1 → shelf_keeps s (set_message_id s1 key xref).
Proof.
  intros (Hm & Hs & Hi & Hg). split_and!; [done.. | | done].
  intros id Hid%Hi. unfold set_message_id. cbn [s_message_ids].
  destruct (decide (key = id)) as [->|Hne].
  - by rewrite lookup_insert_eq.
  - by rewrite lookup_insert_ne.
Qed.

(** X13: whatever a post through NewsShelf ends in, the moderators
    and the subscriptions are as before, every Message-ID that was known
    is still known, no group is made that the shelf does not carry, every
    group keeps its name, flags and minimum, its maximum does not go
    down, and a group whose indices were bounded by its maximum keeps
    every article it had. *)
Theorem shelf_post_keeps_store (w : world) (cfg : mailcfg) (s s' : shelf)
    (message : string) (r : res (post_result w)) :
  NewsShelf.postRequest w cfg s message = (s', r) → shelf_keeps s s'.
Proof.
  unfold NewsShelf.postRequest.
  destruct (cleave message) as [head body0].
  destruct (Article_init w head body0) as [a|]; cbn [bind];
    [|intros [= <- _]; apply shelf_keeps_refl].
  destruct (getHeader a "Newsgroups") as [newsgroups|]; cbn [bind];
    [|intros [= <- _]; apply shelf_keeps_refl].
  destruct (match NewsShelf.getModerator s (words newsgroups) with
            | Some m => _ | None => _ end) as [[m|]|]; cbn [bind];
    [intros [= <- _]; apply shelf_keeps_refl | |intros [= <- _]; apply shelf_keeps_refl].
  pose proof (shelf_post_loop_keeps a (words newsgroups) s) as Hk.
  destruct (fold_left _ _ _) as [s1 xref]. cbn [fst] in Hk.
  destruct xref as [|x xref]; [by intros [= <- _] |].
  destruct (host_word w) as [host|]; [|by intros [= <- _]].
  destruct (getHeader _ "Message-ID") as [id|]; [|by intros [= <- _]].
  intros [= <- _]. by apply shelf_keeps_message_id.
Qed.

Lemma shelf_post_keeps_store_witness :
  NewsShelf.postRequest example_world example_cfg shelf_after_post message_twice
  = ((NewsShelf.postRequest example_world example_cfg shelf_after_post message_twice).1,
     Return (Posted (Succeed tt)))
  ∧ shelf_keeps shelf_after_post
      (NewsShelf.postRequest example_world example_cfg shelf_after_post message_twice).1.
Proof.
  split; [reflexivity |].
  apply (shelf_post_keeps_store example_world example_cfg shelf_after_post _
           message_twice (Return (Posted (Succeed tt)))).
  reflexivity.
Defined.

(** The loops add to [xref], and a loop that added nothing wrote
    nothing. *)
Lemma pickle_post_loop_grows (a : Article) (groups : list string) :
  ∀ (db db' : pickle_db) (xref xref' : list (string * Z)),
    Pickle.post_loop a groups (db, xref) = (db', Return xref') →
    ∃ more, xref' = xref ++ more ∧ (more = [] → db' = db).
Proof.
  induction groups as [|h groups IH]; intros db db' xref xref'.
  - simpl. intros [= <- <-]. exists []. by rewrite app_nil_r.
  - cbn [Pickle.post_loop]. unfold Pickle.post_group.
    destruct (db_get db h) as [[l|m|t]|]; [done | done | |].
    + intros (more & -> & _)%IH. exists ((h, Pickle.next_index t) :: more).
      split; [by rewrite <- app_assoc | done].
    + apply IH.
Qed.

Lemma shelf_post_loop_grows (a : Article) (groups : list string) :
  ∀ (s : shelf) (xref : list (string * string)),
    let r := fold_left (NewsShelf.post_group a) groups (s, xref) in
    ∃ more, r.2 = xref ++ more ∧ (more = [] → r.1 = s).
Proof.
  induction groups as [|h groups IH]; intros s xref.
  - exists []. by rewrite app_nil_r.
  - cbn [fold_left]. unfold NewsShelf.post_group at 2 4.
    destruct (s_groups s !! encode h) as [g0|]; [|apply IH].
    match goal with
    | |- context [fold_left _ groups (?s1, ?x1)] =>
        destruct (IH s1 x1) as (more & Hr & _)
    end.
    cbn zeta in *. exists ((h, str (maxArticle g0 + 1)) :: more).
    split; [by rewrite Hr, <- app_assoc | done].
Qed.

(** X14: a post that returns without having filed the article - it
    was mailed to the moderators, or no group of its Newsgroups header
    is carried - has written nothing, in either backend. *)
Theorem post_not_filed_writes_nothing (w : world) (cfg : mailcfg) (message : string)
    (db db' : pickle_db) (s s' : shelf) (r : post_result w) :
  r ≠ Posted (Succeed tt) →
  (Pickle.postRequest w cfg db message = (db', Return r) → db' = db)
  ∧ (NewsShelf.postRequest w cfg s message = (s', Return r) → s' = s).
Proof.
  intros Hr. split.
  - unfold Pickle.postRequest.
    destruct (cleave message) as [head body0].
    destruct (Article_init w head body0) as [a|]; cbn [bind]; [|by intros [= <- _]].
    destruct (getHeader a "Newsgroups") as [newsgroups|]; cbn [bind]; [|by intros [= <- _]].
    destruct (Pickle.getModerators db (words newsgroups)) as [ms|]; cbn [bind];
      [|by intros [= <- _]].
    destruct (match ms with [] => _ | _ :: _ => _ end) as [[|]|]; cbn [bind];
      [by intros [= <- _] | |by intros [= <- _]].
    destruct (Pickle.post_loop _ _ _) as [db1 [xref|e]] eqn:Hloop; [|done].
    apply pickle_post_loop_grows in Hloop as (more & Hx & Hdb). cbn [app] in Hx. subst more.
    destruct xref as [|x xref]; [intros [= <- _]; by apply Hdb |].
    destruct (host_word w) as [host|]; [|done].
    by intros [= _ <-].
  - unfold NewsShelf.postRequest.
    destruct (cleave message) as [head body0].
    destruct (Article_init w head body0) as [a|]; cbn [bind]; [|by intros [= <- _]].
    destruct (getHeader a "Newsgroups") as [newsgroups|]; cbn [bind]; [|by intros [= <- _]].
    destruct (match NewsShelf.getModerator s (words newsgroups) with
              | Some m => _ | None => _ end) as [[m|]|]; cbn [bind];
      [by intros [= <- _] | |by intros [= <- _]].
    pose proof (shelf_post_loop_grows a (words newsgroups) s []) as (more & Hx & Hs).
    cbn zeta in *. destruct (fold_left _ _ _) as [s1 xref]. cbn [fst snd app] in *.
    subst more. destruct xref as [|x xref]; [intros [= <- _]; by apply Hs |].
    destruct (host_word w) as [host|]; [|done].
    destruct (getHeader _ "Message-ID") as [id|]; [|done].
    by intros [= _ <-].
Qed.

Lemma post_not_filed_writes_nothing_witness :
  Posted (w := example_world) (Fail (FError "No groups carried: x"))
  ≠ Posted (Succeed tt)
  ∧ NewsShelf.postRequest example_world example_cfg shelf_plain message_unknown
    = (shelf_plain, Return (Posted (Fail (FError "No groups carried: x")))).
Proof.
  split; [done |].
  destruct (post_not_filed_writes_nothing example_world example_cfg message_unknown
              pickle_plain pickle_plain shelf_plain
              (NewsShelf.postRequest example_world example_cfg shelf_plain
                 message_unknown).1
              (Posted (Fail (FError "No groups carried: x")))) as [_ Hs]; [done |].
  rewrite <- (Hs eq_refl) at 2. reflexivity.
Defined.

(** ** Moderation *)

(** X15: an article that carries a non-empty Approved header is
    never mailed to the moderators, whatever the groups it names and
    whoever moderates them, in either backend. *)
Theorem approved_post_not_mailed (w : world) (cfg : mailcfg) (message : string)
    (a : Article) (db : pickle_db) (s : shelf) (o : mail_outcome w) :
  parse_message w message = Return a →
  nonempty_header a "Approved" →
  (Pickle.postRequest w cfg db message).2 ≠ Return (Mailed o)
  ∧ (NewsShelf.postRequest w cfg s message).2 ≠ Return (Mailed o).
Proof.
  unfold parse_message, Pickle.postRequest, NewsShelf.postRequest.
  destruct (cleave message) as [head body0]. intros -> (v & Hv & Hne). cbn [bind].
  destruct (getHeader a "Newsgroups") as [newsgroups|]; cbn [bind]; [|done].
  rewrite Hv. cbn [bind]. split.
  - destruct (Pickle.getModerators db (words newsgroups)) as [ms|]; cbn [bind]; [|done].
    assert (match ms with
            | [] => Return false
            | _ :: _ => Return (bool_decide (v = ""))
            end = Return false) as ->.
    { destruct ms; [done |]. by rewrite bool_decide_false. }
    cbn [bind].
    destruct (Pickle.post_loop _ _ _) as [db1 [[|x xref]|e]]; [done | | done].
    by destruct (host_word w).
  - assert (match NewsShelf.getModerator s (words newsgroups) with
            | Some m => if decide (m = "") then Return None
                        else Return (if decide (v = "") then Some m else None)
            | None => Return None
            end = Return None) as ->.
    { destruct (NewsShelf.getModerator s (words newsgroups)) as [m|]; [|done].
      destruct (decide (m = "")); [done |]. by rewrite decide_False. }
    cbn [bind].
    destruct (fold_left _ _ _) as [s1 [|x xref]]; [done |].
    destruct (host_word w); [|done]. by destruct (getHeader _ "Message-ID").
Qed.

Lemma approved_post_not_mailed_witness :
  (∃ a, parse_message example_world message_approved = Return a
        ∧ nonempty_header a "Approved")
  ∧ (Pickle.postRequest example_world example_cfg pickle_moderated message_approved).2
    ≠ Return (@Mailed example_world (["alice@example.org"], "")).
Proof.
  assert (nonempty_header
            article_approved "Approved") as Hne.
  { exists "yes". by split. }
  split; [eexists; split; [reflexivity | exact Hne] |].
  apply (approved_post_not_mailed example_world example_cfg message_approved _
           pickle_moderated shelf_plain (["alice@example.org"], "") eq_refl Hne).
Defined.

(** X16: once [addModerator] has given a group a moderator with a
    non-empty address, a post without Approved header whose Newsgroups
    header names this group first is mailed to this moderator alone,
    through [notifyModerator], and the shelf stays as it is. *)
Theorem shelf_moderated_post_mailed (w : world) (cfg : mailcfg) (s : shelf)
    (message newsgroups g email : string) (rest : list string) (a : Article) :
  parse_message w message = Return a →
  getHeader a "Newsgroups" = Return newsgroups →
  words newsgroups = g :: rest →
  getHeader a "Approved" = Return "" →
  email ≠ "" →
  NewsShelf.postRequest w cfg (NewsShelf.addModerator s g email) message
  = (NewsShelf.addModerator s g email,
     let! o := NewsShelf.notifyModerator w cfg email a in Return (Mailed o)).
Proof.
  unfold parse_message, NewsShelf.postRequest.
  destruct (cleave message) as [head body0]. intros -> Hn Hw Ha He. cbn [bind].
  rewrite Hn. cbn [bind]. rewrite Hw. cbn [NewsShelf.getModerator].
  unfold NewsShelf.addModerator at 1. cbn [s_moderators].
  rewrite lookup_insert_eq, decide_False by done. rewrite Ha. cbn [bind].
  by rewrite decide_True.
Qed.

Lemma shelf_moderated_post_mailed_witness :
  parse_message example_world message_mixed
  = Return article_mixed
  ∧ NewsShelf.postRequest example_world example_cfg
      (NewsShelf.addModerator shelf_plain "mod.test" "alice@example.org") message_mixed
    = (NewsShelf.addModerator shelf_plain "mod.test" "alice@example.org",
       Return (@Mailed example_world
                 (["alice@example.org"], "Moderate new mod.test alt.test message: hi"))).
Proof.
  split; [reflexivity |].
  assert ("alice@example.org" ≠ "") as He by done.
  exact (shelf_moderated_post_mailed example_world example_cfg shelf_plain message_mixed
           "mod.test alt.test" "mod.test" "alice@example.org" ["alt.test"] article_mixed
           eq_refl eq_refl eq_refl eq_refl He).
Defined.

(** X17: a group whose moderator address is the empty string, named
    first in the Newsgroups header, hides the moderators of the groups
    named after it: [getModerator] stops at the first entry it finds, and
    the post is not mailed to anyone. *)
Theorem shelf_empty_moderator_first (w : world) (cfg : mailcfg) (s : shelf)
    (message newsgroups g : string) (rest : list string) (a : Article)
    (o : mail_outcome w) :
  parse_message w message = Return a →
  getHeader a "Newsgroups" = Return newsgroups →
  words newsgroups = g :: rest →
  s_moderators s !! encode g = Some "" →
  (NewsShelf.postRequest w cfg s message).2 ≠ Return (Mailed o).
Proof.
  unfold parse_message, NewsShelf.postRequest.
  destruct (cleave message) as [head body0]. intros -> Hn Hw Hg. cbn [bind].
  rewrite Hn. cbn [bind]. rewrite Hw. cbn [NewsShelf.getModerator]. rewrite Hg.
  rewrite decide_True by done. cbn [bind].
  destruct (fold_left _ _ _) as [s1 [|x xref]]; [done |].
  destruct (host_word w); [|done]. by destruct (getHeader _ "Message-ID").
Qed.

Lemma shelf_empty_moderator_first_witness :
  words "mod.test alt.test" = ["mod.test"; "alt.test"]
  ∧ (NewsShelf.postRequest example_world example_cfg
       (NewsShelf.addModerator
          (NewsShelf.addModerator shelf_plain "alt.test" "bob@example.org")
          "mod.test" "")
       message_mixed).2
    ≠ Return (@Mailed example_world
                (["bob@example.org"], "Moderate new mod.test alt.test message: hi")).
Proof.
  split; [reflexivity |].
  apply (shelf_empty_moderator_first example_world example_cfg _ message_mixed
           "mod.test alt.test" "mod.test" ["alt.test"]
           article_mixed);
    reflexivity.
Defined.

(** ** Groups that posts alone have filled *)

Lemma range_snoc (m : Z) :
  0 ≤ m → NewsShelf.range 1 (m + 1) = NewsShelf.range 1 m ++ [m + 1].
Proof.
  intros Hm. unfold NewsShelf.range.
  replace (Z.to_nat (m + 1 + 1 - 1)) with (S (Z.to_nat (m + 1 - 1))) by lia.
  rewrite seq_S, map_app. simpl. do 2 f_equal. lia.
Qed.

Lemma length_range (m : Z) : 0 ≤ m → Z.of_nat (length (NewsShelf.range 1 m)) = m.
Proof. intros Hm. unfold NewsShelf.range. rewrite length_map, length_seq. lia. Qed.

Lemma new_group_dense (name flags : string) : group_dense (new_group name flags).
Proof. by split_and!. Qed.

Lemma group_dense_step (a : Article) (g : Group) :
  group_dense g →
  group_dense (mkGroup (g_name g) (g_flags g) (minArticle g) (maxArticle g + 1)
                 (dict_set (articles g) (maxArticle g + 1) a)).
Proof.
  intros (Hmin & Hmax & Hkeys). split_and!; cbn [minArticle maxArticle articles];
    [done | lia |].
  rewrite dict_keys_set.
  assert (dict_get (articles g) (maxArticle g + 1) = None) as ->.
  { apply dict_get_None. rewrite Hkeys, elem_of_range. lia. }
  by rewrite Hkeys, range_snoc.
Qed.

Lemma shelf_post_loop_dense (a : Article) (groups : list string) :
  ∀ (s : shelf) (xref : list (string * string)),
    shelf_dense s →
    shelf_dense (fold_left (NewsShelf.post_group a) groups (s, xref)).1.
Proof.
  induction groups as [|h groups IH]; intros s xref Hs; [done |].
  cbn [fold_left]. unfold NewsShelf.post_group at 2.
  destruct (s_groups s !! encode h) as [g0|] eqn:Hh; [|by apply IH].
  apply IH. intros key g. unfold set_group. cbn [s_groups].
  destruct (decide (encode h = key)) as [<-|Hne].
  - rewrite lookup_insert_eq. intros [= <-]. apply group_dense_step. by eapply Hs.
  - rewrite lookup_insert_ne by done. apply Hs.
Qed.

(** X18: on a shelf whose groups use the indices 1 to their maximum,
    as a new group does, every post - whatever it ends in - leaves the
    groups so. *)
Theorem shelf_post_keeps_dense (w : world) (cfg : mailcfg) (s s' : shelf)
    (message : string) (r : res (post_result w)) :
  shelf_dense s →
  NewsShelf.postRequest w cfg s message = (s', r) →
  shelf_dense s'.
Proof.
  intros Hs. unfold NewsShelf.postRequest.
  destruct (cleave message) as [head body0].
  destruct (Article_init w head body0) as [a|]; cbn [bind]; [|by intros [= <- _]].
  destruct (getHeader a "Newsgroups") as [newsgroups|]; cbn [bind]; [|by intros [= <- _]].
  destruct (match NewsShelf.getModerator s (words newsgroups) with
            | Some m => _ | None => _ end) as [[m|]|]; cbn [bind];
    [by intros [= <- _] | |by intros [= <- _]].
  pose proof (shelf_post_loop_dense a (words newsgroups) s [] Hs) as Hd.
  destruct (fold_left _ _ _) as [s1 xref]. cbn [fst] in Hd.
  destruct xref as [|x xref]; [by intros [= <- _] |].
  destruct (host_word w) as [host|]; [|by intros [= <- _]].
  destruct (getHeader _ "Message-ID") as [id|]; [|by intros [= <- _]].
  by intros [= <- _].
Qed.

Lemma shelf_plain_dense : shelf_dense shelf_plain.
Proof.
  intros key g. unfold shelf_plain. cbn [s_groups].
  intros [_ <-]%lookup_singleton_Some. apply new_group_dense.
Qed.

Lemma shelf_post_keeps_dense_witness :
  shelf_dense shelf_plain
  ∧ NewsShelf.postRequest example_world example_cfg shelf_plain message_plain
    = (shelf_after_post, Return (Posted (Succeed tt)))
  ∧ shelf_dense shelf_after_post.
Proof.
  split; [apply shelf_plain_dense |]. split; [reflexivity |].
  apply (shelf_post_keeps_dense example_world example_cfg shelf_plain shelf_after_post
           message_plain (Return (Posted (Succeed tt))));
    [apply shelf_plain_dense | reflexivity].
Defined.

(** X19: for a group that uses the indices 1 to its maximum, what
    the shelf reports is what it holds: [listGroupRequest] lists the
    indices 1 to the maximum in ascending order, the count of
    [groupRequest] is the number of articles stored, its bounds are the
    maximum and 1, and an index has an article exactly when it lies
    between the bounds. *)
Theorem shelf_dense_reports (s : shelf) (group : string) (g : Group) :
  shelf_dense s →
  s_groups s !! encode group = Some g →
  NewsShelf.listGroupRequest s group
  = Succeed (group, NewsShelf.range 1 (maxArticle g))
  ∧ NewsShelf.groupRequest s group
    = Succeed (group, Z.of_nat (length (articles g)), maxArticle g, 1, g_flags g)
  ∧ ∀ i, is_Some (dict_get (articles g) i) ↔ 1 ≤ i ≤ maxArticle g.
Proof.
  intros Hs Hg. destruct (Hs _ _ Hg) as (Hmin & Hmax & Hkeys).
  unfold NewsShelf.listGroupRequest, NewsShelf.groupRequest. rewrite Hg.
  split_and!.
  - by rewrite Hkeys.
  - rewrite Hmin. do 5 f_equal.
    assert (length (articles g) = length (dict_keys (articles g))) as ->
      by (unfold dict_keys; by rewrite length_fmap).
    rewrite Hkeys, length_range by done. lia.
  - intros i. rewrite <- elem_of_range, <- Hkeys.
    destruct (dict_get (articles g) i) eqn:Hi.
    + split; [|by eauto]. intros _.
      destruct (decide (i ∈ dict_keys (articles g))) as [|Hn]; [done |].
      apply dict_get_None in Hn. congruence.
    + apply dict_get_None in Hi. split; [by intros [? [=]] | done].
Qed.

Lemma shelf_dense_reports_witness :
  shelf_dense shelf_two
  ∧ NewsShelf.listGroupRequest shelf_two "alt.test" = Succeed ("alt.test", [1; 2])
  ∧ NewsShelf.groupRequest shelf_two "alt.test" = Succeed ("alt.test", 2, 2, 1, "y").
Proof.
  assert (shelf_dense shelf_two) as Hd.
  { intros key g. unfold shelf_two. cbn [s_groups].
    intros [_ <-]%lookup_singleton_Some. by split_and!. }
  split; [exact Hd |].
  destruct (shelf_dense_reports shelf_two "alt.test"
              (mkGroup "alt.test" "y" 1 2 [(1, example_article); (2, article_mixed)])
              Hd eq_refl) as (Hl & Hg & _).
  split; [exact Hl | exact Hg].
Defined.

(** ** A new pickle store *)





(** ** What the pickle store reports *)

Lemma min_list_le (k : Z) (ks : list Z) : min_list k ks ≤ k.
Proof.
  unfold min_list. revert k. induction ks as [|x ks IH]; intros k; simpl; [lia |].
  specialize (IH (Z.min k x)). lia.
Qed.

Lemma min_list_ge (k : Z) (ks : list Z) (x : Z) : x ∈ ks → min_list k ks ≤ x.
Proof.
  unfold min_list. revert k. induction ks as [|y ks IH]; intros k.
  - by intros ?%elem_of_nil.
  - simpl. intros [->|Hx]%elem_of_cons; [|auto].
    pose proof (min_list_le (Z.min k y) ks). unfold min_list in *. lia.
Qed.

Lemma max_list_in (k : Z) (ks : list Z) : max_list k ks ∈ k :: ks.
Proof.
  unfold max_list. revert k. induction ks as [|x ks IH]; intros k; simpl; [left |].
  specialize (IH (Z.max k x)). apply elem_of_cons in IH as [->|Hin].
  - destruct (Z.max_spec k x) as [[_ ->]|[_ ->]]; [right; left | left].
  - right. by right.
Qed.

Lemma min_list_in (k : Z) (ks : list Z) : min_list k ks ∈ k :: ks.
Proof.
  unfold min_list. revert k. induction ks as [|x ks IH]; intros k; simpl; [left |].
  specialize (IH (Z.min k x)). apply elem_of_cons in IH as [->|Hin].
  - destruct (Z.min_spec k x) as [[_ ->]|[_ ->]]; [left | right; left].
  - right. by right.
Qed.

(** X21: for a group that holds articles, [PickleStorage.groupRequest]
    reports the number of articles, and as bounds the largest and the
    smallest index in use - both are indices of stored articles and every
    stored index lies between them - with the flag [y], also for a
    moderated group. *)
Theorem pickle_groupRequest_bounds (db : pickle_db) (group : string) (t : dict Z Article) :
  db_get db group = Some (Table t) → t ≠ [] →
  ∃ high low,
    Pickle.groupRequest db group
    = Return (Succeed (group, Z.of_nat (length t), Pickle.IntB high, Pickle.IntB low, "y"))
    ∧ is_Some (dict_get t high) ∧ is_Some (dict_get t low)
    ∧ ∀ i, is_Some (dict_get t i) → low ≤ i ≤ high.
Proof.
  intros Hg Ht. unfold Pickle.groupRequest. rewrite Hg.
  assert (∀ i, is_Some (dict_get t i) ↔ i ∈ dict_keys t) as Hkeys.
  { intros i. destruct (dict_get t i) eqn:Hi.
    - split; [|by eauto]. intros _.
      destruct (decide (i ∈ dict_keys t)) as [|Hn]; [done |].
      apply dict_get_None in Hn. congruence.
    - apply dict_get_None in Hi. split; [by intros [? [=]] | done]. }
  assert (length t = length (dict_keys t)) as ->
    by (unfold dict_keys; by rewrite length_fmap).
  destruct (dict_keys t) as [|k ks] eqn:Hk; [by destruct t |].
  exists (max_list k ks), (min_list k ks). split_and!; [done | | |].
  - apply Hkeys, max_list_in.
  - apply Hkeys, min_list_in.
  - intros i Hi. apply Hkeys, elem_of_cons in Hi as [Hi|Hin].
    + pose proof (max_list_le k ks). pose proof (min_list_le k ks). lia.
    + pose proof (max_list_ge k ks i Hin). pose proof (min_list_ge k ks i Hin). lia.
Qed.

Lemma pickle_groupRequest_bounds_witness :
  db_get pickle_gap "alt.test"
  = Some (Table [(3, example_article); (1, article_mixed); (7, example_article)])
  ∧ ∃ high low,
      Pickle.groupRequest pickle_gap "alt.test"
      = Return (Succeed ("alt.test", 3, Pickle.IntB high, Pickle.IntB low, "y"))
      ∧ (high = 7 ∧ low = 1)
      ∧ ∀ i, is_Some (dict_get [(3, example_article); (1, article_mixed);
                                (7, example_article)] i) → low ≤ i ≤ high.
Proof.
  split; [reflexivity |].
  destruct (pickle_groupRequest_bounds pickle_gap "alt.test"
              [(3, example_article); (1, article_mixed); (7, example_article)])
    as (high & low & Hr & _ & _ & Hb); [reflexivity | done |].
  exists high, low. split; [exact Hr |]. split; [|exact Hb].
  assert (Pickle.groupRequest pickle_gap "alt.test"
          = Return (Succeed ("alt.test", 3, Pickle.IntB 7, Pickle.IntB 1, "y"))) as Hc
    by reflexivity.
  rewrite Hc in Hr. by injection Hr as <- <-.
Defined.

Lemma overview_values (a : Article) :
  printable a → overview a = Return (map (header_value a) OVERVIEW_FMT).
Proof.
  intros Hp. apply mapM_Return. intros h _. by apply getHeader_printable.
Qed.

Lemma pickle_xover_loop (low high : option Z) (t : dict Z Article) :
  Forall (fun e => printable e.2) t →
  ∀ r0,
    foldM (fun r '(i, a) =>
             if Pickle.xover_in_range low high i then
               let! o := overview a in Return (r ++ [str i :: o])
             else Return r) t r0
    = Return (r0 ++ map xover_row
                        (List.filter (fun e => Pickle.xover_in_range low high e.1) t)).
Proof.
  induction 1 as [|[i a] t Ha _ IH]; intros r0.
  - simpl. by rewrite app_nil_r.
  - cbn [foldM List.filter fst]. destruct (Pickle.xover_in_range low high i).
    + rewrite overview_values by done. cbn [bind]. rewrite IH.
      cbn [map]. by rewrite <- app_assoc.
    + cbn [bind]. apply IH.
Qed.

(** X22: for a group whose articles can be printed,
    [PickleStorage.xoverRequest] returns one row for each article whose
    index is within the bounds that are given, in the order of the
    table: the index as text, then the eight columns of the overview. *)
Theorem pickle_xover_rows (db : pickle_db) (group : string) (t : dict Z Article)
    (low high : option Z) :
  db_get db group = Some (Table t) →
  Forall (fun e => printable e.2) t →
  Pickle.xoverRequest db group low high
  = Return (Succeed (map xover_row
                       (List.filter (fun e => Pickle.xover_in_range low high e.1) t))).
Proof.
  intros Hg Ht. unfold Pickle.xoverRequest. rewrite Hg.
  by rewrite pickle_xover_loop.
Qed.

Lemma pickle_xover_rows_witness :
  Pickle.xoverRequest pickle_gap "alt.test" (Some 2) None
  = Return (Succeed
              [["3"; ""; ""; "Tue Nov 14 22:13:20 2023";
                "<0cc175b9c0f1b6a831c399e269772661@news.example.org>"; ""; "11"; "1"; ""];
               ["7"; ""; ""; "Tue Nov 14 22:13:20 2023";
                "<0cc175b9c0f1b6a831c399e269772661@news.example.org>"; ""; "11"; "1"; ""]]).
Proof.
  rewrite (pickle_xover_rows pickle_gap "alt.test"
             [(3, example_article); (1, article_mixed); (7, example_article)]
             (Some 2) None); [reflexivity | reflexivity |].
  repeat constructor.
Defined.

(** ** What the shelf reports *)

Lemma shelf_xhdr_loop_rows (g : Group) (header : string) (indices : list Z) :
  Forall (fun e => printable e.2) (articles g) →
  ∀ r0,
    foldM (fun r i =>
             match dict_get (articles g) i with
             | Some a => let! v := getHeader a header in Return (r ++ [(i, v)])
             | None => Return r
             end) indices r0
    = Return (r0 ++ omap (fun i => (fun a => (i, header_value a header))
                                     <$> dict_get (articles g) i) indices).
Proof.
  intros Hp. induction indices as [|i indices IH]; intros r0.
  - simpl. by rewrite app_nil_r.
  - cbn [foldM omap list_omap]. destruct (dict_get (articles g) i) as [a|] eqn:Hi.
    + rewrite getHeader_printable.
      2:{ apply dict_get_Some_elem in Hi. rewrite Forall_forall in Hp.
          by apply Hp in Hi. }
      cbn [bind fmap option_fmap option_map]. rewrite IH. by rewrite <- app_assoc.
    + cbn [bind fmap option_fmap option_map]. apply IH.
Qed.

(** X23: for a group whose articles can be printed,
    [NewsShelf.xhdrRequest] with an upper bound returns, in ascending
    order of the index, one pair for each index from the lower bound (0
    when there is none) to the upper bound that holds an article: the
    index and the value of the header, empty when the article does not
    have it. *)
Theorem shelf_xhdr_rows (w : world) (s : shelf) (group header : string) (g : Group)
    (low : option Z) (high : Z) :
  s_groups s !! encode group = Some g →
  Forall (fun e => printable e.2) (articles g) →
  NewsShelf.xhdrRequest w s group low (Some high) header
  = Return (Succeed (omap (fun i => (fun a => (i, header_value a header))
                                      <$> dict_get (articles g) i)
                          (NewsShelf.range (default 0 low) high))).
Proof.
  intros Hg Hp. unfold NewsShelf.xhdrRequest. rewrite Hg. cbn [bind].
  by rewrite shelf_xhdr_loop_rows.
Qed.

Lemma shelf_xhdr_rows_witness :
  NewsShelf.xhdrRequest example_world shelf_two "alt.test" None (Some 5) "Subject"
  = Return (Succeed [(1, ""); (2, "hi")]).
Proof.
  rewrite (shelf_xhdr_rows example_world shelf_two "alt.test" "Subject"
             (mkGroup "alt.test" "y" 1 2 [(1, example_article); (2, article_mixed)])
             None 5); [reflexivity | reflexivity |].
  repeat constructor.
Defined.

(** ** Notifications and headers without a value *)




Lemma mapM_raise {A B} (f : A → res B) (l : list A) (x : A) (e : exn) :
  x ∈ l → f x = Raise e →
  (∀ y, y ∈ l → f y = Raise e ∨ ∃ b, f y = Return b) →
  mapM f l = Raise e.
Proof.
  induction l as [|y l IH]; intros Hx Hfx Hall; [by apply elem_of_nil in Hx |].
  cbn [mapM]. apply elem_of_cons in Hx as [->|Hx]; [by rewrite Hfx |].
  destruct (Hall y) as [->|[b ->]]; [left | done |]. cbn [bind].
  rewrite IH; [done.. |]. intros z Hz. apply Hall. by right.
Qed.

Lemma default_header_keeps_T1 (a a' : Article) (h val k n : string) :
  default_header a h val = Return a' →
  dict_get (headers a) k = Some (T1 n) →
  dict_get (headers a') k = Some (T1 n).
Proof.
  unfold default_header. destruct (getHeader a h) as [v|] eqn:Hg; [|done]. cbn [bind].
  destruct (decide (v = "")); intros [= <-] Hk; [|done].
  unfold putHeader. cbn [headers]. rewrite dict_get_set_ne; [done |].
  intros <-. unfold getHeader in Hg. by rewrite Hk in Hg.
Qed.

(** X25: a header block whose last line is a name without [": "]
    after it gives, when [Article.__init__] accepts it, an article that
    cannot be printed: [getHeader] for this name, [textHeaders] and the
    text [articleRequest] serves raise [IndexError], and
    [notifyModerators] raises as well. *)
Theorem header_without_value (w : world) (cfg : mailcfg) (block body0 line : string)
    (lines moderators : list string) (a : Article) :
  Article_init w block body0 = Return a →
  split_crlf block = lines ++ [line] →
  is_continuation line = false →
  split_colon line = T1 line →
  getHeader a line = Raise IndexError
  ∧ textHeaders a = Raise IndexError
  ∧ article_text a = Raise IndexError
  ∧ ∃ e, notifyModerators w cfg moderators a = Raise e.
Proof.
  intros (hs & header & a1 & a2 & a3 & H0 & H1 & H2 & H3 & H4)%Article_init_steps
         Hs Hc Hl.
  rewrite Hs, foldM_app in H0.
  destruct (foldM parse_line lines ([], None)) as [[hs0 h0]|]; [|done].
  cbn [bind foldM] in H0. unfold parse_line in H0. rewrite Hc, Hl in H0.
  cbn [bind tuple_name] in H0. injection H0 as <- <-.
  assert (dict_get (headers a) (lower line) = Some (T1 line)) as Hk.
  { eapply default_header_keeps_T1; [exact H4 |].
    eapply default_header_keeps_T1; [exact H3 |].
    eapply default_header_keeps_T1; [exact H2 |].
    eapply default_header_keeps_T1; [exact H1 |].
    cbn [headers]. apply dict_get_set_eq. }
  assert (mapM format_header (dict_values (headers a)) = Raise IndexError) as Hm.
  { eapply mapM_raise; [by eapply dict_get_value | done |].
    intros [n|n v] _; [by left | right; by eexists]. }
  assert (textHeaders a = Raise IndexError) as Ht
    by (unfold textHeaders; by rewrite Hm).
  split_and!; [|done | |].
  - unfold getHeader. by rewrite Hk.
  - unfold article_text. by rewrite Ht.
  - unfold notifyModerators.
    destruct (getHeader a "Newsgroups"); [|by eexists]. cbn [bind].
    destruct (getHeader a "Subject"); [|by eexists]. cbn [bind].
    exists ValueError. erewrite (mapM_raise unpack_header);
      [done | by eapply dict_get_value | done |].
    intros [n|n v] _; [by left | right; by eexists].
Qed.

Lemma header_without_value_witness :
  (∃ a, parse_message example_world message_no_colon = Return a
        ∧ textHeaders a = Raise IndexError)
  ∧ (∃ s', NewsShelf.postRequest example_world example_cfg shelf_plain message_no_colon
           = (s', Return (Posted (Succeed tt)))
           ∧ NewsShelf.headRequest s' "alt.test" 1 = Raise IndexError).
Proof.
  split; [|eexists; split; reflexivity].
  eexists. split; [reflexivity |].
  apply (header_without_value example_world example_cfg
           ("Newsgroups: alt.test" +:+ CRLF +:+ "Subject") example_body "Subject"
           ["Newsgroups: alt.test"] [] _ eq_refl eq_refl eq_refl eq_refl).
Defined.

(** ** Finding an article of the pickle store by its id *)

(** The ways through [PickleStorage.postRequest], by what they leave
    in the store. *)
Lemma pickle_post_cases (w : world) (cfg : mailcfg) (db db' : pickle_db)
    (message : string) (r : res (post_result w)) :
  Pickle.postRequest w cfg db message = (db', r) →
  db' = db
  ∨ ∃ a newsgroups db1 r1,
      parse_message w message = Return a
      ∧ getHeader a "Newsgroups" = Return newsgroups
      ∧ Pickle.post_loop a (words newsgroups) (db, []) = (db1, r1)
      ∧ (db' = db1
         ∨ ∃ host xref,
             r1 = Return xref
             ∧ db' = Pickle.restamp
                       (putHeader a "Xref" (host +:+ " " +:+ Pickle.xref_text xref))
                       db1 xref).
Proof.
  unfold Pickle.postRequest, parse_message.
  destruct (cleave message) as [head body0].
  destruct (Article_init w head body0) as [a|]; cbn [bind]; [|intros [= <- _]; by left].
  destruct (getHeader a "Newsgroups") as [newsgroups|] eqn:Hn; cbn [bind];
    [|intros [= <- _]; by left].
  destruct (Pickle.getModerators db (words newsgroups)) as [ms|]; cbn [bind];
    [|intros [= <- _]; by left].
  destruct (match ms with [] => _ | _ :: _ => _ end) as [[|]|]; cbn [bind];
    [intros [= <- _]; by left | |intros [= <- _]; by left].
  destruct (Pickle.post_loop _ _ _) as [db1 r1] eqn:Hloop. intros Hr. right.
  exists a, newsgroups, db1, r1. split_and!; [done.. |].
  destruct r1 as [[|x xref]|e]; [injection Hr as <- _; by left | |injection Hr as <- _; by left].
  destruct (host_word w) as [host|]; [|injection Hr as <- _; by left].
  injection Hr as <- _. right. by exists host, (x :: xref).
Qed.

Lemma tables_ok_set (db : pickle_db) (g : string) (t : dict Z Article) (i : Z)
    (a : Article) :
  tables_ok db → p_tables db !! g = Some t → has_message_id a →
  tables_ok (set_table db g (dict_set t i a)).
Proof.
  intros Hdb Ht Ha key t'. unfold set_table. cbn [p_tables].
  destruct (decide (g = key)) as [<-|Hne].
  - rewrite lookup_insert_eq. intros [= <-].
    apply Forall_dict_set; [by eapply Hdb | done].
  - rewrite lookup_insert_ne by done. apply Hdb.
Qed.

Lemma pickle_post_loop_ok (a : Article) (groups : list string) :
  has_message_id a →
  ∀ (db db' : pickle_db) (xref : list (string * Z)) (r : res (list (string * Z))),
    tables_ok db → Pickle.post_loop a groups (db, xref) = (db', r) → tables_ok db'.
Proof.
  intros Ha. induction groups as [|h groups IH]; intros db db' xref r Hdb.
  - simpl. by intros [= <- _].
  - cbn [Pickle.post_loop]. unfold Pickle.post_group.
    destruct (db_get db h) as [[l|m|t]|] eqn:Hh;
      [by intros [= <- _] | by intros [= <- _] | |by apply IH].
    apply db_get_table in Hh. apply IH. by apply tables_ok_set.
Qed.

Lemma restamp_ok (a : Article) (xref : list (string * Z)) :
  has_message_id a →
  ∀ db, tables_ok db → tables_ok (Pickle.restamp a db xref).
Proof.
  intros Ha. unfold Pickle.restamp.
  induction xref as [|x xref IH]; intros db Hdb; [done |].
  cbn [fold_left]. apply IH.
  destruct (p_tables db !! x.1) as [t|] eqn:Ht; [|done]. by apply tables_ok_set.
Qed.

Lemma restamp_domain (a : Article) (xref : list (string * Z)) :
  ∀ db,
    p_groups (Pickle.restamp a db xref) = p_groups db
    ∧ ∀ key, is_Some (p_tables db !! key) →
             is_Some (p_tables (Pickle.restamp a db xref) !! key).
Proof.
  unfold Pickle.restamp.
  induction xref as [|x xref IH]; intros db; [done |].
  cbn [fold_left]. destruct (p_tables db !! x.1) as [t|] eqn:Ht; [|apply IH].
  match goal with
  | |- context [fold_left _ xref ?db1] => destruct (IH db1) as [Hg Hk]
  end.
  split; [done |]. intros key Hkey. apply Hk. unfold set_table. cbn [p_tables].
  destruct (decide (x.1 = key)) as [<-|Hne].
  - by rewrite lookup_insert_eq.
  - by rewrite lookup_insert_ne.
Qed.

Lemma has_id_total (id : string) (l : list Article) :
  Forall has_message_id l → ∃ b, Pickle.has_id id l = Return b.
Proof.
  induction 1 as [|a l [m Hm] _ [b IH]]; [by exists false |].
  cbn [Pickle.has_id]. rewrite Hm. cbn [bind].
  destruct (decide (m = id)); [by exists true | by exists b].
Qed.

Lemma has_id_true (id : string) (l : list Article) (a : Article) :
  Forall has_message_id l → a ∈ l → getHeader a "Message-ID" = Return id →
  Pickle.has_id id l = Return true.
Proof.
  induction 1 as [|a0 l [m Hm] _ IH]; [by intros ?%elem_of_nil |].
  intros Hin Ha. cbn [Pickle.has_id]. rewrite Hm. cbn [bind].
  destruct (decide (m = id)) as [|Hne]; [done |].
  apply elem_of_cons in Hin as [->|Hin]; [congruence | by apply IH].
Qed.

Lemma tables_ok_values (db : pickle_db) (key : string) (t : dict Z Article) :
  tables_ok db → p_tables db !! key = Some t → Forall has_message_id (dict_values t).
Proof.
  intros Hdb Ht%Hdb. unfold dict_values. by apply Forall_fmap.
Qed.

Lemma group_has_id_total (db : pickle_db) (id g : string) (groups : list string) :
  tables_ok db →
  (∀ g, g ∈ groups → g ≠ "groups" ∧ g ≠ "moderators" ∧ is_Some (p_tables db !! g)) →
  g ∈ groups → ∃ b, Pickle.group_has_id db id g = Return b.
Proof.
  intros Hdb Hl Hg. destruct (Hl g Hg) as (H1 & H2 & [t Ht]).
  unfold Pickle.group_has_id. rewrite (db_get_plain db g t) by done.
  apply has_id_total. by eapply tables_ok_values.
Qed.

Lemma any_group_has_id_total (db : pickle_db) (id : string) (groups : list string) :
  (∀ g, g ∈ groups → ∃ b, Pickle.group_has_id db id g = Return b) →
  ∃ b, Pickle.any_group_has_id db id groups = Return b.
Proof.
  induction groups as [|g groups IH]; intros Hall; [by exists false |].
  cbn [Pickle.any_group_has_id]. destruct (Hall g) as [b ->]; [left |]. cbn [bind].
  destruct b; [by exists true |]. apply IH. intros g' Hg'. apply Hall. by right.
Qed.

Lemma any_group_has_id_true (db : pickle_db) (id key : string) (groups : list string) :
  (∀ g, g ∈ groups → ∃ b, Pickle.group_has_id db id g = Return b) →
  key ∈ groups → Pickle.group_has_id db id key = Return true →
  Pickle.any_group_has_id db id groups = Return true.
Proof.
  induction groups as [|g groups IH]; intros Hall Hin Hkey; [by apply elem_of_nil in Hin |].
  cbn [Pickle.any_group_has_id]. destruct (Hall g) as [b Hb]; [left |].
  rewrite Hb. cbn [bind]. destruct b; [done |].
  apply elem_of_cons in Hin as [->|Hin]; [congruence |].
  apply IH; [|done..]. intros g' Hg'. apply Hall. by right.
Qed.

Lemma has_message_id_putHeader (a : Article) (v : string) :
  has_message_id a → has_message_id (putHeader a "Xref" v).
Proof. intros [id Hid]. exists id. by rewrite getHeader_putHeader_ne. Qed.

(** X26: in a pickle store where every group of the list has a table
    and every stored article has a Message-ID to read, as in the store
    [load] makes, a post - whatever it ends in - leaves the store so,
    and [articleExistsRequest] answers 0 or 1 without raising. *)
Theorem pickle_post_keeps_listed (w : world) (cfg : mailcfg) (db db' : pickle_db)
    (message id : string) (r : res (post_result w)) :
  pickle_listed db →
  Pickle.postRequest w cfg db message = (db', r) →
  pickle_listed db'
  ∧ ∃ found : bool,
      Pickle.articleExistsRequest db' id = Return (Succeed (if found then 1 else 0)).
Proof.
  intros Hdb Hpost.
  assert (pickle_listed db') as Hdb'.
  { destruct Hdb as (Hok & groups & Hg & Hl).
    apply pickle_post_cases in Hpost
      as [->|(a & newsgroups & db1 & r1 & Ha & _ & Hloop & Hcase)];
      [split; [done | by exists groups] |].
    assert (has_message_id a) as Hid.
    { destruct (parse_message_body w message a Ha) as [_ (m & Hm & _)]. by exists m. }
    pose proof (pickle_post_loop_ok a _ Hid _ _ _ _ Hok Hloop) as Hok1.
    apply pickle_post_loop_any in Hloop as (Hg1 & _ & Htab).
    assert (∀ g, g ∈ groups →
              g ≠ "groups" ∧ g ≠ "moderators" ∧ is_Some (p_tables db1 !! g)) as Hl1.
    { intros g (H1 & H2 & [t Ht])%Hl. split_and!; [done.. |].
      specialize (Htab g). rewrite Ht in Htab. destruct Htab as (t' & n & -> & _). eauto. }
    destruct Hcase as [->|(host & xref & _ & ->)].
    - split; [done |]. exists groups. split; [congruence | done].
    - split; [by apply restamp_ok, Hok1; apply has_message_id_putHeader |].
      destruct (restamp_domain
                  (putHeader a "Xref" (host +:+ " " +:+ Pickle.xref_text xref)) xref db1)
        as [Hg2 Hk].
      exists groups. split; [congruence |].
      intros g (H1 & H2 & H3)%Hl1. split_and!; [done.. |]. by apply Hk. }
  split; [done |]. destruct Hdb' as (Hok & groups & Hg & Hl).
  unfold Pickle.articleExistsRequest. rewrite Hg.
  destruct (any_group_has_id_total db' id groups) as [b ->]; [|by exists b].
  intros g Hin. by eapply group_has_id_total.
Qed.

Lemma pickle_moderated_listed : pickle_listed pickle_moderated.
Proof.
  split.
  - intros key t. unfold pickle_moderated. cbn [p_tables].
    intros [[_ <-]|[_ [_ <-]%lookup_singleton_Some]]%lookup_insert_Some; constructor.
  - exists ["mod.a"; "mod.b"]. split; [done |]. intros g Hin.
    apply elem_of_cons in Hin as [->|Hin]; [by split_and!; [..| eexists] |].
    apply elem_of_cons in Hin as [->|Hin]; [by split_and!; [..| eexists] |].
    by apply elem_of_nil in Hin.
Qed.

Lemma pickle_post_keeps_listed_witness :
  pickle_listed pickle_moderated
  ∧ Pickle.postRequest example_world example_cfg pickle_moderated message_approved
    = (pickle_after_post, Return (Posted (Succeed tt)))
  ∧ pickle_listed pickle_after_post
  ∧ Pickle.articleExistsRequest pickle_after_post "<unknown@news.example.org>"
    = Return (Succeed 0).
Proof.
  split; [apply pickle_moderated_listed |]. split; [reflexivity |].
  destruct (pickle_post_keeps_listed example_world example_cfg pickle_moderated
              pickle_after_post message_approved "<unknown@news.example.org>"
              (Return (Posted (Succeed tt))) pickle_moderated_listed eq_refl)
    as [Hl _].
  split; [exact Hl | reflexivity].
Defined.

(** X27: after a successful post to such a store,
    [articleExistsRequest] answers 1 for the Message-ID of the article,
    as soon as the Newsgroups header names a group of the list. *)
Theorem pickle_post_then_exists (w : world) (cfg : mailcfg) (db db' : pickle_db)
    (message newsgroups id key : string) (groups : list string) (a : Article) :
  pickle_listed db →
  Pickle.postRequest w cfg db message = (db', Return (Posted (Succeed tt))) →
  parse_message w message = Return a →
  getHeader a "Newsgroups" = Return newsgroups →
  getHeader a "Message-ID" = Return id →
  p_groups db = Some groups →
  key ∈ groups → key ∈ words newsgroups →
  Pickle.articleExistsRequest db' id = Return (Succeed 1).
Proof.
  intros (Hok & groups0 & Hg0 & Hl) Hpost Ha Hn Hid Hg Hkl Hkw.
  rewrite Hg in Hg0. injection Hg0 as <-.
  pose proof Hpost as (a0 & ng0 & host & db1 & xref & Ha0 & Hn0 & Hloop & _ & Hdb')%pickle_post_success.
  rewrite Ha in Ha0. injection Ha0 as <-. rewrite Hn in Hn0. injection Hn0 as <-.
  assert (has_message_id a) as Hmid by (by exists id).
  pose proof (pickle_post_loop_ok a _ Hmid _ _ _ _ Hok Hloop) as Hok1.
  assert (tables_ok db') as Hok'.
  { rewrite Hdb'. by apply restamp_ok, Hok1; apply has_message_id_putHeader. }
  apply pickle_post_files in Hpost as (a0 & ng0 & value & Ha0 & Hn0 & Htab).
  rewrite Ha in Ha0. injection Ha0 as <-. rewrite Hn in Hn0. injection Hn0 as <-.
  assert (p_groups db' = Some groups) as Hg'.
  { rewrite Hdb'.
    destruct (restamp_domain
                (putHeader a "Xref" (host +:+ " " +:+ Pickle.xref_text xref)) xref db1)
      as [-> _].
    apply pickle_post_loop_any in Hloop as (-> & _). done. }
  assert (∀ g, g ∈ groups →
            g ≠ "groups" ∧ g ≠ "moderators" ∧ is_Some (p_tables db' !! g)) as Hl'.
  { intros g (H1 & H2 & [t Ht])%Hl. split_and!; [done.. |].
    specialize (Htab g). rewrite Ht in Htab. destruct Htab as (t' & -> & _). eauto. }
  unfold Pickle.articleExistsRequest. rewrite Hg'.
  erewrite (any_group_has_id_true db' id key); [done | | done |].
  - intros g Hin. by eapply group_has_id_total.
  - destruct (Hl key Hkl) as (H1 & H2 & [t Ht]).
    specialize (Htab key). rewrite Ht in Htab. destruct Htab as (t' & Ht' & [_ Hart]).
    unfold Pickle.group_has_id. rewrite (db_get_plain db' key t') by done.
    eapply has_id_true; [by eapply tables_ok_values | |].
    + apply (dict_get_value t' (Pickle.next_index t)).
      rewrite Hart, bool_decide_true; [done |].
      pose proof (named_pos key (words newsgroups) Hkw). unfold encode in *. lia.
    + by rewrite getHeader_putHeader_ne.
Qed.

Lemma pickle_post_then_exists_witness :
  pickle_listed pickle_moderated
  ∧ Pickle.postRequest example_world example_cfg pickle_moderated message_approved
    = (pickle_after_post, Return (Posted (Succeed tt)))
  ∧ Pickle.articleExistsRequest pickle_after_post
      "<0cc175b9c0f1b6a831c399e269772661@news.example.org>" = Return (Succeed 1).
Proof.
  split; [apply pickle_moderated_listed |]. split; [reflexivity |].
  apply (pickle_post_then_exists example_world example_cfg pickle_moderated
           pickle_after_post message_approved "mod.a mod.b"
           "<0cc175b9c0f1b6a831c399e269772661@news.example.org>" "mod.a"
           ["mod.a"; "mod.b"] article_approved pickle_moderated_listed);
    [reflexivity | reflexivity | reflexivity | reflexivity | reflexivity | left | left].
Defined.

(** ** Subscriptions *)

(** X28: [addSubscription] adds to the end of the list that
    [subscriptionRequest] reports, keeps names that are added again, and
    touches nothing else; on the shelf [initialize] makes, the list is
    the names in the order they were added. *)
Theorem shelf_subscriptions_accumulate (s : shelf) (names : list string) :
  NewsShelf.subscriptionRequest (fold_left NewsShelf.addSubscription names s)
  = Succeed (s_subscriptions s ++ names)
  ∧ s_groups (fold_left NewsShelf.addSubscription names s) = s_groups s
  ∧ s_moderators (fold_left NewsShelf.addSubscription names s) = s_moderators s
  ∧ s_message_ids (fold_left NewsShelf.addSubscription names s) = s_message_ids s
  ∧ NewsShelf.subscriptionRequest (fold_left NewsShelf.addSubscription names
                                     NewsShelf.initialize)
    = Succeed names.
Proof.
  assert (∀ s0 : shelf,
            s_subscriptions (fold_left NewsShelf.addSubscription names s0)
            = s_subscriptions s0 ++ names
            ∧ s_groups (fold_left NewsShelf.addSubscription names s0) = s_groups s0
            ∧ s_moderators (fold_left NewsShelf.addSubscription names s0)
              = s_moderators s0
            ∧ s_message_ids (fold_left NewsShelf.addSubscription names s0)
              = s_message_ids s0) as Hfold.
  { induction names as [|n names IH]; intros s0.
    - cbn. by rewrite app_nil_r.
    - cbn [fold_left]. destruct (IH (NewsShelf.addSubscription s0 n)) as (H1 & H2 & H3 & H4).
      rewrite H1, H2, H3, H4. cbn [NewsShelf.addSubscription s_subscriptions
        s_groups s_moderators s_message_ids]. by rewrite <- app_assoc. }
  destruct (Hfold s) as (H1 & H2 & H3 & H4).
  destruct (Hfold NewsShelf.initialize) as (H5 & _).
  unfold NewsShelf.subscriptionRequest.
  rewrite H1, H5. by split_and!.
Qed.
